(** * domez: a shallow embedding of the binding and reconciliation runtime

    Source: packages/domez/lib/main.ts.

    The host document tree is an external collaborator of the runtime; each
    module below carries the part of it that the embedded code touches
    (a parent's child sequence for List and Toggle, attributed elements in
    document order for ref resolution).  JavaScript functions that the
    runtime only stores and later invokes (listeners, hooks, effects) are
    represented by identities, and every invocation is recorded in a trace. *)

From stdpp Require Import list strings pretty.
From Stdlib Require Import ZArith Lia Ascii.

Open Scope string_scope.
Open Scope list_scope.
Open Scope nat_scope.

(** ** createCallbackGroup (main.ts 678-702) *)

Module CallbackGroup.

(** A callback is a function object; a JS [Set] compares them by reference. *)
Abbreviation callback := nat.

(** [new Set<Function>()]: members without repetition, iterated in
    insertion order. *)
Abbreviation callbacks := (list callback).

Definition empty : callbacks := [].

(** [callbacks.add(callback)]: an existing member keeps its place. *)
Definition set_add (cb : callback) (g : callbacks) : callbacks :=
  if decide (cb ∈ g) then g else g ++ [cb].

(** [callbacks.delete(callback)] *)
Definition set_delete (cb : callback) (g : callbacks) : callbacks :=
  filter (λ x, x ≠ cb) g.

(** The closure returned by [add]: it captures the callback and owns the
    [active] flag. *)
Record disposer := Disposer { d_callback : callback; d_active : bool }.

Definition add (cb : callback) (g : callbacks) : callbacks * disposer :=
  (set_add cb g, Disposer cb true).

(** Calling the closure returned by [add]. *)
Definition dispose (d : disposer) (g : callbacks) : callbacks * disposer :=
  if negb (d_active d) then (g, d)
  else (set_delete (d_callback d) g, Disposer (d_callback d) false).

(** [call(...args)]: the four branches on [args.length]; each invokes every
    member, in iteration order, with the arguments received.  The result is
    the sequence of invocations performed. *)
Definition call {Arg : Type} (args : list Arg) (g : callbacks)
  : list (callback * list Arg) :=
  match args with
  | _ :: _ :: _ :: _ => map (λ cb, (cb, args)) g
  | [a0; a1] => map (λ cb, (cb, [a0; a1])) g
  | [a0] => map (λ cb, (cb, [a0])) g
  | [] => map (λ cb, (cb, [])) g
  end.

End CallbackGroup.

(** ** createSignal (main.ts 704-760) *)

Module Signal.
Import CallbackGroup.

Section signal.

(** [value] is the universe of JS values a cell may hold ([any] in the
    source); [===] on it is decidable identity (the universe has no [NaN]).
    [typeof_function v] is [Some f] exactly when [typeof v === "function"],
    and [f] is what calling [v] with one argument returns.  [action] is the
    type of emitted actions.  Listeners are observed, not run: they do not
    call back into the signal while it notifies. *)
Context {value action : Type} `{EqDecision value}.
Variable typeof_function : value → option (value → value).

(** An argument handed to a listener: a state or an action. *)
Inductive arg := State (v : value) | Action (a : action).

(** One listener invocation: which function, with which arguments. *)
Definition event : Type := callback * list arg.

(** The variables closed over by the functions of one signal. *)
Record signal := Signal {
  currentState : value;
  stateListeners : callbacks;
  actionListeners : callbacks
}.

Definition createSignal (initialState : value) : signal :=
  Signal initialState CallbackGroup.empty CallbackGroup.empty.

Definition get (s : signal) : value := currentState s.

(** The first two lines of [set]: a function argument is called with the
    current state. *)
Definition resolve (nextState : value) (s : signal) : value :=
  match typeof_function nextState with
  | Some f => f (currentState s)
  | None => nextState
  end.

Definition set (nextState : value) (s : signal) : signal * list event :=
  let nextState := resolve nextState s in
  if decide (currentState s = nextState) then (s, [])
  else
    let s' := Signal nextState (stateListeners s) (actionListeners s) in
    (s', call [State (currentState s')] (stateListeners s')).

Inductive group := StateGroup | ActionGroup.

(** [on(listener, type)]; [type] is [None] when the argument is omitted.
    Returns the new signal, the unsubscribe closure (with the group it
    belongs to) and the invocations performed. *)
Definition on (listener : callback) (type : option string) (s : signal)
  : signal * (group * disposer) * list event :=
  let replay :=
    if decide (type = Some "state") then [(listener, [State (currentState s)])]
    else [] in
  if decide (type = Some "action") then
    let '(g, d) := add listener (actionListeners s) in
    (Signal (currentState s) (stateListeners s) g, (ActionGroup, d), replay)
  else
    let '(g, d) := add listener (stateListeners s) in
    (Signal (currentState s) g (actionListeners s), (StateGroup, d), replay).

(** Calling the closure returned by [on]. *)
Definition off (h : group * disposer) (s : signal) : signal * (group * disposer) :=
  match h.1 with
  | StateGroup =>
      let '(g, d) := dispose h.2 (stateListeners s) in
      (Signal (currentState s) g (actionListeners s), (StateGroup, d))
  | ActionGroup =>
      let '(g, d) := dispose h.2 (actionListeners s) in
      (Signal (currentState s) (stateListeners s) g, (ActionGroup, d))
  end.

(** [emit(action)] of a signal created with [reducer]. *)
Definition emit (reducer : value → action → value) (a : action) (s : signal)
  : signal * list event :=
  let tr1 := call [State (currentState s); Action a] (actionListeners s) in
  let '(s', tr2) := set (reducer (currentState s) a) s in
  (s', tr1 ++ tr2).

(** [toggle()]: [set((prev) => !prev)]; [negate] is the function object the
    arrow function evaluates to. *)
Definition toggle (negate : value) (s : signal) : signal * list event :=
  set negate s.

(** [$set(setter)(...args)]: [set(setter(currentState, ...args))]. *)
Definition dollar_set {A : Type} (setter : value → A → value) (args : A)
    (s : signal) : signal * list event :=
  set (setter (currentState s) args) s.

(** The contract of [emit(a)] in the words of the specification: the trace
    starts with one call per action subscriber, with the pre-reduction state
    and the action; and when [r(s, a)] differs from [s], it is the new state
    and what follows is one call per state subscriber with [r(s, a)]. *)
Definition emit_as_specified (reducer : value → action → value) (a : action)
    (s : signal) : Prop :=
  ∃ rest,
    (emit reducer a s).2
    = map (λ cb, (cb, [State (currentState s); Action a])) (actionListeners s)
      ++ rest ∧
    (reducer (currentState s) a ≠ currentState s →
       currentState (emit reducer a s).1 = reducer (currentState s) a ∧
       rest = map (λ cb, (cb, [State (reducer (currentState s) a)]))
                  (stateListeners s)).

(** How often a trace invokes a given listener. *)
Definition invoked_times (cb : callback) (tr : list event) : nat :=
  length (filter (λ e, e.1 = cb) tr).

(** States a signal can be in: created, then driven through its methods. *)
Inductive reachable : signal → Prop :=
  | reach_create v : reachable (createSignal v)
  | reach_set x s : reachable s → reachable (set x s).1
  | reach_on l ty s : reachable s → reachable (on l ty s).1.1
  | reach_off h s : reachable s → reachable (off h s).1
  | reach_emit r a s : reachable s → reachable (emit r a s).1.

End signal.

End Signal.

(** A small universe of JS values used to run the signal model on concrete
    inputs: numbers, and the function objects [prev => prev + k]. *)

Module SampleValues.

Inductive jsval := JNum (n : Z) | JAdd (k : Z).

#[global] Instance jsval_eq_dec : EqDecision jsval.
Proof. solve_decision. Defined.

(** [typeof v === "function"], with the behaviour of the call [v(prev)]
    (adding to a non-number is left as the identity here). *)
Definition js_typeof_function (v : jsval) : option (jsval → jsval) :=
  match v with
  | JAdd k => Some (λ prev, match prev with JNum n => JNum (n + k) | _ => prev end)
  | JNum _ => None
  end.

End SampleValues.

(** A universe with booleans, for cells that are toggled: booleans, numbers
    and the function object [(prev) => !prev]. *)

Module SampleFlags.

Inductive jsval := JBool (b : bool) | JNumber (n : Z) | JNegate.

#[global] Instance jsval_eq_dec : EqDecision jsval.
Proof. solve_decision. Defined.

(** [ToBoolean]: 0 is falsy, a function object is truthy. *)
Definition to_boolean (v : jsval) : bool :=
  match v with
  | JBool b => b
  | JNumber n => negb (n =? 0)%Z
  | JNegate => true
  end.

(** The operator [!]. *)
Definition js_not (v : jsval) : jsval := JBool (negb (to_boolean v)).

Definition js_typeof_function (v : jsval) : option (jsval → jsval) :=
  match v with
  | JNegate => Some js_not
  | _ => None
  end.

End SampleFlags.

(** ** Completions of JS calls *)

Module Js.

(** A call either returns a value or throws; [Throw] carries the message of
    the [Error] (or names the built-in error). *)
Inductive completion (A : Type) : Type :=
  | Return (a : A)
  | Throw (message : string).
Arguments Return {A} a.
Arguments Throw {A} message.

(** [TypeError] raised by the engine on a property access or call on
    [undefined]. *)
Definition type_error : string := "TypeError".

End Js.

(** ** The host tree, as far as List and Toggle use it *)

Module Dom.

Abbreviation node := nat.

(** The child sequence of one parent node, in document order.  A node that
    does not occur in it is detached. *)
Abbreviation children := (list node).

(** [n.remove()] *)
Definition remove (n : node) (c : children) : children :=
  filter (λ x, x ≠ n) c.

(** Put [newNode] immediately before the child [referenceNode]. *)
Fixpoint insert_at (referenceNode newNode : node) (c : children) : children :=
  match c with
  | [] => []
  | x :: c' =>
      if decide (x = referenceNode) then newNode :: x :: c'
      else x :: insert_at referenceNode newNode c'
  end.

(** [parent.insertBefore(newNode, referenceNode)] for a child
    [referenceNode] of the parent: a node that is already in the tree is
    moved, and inserting a node before itself leaves the tree as it is. *)
Definition parent_insertBefore (newNode referenceNode : node) (c : children)
  : children :=
  if decide (newNode = referenceNode) then c
  else insert_at referenceNode newNode (remove newNode c).

(** The helper [insertBefore(currentNode, newNode)] (main.ts 315-317):
    [currentNode.parentNode?.insertBefore(newNode, currentNode)]. *)
Definition insertBefore (currentNode newNode : node) (c : children) : children :=
  if decide (currentNode ∈ c) then parent_insertBefore newNode currentNode c
  else c.

(** [this.before(newNode)]: nothing happens when [this] has no parent. *)
Definition before (this newNode : node) (c : children) : children :=
  if decide (this ∈ c) then parent_insertBefore newNode this c else c.

(** [n.nextSibling]; [None] is [null]. *)
Fixpoint nextSibling (n : node) (c : children) : option node :=
  match c with
  | [] => None
  | x :: c' => if decide (x = n) then head c' else nextSibling n c'
  end.

End Dom.

(** ** createRef (main.ts 280-283, 523-574) *)

Module Ref.
Import Js.

(** The double-quote character (code 34). *)
Definition dquote : string :=
  String (Ascii.Ascii false true false false false true false false) EmptyString.

Definition generateRefAttribute (id : string) : string :=
  " data-ref-" +:+ id +:+ " ".

Definition generateTemplateHTML (id : string) : string :=
  "<template data-ref=" +:+ dquote +:+ id +:+ dquote +:+ " "
  +:+ generateRefAttribute id +:+ "></template>".

Inductive ref_type := attribute | element.

Section ref.

(** [Element]: what a ref is mounted on.  [W]: the state that initializers,
    hooks and accessors read and write (the variables they close over and
    the tree).  [Args], [Result]: arguments and result of the handle.
    [element_result e] is the element [e] seen as a result, for the default
    accessor [() => element]. *)
Context {Element W Args Result : Type}.
Variable element_result : Element → Result.

Definition accessor : Type := Args → W → Result.
Definition hook : Type := W → completion unit * W.

(** The closure of one [createRef] call: its parameters and its two
    variables [accessor] and [mounted]. *)
Record ref := MkRef {
  id : string;
  template : string;
  init : option (Element → W → completion (option accessor) * W);
  onUnmount : option hook;
  onMount : option hook;
  accessor_var : option accessor;
  mounted : bool
}.

Definition createRef (id : string) (type : ref_type)
    (init : option (Element → W → completion (option accessor) * W))
    (onUnmount onMount : option hook) : ref :=
  MkRef id
        (match type with
         | attribute => generateRefAttribute id
         | element => generateTemplateHTML id
         end)
        init onUnmount onMount None false.

(** [ref.toString()] *)
Definition toString (r : ref) : string := template r.

(** Calling the handle: [ref(...args)]. *)
Definition invoke (args : Args) (r : ref) (w : W) : completion Result :=
  if negb (mounted r) then Throw "The ref has not been mounted"
  else
    match accessor_var r with
    | Some acc => Return (acc args w)
    | None => Throw type_error
    end.

(** [hook?.()] *)
Definition run_hook (h : option hook) (w : W) : completion unit * W :=
  match h with
  | Some f => f w
  | None => (Return (), w)
  end.

(** [ref.mount(element)] *)
Definition mount (el : Element) (r : ref) (w : W) : completion unit * ref * W :=
  if mounted r then (Throw "Cannot re-mount. The ref has been mounted", r, w)
  else
    let '(res, w1) :=
      match init r with
      | Some f => f el w
      | None => (Return None, w)
      end in
    match res with
    | Throw m => (Throw m, r, w1)
    | Return a =>
        let acc := default (λ _ _, element_result el) a in
        let r1 := MkRef (id r) (template r) (init r) (onUnmount r) (onMount r)
                        (Some acc) true in
        let '(res2, w2) := run_hook (onMount r) w1 in
        (res2, r1, w2)
    end.

(** [ref.unmount()] *)
Definition unmount (r : ref) (w : W) : completion unit * ref * W :=
  if negb (mounted r) then (Return (), r, w)
  else
    let r1 := MkRef (id r) (template r) (init r) (onUnmount r) (onMount r)
                    (accessor_var r) false in
    let '(res, w1) := run_hook (onUnmount r) w in
    (res, r1, w1).

End ref.

End Ref.

(** A ref to run the model on: an element ref (no initializer) on elements
    named by numbers, whose hooks append to a log. *)

Module SampleRef.
Import Js.

Definition logging_ref : @Ref.ref nat (list string) unit nat :=
  Ref.createRef "root-0" Ref.attribute None
    (Some (λ w, (Return (), w ++ ["onUnmount"])))
    (Some (λ w, (Return (), w ++ ["onMount"]))).

(** An element ref whose mount hook throws, and one whose initializer
    throws. *)
Definition failing_hook_ref : @Ref.ref nat (list string) unit nat :=
  Ref.createRef "root-1" Ref.attribute None None
    (Some (λ w, (Throw "mount hook failed", w ++ ["onMount"]))).

Definition failing_init_ref : @Ref.ref nat (list string) unit nat :=
  Ref.createRef "root-2" Ref.attribute
    (Some (λ _ w, (Throw "initializer failed", w ++ ["init"]))) None None.

End SampleRef.

(** ** createToggle (main.ts 576-626) *)

Module Toggle.
Import Js Dom.

(** The variables of one [createToggle] call, together with the child
    sequence of the parent in which the toggled element sits and the supply
    of fresh nodes for [createTextNode]. *)
Record world := World {
  dom : children;
  next_node : node;
  placeholder : option node;
  rootElement : option node;
  visible : bool
}.

(** The world before the ref is mounted: [placeholder] and [rootElement]
    are unassigned, [visible] is initialized to [false]. *)
Definition initial_world (c : children) (next : node) : world :=
  World c next None None false.

(** [set visible(value)] *)
Definition set_visible (value : bool) (w : world) : completion unit * world :=
  if decide (value = visible w) then (Return (), w)
  else
    let w1 := World (dom w) (next_node w) (placeholder w) (rootElement w) value in
    if visible w1 then
      match placeholder w1, rootElement w1 with
      | Some ph, Some root =>
          (Return (),
           World (insertBefore ph root (dom w1)) (next_node w1)
                 (placeholder w1) (rootElement w1) (visible w1))
      | _, _ => (Throw type_error, w1)
      end
    else
      match rootElement w1 with
      | Some root =>
          (Return (),
           World (remove root (dom w1)) (next_node w1)
                 (placeholder w1) (rootElement w1) (visible w1))
      | None => (Throw type_error, w1)
      end.

Definition show : world → completion unit * world := set_visible true.
Definition hide : world → completion unit * world := set_visible false.
Definition toggle (w : world) : completion unit * world :=
  set_visible (negb (visible w)) w.

(** The initializer passed to [createRef]: it returns nothing, so the
    accessor is the default one. *)
Definition toggle_init (element : node) (w : world)
  : completion (option (@Ref.accessor world unit node)) * world :=
  let ph := next_node w in
  (Return None,
   World (before element ph (dom w)) (S ph) (Some ph) (Some element) (visible w)).

(** The [onMount] hook passed to [createRef]. *)
Definition toggle_onMount (initialVisible : bool)
    (onMount : option (node → world → completion unit * world)) (w : world)
  : completion unit * world :=
  match set_visible initialVisible w with
  | (Throw m, w1) => (Throw m, w1)
  | (Return _, w1) =>
      match onMount, rootElement w1 with
      | Some f, Some root => f root w1
      | Some f, None => (Throw type_error, w1)
      | None, _ => (Return (), w1)
      end
  end.

(** [createToggle(id, initialVisible = true, onMount)]; the result's [ref]. *)
Definition createToggle (id : string) (initialVisible : option bool)
    (onMount : option (node → world → completion unit * world))
  : @Ref.ref node world unit node :=
  Ref.createRef id Ref.attribute
    (Some toggle_init)
    (Some (λ w, (Return (), w)))
    (Some (toggle_onMount (default true initialVisible) onMount)).

(** The toggled element is a child of the parent. *)
Definition attached (w : world) : Prop :=
  ∃ root, rootElement w = Some root ∧ root ∈ dom w.

(** The toggled element sits immediately before the placeholder. *)
Definition attached_before_placeholder (w : world) : Prop :=
  ∃ root ph l1 l2,
    rootElement w = Some root ∧ placeholder w = Some ph ∧
    dom w = l1 ++ root :: ph :: l2.

(** Flag and tree agree: the element sits immediately before the
    placeholder when [visible] is true; when it is false the element is
    detached and the placeholder is still a child. *)
Definition consistent (w : world) : Prop :=
  NoDup (dom w) ∧
  ∃ root ph,
    rootElement w = Some root ∧ placeholder w = Some ph ∧ root ≠ ph ∧
    if visible w then ∃ l1 l2, dom w = l1 ++ root :: ph :: l2
    else ph ∈ dom w ∧ root ∉ dom w.

End Toggle.

(** A toggle to run the model on: the element 11 between the siblings 10
    and 12, shown, with the placeholder 13 behind it. *)

Module SampleToggle.

Definition shown : Toggle.world :=
  Toggle.World [10; 11; 13; 12] 14 (Some 13) (Some 11) true.

End SampleToggle.

(** ** mountRefs, createBlock (main.ts 306-308, 628-646, 891-1080) *)

Module Block.
Import Js.

(** *** Strings *)

(** White space as [String.prototype.trim] sees it, within ASCII. *)
Definition is_whitespace (a : ascii) : bool :=
  let n := nat_of_ascii a in
  ((n =? 9) || (n =? 10) || (n =? 11) || (n =? 12) || (n =? 13) || (n =? 32))%nat.

Fixpoint trimStart (s : string) : string :=
  match s with
  | EmptyString => EmptyString
  | String a s' => if is_whitespace a then trimStart s' else s
  end.

Fixpoint trimEnd (s : string) : string :=
  match s with
  | EmptyString => EmptyString
  | String a s' =>
      match trimEnd s' with
      | EmptyString => if is_whitespace a then EmptyString else String a EmptyString
      | t => String a t
      end
  end.

Definition trim (s : string) : string := trimEnd (trimStart s).

(** [n.toString(36)] *)
Definition digit36 (d : nat) : ascii :=
  if (d <? 10)%nat then ascii_of_nat (48 + d) else ascii_of_nat (87 + d).

Fixpoint toString36_aux (fuel n : nat) (acc : string) : string :=
  match fuel with
  | 0 => acc
  | S fuel' =>
      let acc' := String (digit36 (n mod 36)) acc in
      if (n / 36 =? 0)%nat then acc' else toString36_aux fuel' (n / 36) acc'
  end.

Definition toString36 (n : nat) : string := toString36_aux (S n) n EmptyString.

(** *** The mounted subtree *)

(** An element: its identity, tag and attributes (name, value). *)
Record element := Element {
  uid : nat;
  tagName : string;
  attributes : list (string * string)
}.

(** What mounting leaves in the log: a warning of [console.warn]; the call
    [ref.mount(refElement)], with the attributes the element carries at that
    moment; the run of an effect of the builder; the run of the effect that
    populates a list. *)
Inductive event :=
  | Warn (message : string)
  | MountCall (ref_id : string) (el : nat) (attrs : list (string * string))
  | EffectRun (effect_id : nat)
  | ListInitRun (list_id : string).

(** [tree]: the block's root element followed by its descendants, in
    document order.  [log]: what has been observed so far. *)
Record world := World {
  tree : list element;
  log : list event
}.

Definition emit_event (e : event) (w : world) : world :=
  World (tree w) (log w ++ [e]).

Definition find_element (el : nat) (w : world) : option element :=
  find (λ e, bool_decide (uid e = el)) (tree w).

Definition lookup_attribute (name : string) (attrs : list (string * string))
  : option string :=
  snd <$> find (λ a, bool_decide (a.1 = name)) attrs.

Definition attribute_value (name : string) (e : element) : option string :=
  lookup_attribute name (attributes e).

(** [el.getAttribute(name)]; [None] is [null]. *)
Definition getAttribute (el : nat) (name : string) (w : world) : option string :=
  find_element el w ≫= attribute_value name.

(** [root.querySelector(`[${name}]`)]: the first descendant, in document
    order, that has the attribute. *)
Definition querySelector (root : nat) (name : string) (w : world) : option nat :=
  match tree w with
  | [] => None
  | r :: descendants =>
      if decide (uid r = root) then
        uid <$> find (λ e, bool_decide (is_Some (attribute_value name e))) descendants
      else None
  end.

(** [el.removeAttribute(name)] *)
Definition removeAttribute (el : nat) (name : string) (w : world) : world :=
  World
    (map (λ e, if decide (uid e = el)
               then Element (uid e) (tagName e)
                            (filter (λ a, a.1 ≠ name) (attributes e))
               else e)
         (tree w))
    (log w).

(** *** Refs of a block *)

Abbreviation ref := (@Ref.ref nat world unit nat).

Definition mount_ref : nat → ref → world → completion unit * ref * world :=
  Ref.mount id.

(** The [refElement] of one iteration of the [forEach] in [mountRefs]. *)
Definition refElement (rootElement : nat) (r : ref) (w : world) : option nat :=
  let attr := trim (Ref.generateRefAttribute (Ref.id r)) in
  if decide (getAttribute rootElement attr w = Some "") then Some rootElement
  else querySelector rootElement attr w.

(** One iteration of the [forEach] in [mountRefs]. *)
Definition mountRefs_step (rootElement : nat) (r : ref) (w : world)
  : completion unit * ref * world :=
  if decide (Ref.id r = "") then (Throw "Invalid ref", r, w)
  else
    match refElement rootElement r w with
    | None =>
        (Return (), r,
         emit_event (Warn ("Ref element " +:+ Ref.id r +:+ " is not rendered")) w)
    | Some el =>
        let w1 := removeAttribute el (Ref.id r) w in
        let attrs := default [] (attributes <$> find_element el w1) in
        mount_ref el r (emit_event (MountCall (Ref.id r) el attrs) w1)
    end.

(** [mountRefs(rootElement, refs)]: the refs in array order; a throw ends
    the loop. *)
Fixpoint mountRefs (rootElement : nat) (refs : list ref) (w : world)
  : completion unit * list ref * world :=
  match refs with
  | [] => (Return (), [], w)
  | r :: refs' =>
      match mountRefs_step rootElement r w with
      | (Throw m, r1, w1) => (Throw m, r1 :: refs', w1)
      | (Return _, r1, w1) =>
          let '(res, refs1, w2) := mountRefs rootElement refs' w1 in
          (res, r1 :: refs1, w2)
      end
  end.

(** *** Context *)

(** An [Effect]: a function of the builder's (its identity, and the
    disposer it returns, if any), or the one [createList] registers to push
    the initial items of a list. *)
Inductive effect :=
  | UserEffect (effect_id : nat) (disposer : option nat)
  | ListInit (list_id : string).

(** The variables of one [createBlock] call that registration and mounting
    use. *)
Record context := Context {
  ctx_id : string;
  refs : list ref;
  effects : list effect;
  mounted : bool;
  onUnmount : list nat
}.

Definition generateRefId (ctx : context) (index : nat) : string :=
  ctx_id ctx +:+ "-" +:+ toString36 index.

(** Initial data of a list: a number or an array (of the given length). *)
Inductive list_data := Count (n : nat) | Items (len : nat).

Definition truthy (d : option list_data) : bool :=
  match d with
  | None | Some (Count 0) => false
  | _ => true
  end.

(** The registration calls a builder can make on its context. *)
Inductive registration :=
  | reg_ref                           (* context.ref() *)
  | reg_ref_data                      (* context.ref(data) *)
  | reg_ref_block                     (* context.ref(blockBuilder, data) *)
  | reg_toggle (visible : option bool) (* context.toggle(visible) *)
  | reg_list (initialData : option list_data)  (* context.list(builder, data) *)
  | reg_effect (e : effect)           (* context.effect(e) *)
  | reg_on_bind                       (* context.on(signal).bind/text/html *)
  | reg_on_toggle (reverse : bool).       (* context.on(signal).show/hide *)

Definition with_refs (ctx : context) (rs : list ref) : context :=
  Context (ctx_id ctx) rs (effects ctx) (mounted ctx) (onUnmount ctx).

(** [context.effect(effect)] *)
Definition context_effect (e : effect) (ctx : context) : completion unit * context :=
  if mounted ctx then (Throw "Cannot use effect after block mounting", ctx)
  else
    (Return (),
     Context (ctx_id ctx) (refs ctx) (effects ctx ++ [e]) (mounted ctx)
             (onUnmount ctx)).

(** One registration call.  The ref's identity is derived from
    [refs.length]; what the initializers of the different kinds do to the
    tree is not part of this model. *)
Definition register (g : registration) (ctx : context) : completion unit * context :=
  let id := generateRefId ctx (length (refs ctx)) in
  match g with
  | reg_ref | reg_ref_data | reg_on_bind | reg_on_toggle _ =>
      (Return (),
       with_refs ctx (refs ctx ++ [Ref.createRef id Ref.attribute None None None]))
  | reg_ref_block =>
      (Return (),
       with_refs ctx (refs ctx ++ [Ref.createRef id Ref.element None None None]))
  | reg_toggle _ =>
      (* refs.unshift(toggle.ref) *)
      (Return (),
       with_refs ctx (Ref.createRef id Ref.attribute None None None :: refs ctx))
  | reg_list initialData =>
      (* createList registers the initial population before the ref is pushed *)
      let '(res, ctx1) :=
        if truthy initialData then context_effect (ListInit id) ctx
        else (Return (), ctx) in
      match res with
      | Throw m => (Throw m, ctx1)
      | Return _ =>
          (Return (),
           with_refs ctx1
             (refs ctx1 ++ [Ref.createRef id Ref.element None None None]))
      end
  | reg_effect e => context_effect e ctx
  end.

(** The calls of a builder, in program order. *)
Fixpoint run_builder (gs : list registration) (ctx : context)
  : completion unit * context :=
  match gs with
  | [] => (Return (), ctx)
  | g :: gs' =>
      match register g ctx with
      | (Throw m, ctx1) => (Throw m, ctx1)
      | (Return _, ctx1) => run_builder gs' ctx1
      end
  end.

(** *** Block *)

(** Running one effect during mount. *)
Definition run_effect (e : effect) (st : context * world) : context * world :=
  let '(ctx, w) := st in
  match e with
  | UserEffect n None => (ctx, emit_event (EffectRun n) w)
  | UserEffect n (Some d) =>
      (Context (ctx_id ctx) (refs ctx) (effects ctx) (mounted ctx)
               (if decide (d ∈ onUnmount ctx) then onUnmount ctx
                else onUnmount ctx ++ [d]),
       emit_event (EffectRun n) w)
  | ListInit l => (ctx, emit_event (ListInitRun l) w)
  end.

(** What the builder did and returned: its registration calls, and the
    child elements of the parsed template (each with its descendants in
    document order, as [cloneNode(true)] copies them). *)
Record builder_run := BuilderRun {
  registrations : list registration;
  content_children : list (list element)
}.

(** [block.mount(templateElement)], given the tag and the [data-ref]
    attribute of [templateElement]. *)
Definition mount (templateTag : string) (dataRef : string) (b : builder_run)
  : completion unit * context * world :=
  let ctx0 := Context EmptyString [] [] false [] in
  let w0 := World [] [] in
  if decide (templateTag ≠ "TEMPLATE") then (Throw "Invalid element", ctx0, w0)
  else
    let ctx1 := Context dataRef [] [] false [] in
    match run_builder (registrations b) ctx1 with
    | (Throw m, ctx2) => (Throw m, ctx2, w0)
    | (Return _, ctx2) =>
        match content_children b with
        | [rootSubtree] =>
            let w1 := World rootSubtree [] in
            let ctx3 := Context (ctx_id ctx2) (refs ctx2) (effects ctx2) true
                                (onUnmount ctx2) in
            match rootSubtree with
            | [] => (Throw type_error, ctx3, w1)
            | rootElement :: _ =>
                match mountRefs (uid rootElement) (refs ctx3) w1 with
                | (Throw m, refs1, w2) => (Throw m, with_refs ctx3 refs1, w2)
                | (Return _, refs1, w2) =>
                    let '(ctx4, w3) :=
                      foldl (λ st e, run_effect e st)
                            (with_refs ctx3 refs1, w2) (effects ctx3) in
                    (Return (), ctx4, w3)
                end
            end
        | children =>
            (Throw ("Invalid template. The template must have only child but got "
                    +:+ pretty (length children)),
             ctx2, w0)
        end
    end.

(** The order in which refs were handed to [ref.mount]. *)
Definition resolution_order (w : world) : list string :=
  omap (λ e, match e with MountCall i _ _ => Some i | _ => None end) (log w).

(** The event an effect leaves in the log when it runs. *)
Definition effect_event (e : effect) : event :=
  match e with
  | UserEffect n _ => EffectRun n
  | ListInit l => ListInitRun l
  end.

(** The effect runs, in the order in which they happened. *)
Definition effect_order (w : world) : list event :=
  omap (λ e, match e with
             | EffectRun _ | ListInitRun _ => Some e
             | _ => None
             end) (log w).

(** The marker attribute name that [mountRefs] looks for. *)
Definition marker (id : string) : string := trim (Ref.generateRefAttribute id).

(** A ref as [register] leaves it: no initializer or mount hook in this
    model, not mounted, with a non-empty identity. *)
Definition fresh_ref (r : ref) : Prop :=
  Ref.init r = None ∧ Ref.onMount r = None ∧ Ref.mounted r = false ∧
  Ref.id r ≠ "".

(** Registration calls other than [context.toggle]. *)
Definition pushes (g : registration) : Prop :=
  match g with reg_toggle _ => False | _ => True end.

(** How many refs a registration call creates. *)
Definition creates_ref (g : registration) : nat :=
  match g with reg_effect _ => 0 | _ => 1 end.

(** *** Unmounting, rendering, dynamic identities *)

(** [refs.forEach((ref) => ref.unmount())]: the refs in array order; a
    throw ends the loop. *)
Fixpoint unmountRefs (refs : list ref) (w : world)
  : completion unit * list ref * world :=
  match refs with
  | [] => (Return (), [], w)
  | r :: refs' =>
      match Ref.unmount r w with
      | (Throw m, r1, w1) => (Throw m, r1 :: refs', w1)
      | (Return _, r1, w1) =>
          let '(res, refs1, w2) := unmountRefs refs' w1 in
          (res, r1 :: refs1, w2)
      end
  end.

(** [block.unmount()]: the root element leaves its parent (the parent is
    not part of [world]; see [BlockList.unmount_block]), every ref is
    unmounted, and every member of [onUnmount] is called, in iteration
    order.  The last component is the sequence of disposers called. *)
Definition unmount (ctx : context) (w : world)
  : completion unit * context * world * list nat :=
  match unmountRefs (refs ctx) w with
  | (Throw m, refs1, w1) => (Throw m, with_refs ctx refs1, w1, [])
  | (Return _, refs1, w1) => (Return (), with_refs ctx refs1, w1, onUnmount ctx)
  end.

(** [render(container, blockBuilder, param)] (main.ts 1091-1100): the
    container's content becomes the template element written by
    [generateTemplateHTML("root")], and the block is mounted on it. *)
Definition render (b : builder_run) : completion unit * context * world :=
  mount "TEMPLATE" "root" b.

(** [generateDynamicRefId()] (main.ts 310-313), on the counter
    [dynamicRefId]: the identity and the counter afterwards. *)
Definition generateDynamicRefId (dynamicRefId : nat) : string * nat :=
  ("D" +:+ pretty dynamicRefId, S dynamicRefId).

(** The identities returned by [n] calls in a row. *)
Fixpoint dynamic_ids (n dynamicRefId : nat) : list string :=
  match n with
  | 0 => []
  | S n' =>
      let '(i, c) := generateDynamicRefId dynamicRefId in
      i :: dynamic_ids n' c
  end.

(** *** Notions used to state properties *)

(** The number a base-36 digit stands for, and the number a base-36
    numeral denotes. *)
Definition digit36_value (a : ascii) : nat :=
  let c := nat_of_ascii a in
  if (c <? 58)%nat then c - 48 else c - 87.

Fixpoint value36 (s : string) : nat :=
  match s with
  | EmptyString => 0
  | String a s' => digit36_value a * 36 ^ String.length s' + value36 s'
  end.

(** A ref without initializer and hooks, as [register] creates it. *)
Definition plain_ref (r : ref) : Prop :=
  Ref.init r = None ∧ Ref.onMount r = None ∧ Ref.onUnmount r = None.

(** What one iteration of [mountRefs] leaves behind for a ref: the ref is
    mounted and the log holds its [MountCall], or it is not and the log
    holds the warning. *)
Definition ref_outcome (r : ref) (e : event) : Prop :=
  (Ref.mounted r = true ∧ ∃ el attrs, e = MountCall (Ref.id r) el attrs) ∨
  (Ref.mounted r = false ∧
   e = Warn ("Ref element " +:+ Ref.id r +:+ " is not rendered")).

(** The disposers that the effects return. *)
Definition disposers (es : list effect) : list nat :=
  omap (λ e, match e with UserEffect _ d => d | ListInit _ => None end) es.

(** The tree of the template [<div M0><span M1></span></div>], where [M0]
    and [M1] are the markers of the refs root-0 and root-1. *)
Definition two_markers : list element :=
  [Element 0 "DIV" [("data-ref-root-0", "")];
   Element 1 "SPAN" [("data-ref-root-1", "")]].

(** A builder run on that template: two element refs, two effects that
    return the disposer 5, and one that returns nothing. *)
Definition two_refs_three_effects : builder_run :=
  BuilderRun
    [reg_ref; reg_effect (UserEffect 1 (Some 5)); reg_ref;
     reg_effect (UserEffect 2 None); reg_effect (UserEffect 3 (Some 5))]
    [two_markers].

End Block.

(** ** context.on(signals, listener) (main.ts 910-937) *)

Module Watch.
Import CallbackGroup.

Section watch.

Context {value : Type} `{EqDecision value}.
Variable typeof_function : value → option (value → value).

Local Abbreviation signal := (@Signal.signal value).

(** The first argument of [context.on]: one signal, or an array of
    signals.  A signal object is named by a number; two occurrences of one
    number are the same object. *)
Inductive watched := OneSignal (i : nat) | ManySignals (ids : list nat).

Definition isMultipleSignals (sig : watched) : bool :=
  match sig with OneSignal _ => false | ManySignals _ => true end.

Definition signals (sig : watched) : list nat :=
  match sig with OneSignal i => [i] | ManySignals ids => ids end.

(** What [listener] is called with: one value, the array of the values, or
    [undefined]. *)
Inductive listener_arg :=
  | Single (v : value)
  | Tuple (vs : list value)
  | Undefined.

(** The signal objects, the [onUnmount] set of the block, and the calls of
    [listener] made so far. *)
Record world := World {
  store : nat → signal;
  onUnmount : callbacks;
  calls : list listener_arg
}.

Definition update (i : nat) (s : signal) (st : nat → signal) : nat → signal :=
  λ j, if decide (j = i) then s else st j.

(** The closure of one [context.on] call: its first argument, the two
    functions it creates ([listenerWrapper] and [removeListenerWrapper], by
    identity) and the array [removeListeners], each entry with the signal
    whose [on] returned it. *)
Record watcher := Watcher {
  watched_signals : watched;
  listenerWrapper : callback;
  removeListenerWrapper : callback;
  removeListeners : list (nat * (Signal.group * disposer))
}.

(** The argument of the call of [listener] that [listenerWrapper] makes:
    [signals[0].get()] when [signals.length === 1]; otherwise, with
    [values = signals.map((signal) => signal.get())], the array [values]
    when [isMultipleSignals] holds and [values[0]] when it does not. *)
Definition argument (sig : watched) (w : world) : listener_arg :=
  match signals sig with
  | [i] => Single (Signal.get (store w i))
  | ids =>
      let values := (λ i, Signal.get (store w i)) <$> ids in
      if isMultipleSignals sig then Tuple values
      else from_option Single Undefined (head values)
  end.

(** Calling [listenerWrapper]. *)
Definition run_wrapper (wt : watcher) (w : world) : world :=
  World (store w) (onUnmount w) (calls w ++ [argument (watched_signals wt) w]).

(** [signals.map((signal) => signal.on(listenerWrapper))] *)
Fixpoint subscribe (wrapper : callback) (ids : list nat) (st : nat → signal)
  : (nat → signal) * list (nat * (Signal.group * disposer)) :=
  match ids with
  | [] => (st, [])
  | i :: ids' =>
      let '(s', h, _) := Signal.on (action := unit) wrapper None (st i) in
      let '(st', hs) := subscribe wrapper ids' (update i s' st) in
      (st', (i, h) :: hs)
  end.

(** [context.on(signal, listener)] with a listener; [wrapper] and [remover]
    are the identities of the two functions the call creates.  The result
    is the closure and the world after the first run. *)
Definition context_on (sig : watched) (wrapper remover : callback) (w : world)
  : watcher * world :=
  let '(st', hs) := subscribe wrapper (signals sig) (store w) in
  let wt := Watcher sig wrapper remover hs in
  (wt, run_wrapper wt (World st' (set_add remover (onUnmount w)) (calls w))).

(** [set(x)] on the signal [i]: the signal notifies its state subscribers,
    and [listenerWrapper] runs when it is one of them (the other
    subscribers are not part of this model). *)
Definition signal_set (wt : watcher) (i : nat) (x : value) (w : world) : world :=
  let '(s', tr) := Signal.set (action := unit) typeof_function x (store w i) in
  foldl (λ w e, if decide (e.1 = listenerWrapper wt) then run_wrapper wt w else w)
        (World (update i s' (store w)) (onUnmount w) (calls w)) tr.

(** Calling [removeListenerWrapper]. *)
Definition remove_listener (wt : watcher) (w : world) : watcher * world :=
  let st' :=
    foldl (λ st ih, update ih.1 (Signal.off ih.2 (st ih.1)).1 st)
          (store w) (removeListeners wt) in
  (Watcher (watched_signals wt) (listenerWrapper wt) (removeListenerWrapper wt) [],
   World st' (set_delete (removeListenerWrapper wt) (onUnmount w)) (calls w)).

End watch.

End Watch.

(** Signals to run the model on: the signal named [i] holds the number
    [i] and has no subscriber. *)

Module SampleWatch.
Import SampleValues.

Definition cells : @Watch.world jsval :=
  Watch.World (λ i, Signal.Signal (JNum (Z.of_nat i)) [] []) [] [].

End SampleWatch.

(** ** setClass (main.ts 762-790) *)

Module ElementClass.

(** A key of the [__classes] map: the element itself (under which its own
    class name is kept) or the [id] argument, which may be [undefined]. *)
Inductive key := KeyElement | KeyId (id : option string).

#[global] Instance key_eq_dec : EqDecision key.
Proof. solve_decision. Defined.

(** An [ElementClass] value: a string, or an object, given by what
    [Object.entries] returns for it, each value by its truthiness (for an
    array the keys are its indices). *)
Inductive class_value :=
  | ClassString (s : string)
  | ClassObject (entries : list (string * bool)).

(** The element: its [className] and its [__classes] property ([None]
    before the first call). *)
Record element := Element {
  className : string;
  classes : option (list (key * class_value))
}.

(** [Map.prototype.set]: an existing key keeps its place. *)
Definition map_set (k : key) (v : class_value) (m : list (key * class_value))
  : list (key * class_value) :=
  if decide (k ∈ m.*1)
  then (λ kv, if decide (kv.1 = k) then (k, v) else kv) <$> m
  else m ++ [(k, v)].

(** What one value of the map pushes to [classNames]. *)
Definition class_names (value : class_value) : list string :=
  match value with
  | ClassString s => if decide (s = "") then [] else [s]
  | ClassObject entries => (filter (λ e, e.2 = true) entries).*1
  end.

(** The [classNames] array after the [forEach] over the map. *)
Definition combined (m : list (key * class_value)) : list string :=
  mjoin (class_names <$> m.*2).

Definition setClass (value : class_value) (id : option string) (e : element)
  : element :=
  let classes :=
    match classes e with
    | Some m => m
    | None => [(KeyElement, ClassString (className e))]
    end in
  let classes := map_set (KeyId id) value classes in
  let classNames := combined classes in
  Element (if decide (classNames = []) then className e
           else String.concat " " classNames)
          (Some classes).

End ElementClass.

(** ** JS arrays *)

Module JsArray.

(** [a[i]] for an integer [i]; [None] is [undefined]. *)
Definition at_index {A : Type} (a : list A) (i : Z) : option A :=
  if (i <? 0)%Z then None else a !! Z.to_nat i.

(** [a.pop()]: the last element ([None]: [undefined]) and the array
    afterwards. *)
Definition pop {A : Type} (a : list A) : option A * list A :=
  (last a, take (length a - 1) a).

(** [a.shift()] *)
Definition shift {A : Type} (a : list A) : option A * list A :=
  (head a, tail a).

(** [a.splice(start, deleteCount, ...ins)]: the removed elements and the
    array afterwards.  A negative [start] counts from the end; both
    arguments are clamped to the array. *)
Definition splice {A : Type} (a : list A) (start deleteCount : Z) (ins : list A)
  : list A * list A :=
  let len := Z.of_nat (length a) in
  let actualStart :=
    if (start <? 0)%Z then Z.max (len + start) 0 else Z.min start len in
  let actualDeleteCount := Z.min (Z.max deleteCount 0) (len - actualStart) in
  let s := Z.to_nat actualStart in
  let d := Z.to_nat actualDeleteCount in
  (take d (drop s a), take s a ++ ins ++ drop (s + d) a).

(** [a.sort(compare)]: the sort is stable; [compare x y > 0] asks for [y]
    before [x].  Insertion from the right: an element goes in front of the
    sorted rest unless the comparator asks for the opposite. *)
Fixpoint sort_insert {A : Type} (compare : A → A → Z) (x : A) (sorted : list A)
  : list A :=
  match sorted with
  | [] => [x]
  | y :: sorted' =>
      if (compare x y >? 0)%Z then y :: sort_insert compare x sorted'
      else x :: y :: sorted'
  end.

Definition sort {A : Type} (compare : A → A → Z) (a : list A) : list A :=
  foldr (sort_insert compare) [] a.

End JsArray.

(** ** createList (main.ts 321-521) *)

Module BlockList.
Import Js Dom JsArray.

Section list.

(** [C]: controllers, [D]: item data.  [blockBuilder data] is the controller
    the list's block builder produces for [data]; the builder is taken to
    return a valid single-root template. *)
Context {C D : Type}.
Variable blockBuilder : D → C.

(** A mounted item block: its controller and its root element. *)
Record block := Block { controller : C; rootElement : node }.

(** The variables of one [createList] call after its ref has mounted
    ([items], [placeholder]), the child sequence of the node that contains
    the list, the supply of fresh nodes, and the roots of the blocks whose
    [unmount] has run, oldest first. *)
Record state := State {
  items : list block;
  placeholder : node;
  dom : children;
  next_node : node;
  unmounted : list node
}.

Definition with_items (st : state) (l : list block) : state :=
  State l (placeholder st) (dom st) (next_node st) (unmounted st).

Definition with_dom (st : state) (c : children) : state :=
  State (items st) (placeholder st) c (next_node st) (unmounted st).

(** The initializer of the list's ref, run on the [<template>] element that
    stands for the list: a fresh text node takes its place. *)
Definition list_init (element : node) (c : children) (next : node) : state :=
  State [] next (remove element (before element next c)) (S next) [].

(** [block.unmount()], as far as the list can see it: the root leaves the
    tree. *)
Definition unmount_block (b : block) (st : state) : state :=
  State (items st) (placeholder st) (remove (rootElement b) (dom st))
        (next_node st) (unmounted st ++ [rootElement b]).

(** [createItem(data, insertAction)]: a fresh [<template>] element is put
    in place by [insertAction]; mounting the block puts the block's fresh
    root before it and removes it. *)
Definition createItem (data : D) (insertAction : node → children → children)
    (st : state) : block * state :=
  let templateElement := next_node st in
  let rootElement := S templateElement in
  let c1 := insertAction templateElement (dom st) in
  let c2 := before templateElement rootElement c1 in
  let c3 := remove templateElement c2 in
  (Block (blockBuilder data) rootElement,
   State (items st) (placeholder st) c3 (S rootElement) (unmounted st)).

Definition size (st : state) : Z := Z.of_nat (length (items st)).

Definition get (index : Z) (st : state) : option C :=
  controller <$> at_index (items st) index.

(** [items[index]?.rootElement ?? placeholder] *)
Definition anchor (index : Z) (st : state) : node :=
  default (placeholder st) (rootElement <$> at_index (items st) index).

Definition set (index : Z) (data : D) (st : state) : completion C * state :=
  if ((index <? 0) || (index >=? size st))%Z
  then (Throw "Item index is out of range", st)
  else
    match at_index (items st) index with
    | None => (Throw type_error, st)
    | Some old =>
        let '(blk, st1) :=
          createItem data (λ element, insertBefore (rootElement old) element) st in
        let st2 := unmount_block old st1 in
        (Return (controller blk),
         with_items st2 (<[Z.to_nat index := blk]> (items st2)))
    end.

Definition first (st : state) : completion C :=
  if decide (length (items st) ≠ 0)
  then Throw "Cannot access the first item of empty list"
  else
    match at_index (items st) 0 with
    | Some b => Return (controller b)
    | None => Throw type_error
    end.

Definition last (st : state) : completion C :=
  if decide (length (items st) ≠ 0)
  then Throw "Cannot access the last item of empty list"
  else
    match at_index (items st) (size st - 1) with
    | Some b => Return (controller b)
    | None => Throw type_error
    end.

Definition pop (st : state) : option C * state :=
  let '(item, items1) := JsArray.pop (items st) in
  match item with
  | None => (None, with_items st items1)
  | Some item => (Some (controller item), unmount_block item (with_items st items1))
  end.

Definition shift (st : state) : option C * state :=
  let '(item, items1) := JsArray.shift (items st) in
  match item with
  | None => (None, with_items st items1)
  | Some item => (Some (controller item), unmount_block item (with_items st items1))
  end.

Definition unshift (data : D) (st : state) : C * state :=
  let '(blk, st1) :=
    createItem data (λ element, insertBefore (anchor 0 st) element) st in
  (controller blk, with_items st1 (blk :: items st1)).

Definition push (data : D) (st : state) : C * state :=
  let '(blk, st1) :=
    createItem data (λ element, insertBefore (placeholder st) element) st in
  (controller blk, with_items st1 (items st1 ++ [blk])).

Definition insert (index : Z) (data : D) (st : state) : C * state :=
  let '(blk, st1) :=
    createItem data (λ element, insertBefore (anchor index st) element) st in
  (controller blk, with_items st1 (splice (items st1) index 0 [blk]).2).

(** The guard shared by [swap] and [move]. *)
Definition bad_indices (from to : Z) (st : state) : bool :=
  bool_decide (length (items st) = 0)
  || ((from =? to) || (from <? 0) || (to <? 0)
      || (from >=? size st) || (to >=? size st))%Z.

Definition swap (from to : Z) (st : state) : state :=
  if bad_indices from to st then st
  else
    (* make sure "from" is always less than "to" *)
    let '(from, to) := if (from >? to)%Z then (to, from) else (from, to) in
    match at_index (items st) to, at_index (items st) from with
    | Some toItem, Some fromItem =>
        let nextFrom :=
          default (placeholder st) (nextSibling (rootElement fromItem) (dom st)) in
        let items1 := <[Z.to_nat from := toItem]> (items st) in
        let items2 := <[Z.to_nat to := fromItem]> items1 in
        let c1 := insertBefore (rootElement toItem) (rootElement fromItem) (dom st) in
        let c2 := insertBefore nextFrom (rootElement toItem) c1 in
        with_dom (with_items st items2) c2
    | _, _ => st
    end.

Definition move (from to : Z) (st : state) : state :=
  if bad_indices from to st then st
  else
    match at_index (items st) to, at_index (items st) from with
    | Some toItem, Some fromItem =>
        let items1 := (splice (items st) to 0 [fromItem]).2 in
        let c1 := before (rootElement toItem) (rootElement fromItem) (dom st) in
        with_dom (with_items st items1) c1
    | _, _ => st
    end.

(** The [forEach] of [sort]: the state, the index and [lastNode]. *)
Fixpoint sort_thread (sorted : list block) (index : nat) (lastNode : node)
    (st : state) : state :=
  match sorted with
  | [] => st
  | b :: sorted' =>
      let c1 := insertBefore lastNode (rootElement b) (dom st) in
      let st1 := with_dom (with_items st (<[index := b]> (items st))) c1 in
      sort_thread sorted' (S index) (rootElement b) st1
  end.

Definition sort (sortFn : C → C → Z) (st : state) : state :=
  if decide (length (items st) = 0) then st
  else
    let sorted :=
      JsArray.sort (λ a b, (- sortFn (controller a) (controller b))%Z) (items st) in
    sort_thread sorted 0 (placeholder st) st.

(** The arguments of [remove]: a predicate or an index, and the count when
    one is passed. *)
Inductive remove_args :=
  | by_predicate (predicate : C → Z → bool) (count : option Z)
  | by_index (index : Z) (count : option Z).

(** What [remove] returns: an array of controllers, or the value of
    [removed[0]] (a block, or [undefined]). *)
Inductive remove_result :=
  | Controllers (cs : list C)
  | FirstRemoved (b : option block).

(** The [for ... of] loop of [remove(predicate, count)]: the blocks removed
    so far with their indices, the remaining count ([None]: the default
    [Number.MAX_VALUE], which decrementing leaves as it is). *)
Fixpoint remove_scan (predicate : C → Z → bool) (rest : list block) (index : nat)
    (count : option Z) (st : state) : list (nat * block) * state :=
  match rest with
  | [] => ([], st)
  | item :: rest' =>
      let hit := predicate (controller item) (Z.of_nat index) in
      let st1 := if hit then unmount_block item st else st in
      let count1 := if hit then (λ c, c - 1)%Z <$> count else count in
      let here := if hit then [(index, item)] else [] in
      if bool_decide (count1 = Some 0%Z) then (here, st1)
      else
        let '(more, st2) := remove_scan predicate rest' (S index) count1 st1 in
        (here ++ more, st2)
  end.

Definition remove (args : remove_args) (st : state) : remove_result * state :=
  match args with
  | by_predicate predicate count =>
      let '(hits, st1) := remove_scan predicate (items st) 0 count st in
      (* while (removedIndices.length) items.splice(removedIndices.pop(), 1) *)
      let items1 :=
        foldr (λ i l, (splice l (Z.of_nat i) 1 []).2) (items st1) (hits.*1) in
      (Controllers (controller <$> hits.*2), with_items st1 items1)
  | by_index index count =>
      let '(removed, items1) := splice (items st) index (default 1%Z count) [] in
      let st1 := foldl (λ s x, unmount_block x s) (with_items st items1) removed in
      (* arguments.length > 1 *)
      if bool_decide (is_Some count) then (FirstRemoved (head removed), st1)
      else (Controllers (controller <$> removed), st1)
  end.

(** The scan shared by [items.findIndex(...)] and [items.find(...)]: the
    first entry from [index] on whose controller and index satisfy the
    predicate. *)
Fixpoint find_from (predicate : C → Z → bool) (rest : list block) (index : nat)
  : option (nat * block) :=
  match rest with
  | [] => None
  | item :: rest' =>
      if predicate (controller item) (Z.of_nat index) then Some (index, item)
      else find_from predicate rest' (S index)
  end.

Definition findIndex (predicate : C → Z → bool) (st : state) : Z :=
  match find_from predicate (items st) 0 with
  | Some (index, _) => Z.of_nat index
  | None => (-1)%Z
  end.

Definition find (predicate : C → Z → bool) (st : state) : option C :=
  match find_from predicate (items st) 0 with
  | Some (_, item) => Some (controller item)
  | None => None
  end.

(** [forEach(callback)]: the calls of [callback], in the order in which they
    are made. *)
Definition forEach (st : state) : list (C * Z) :=
  imap (λ index item, (controller item, Z.of_nat index)) (items st).

(** The [onUnmount] hook of the list's ref (main.ts 347-351): every block is
    unmounted, [items] is emptied, and the placeholder leaves the tree. *)
Definition list_unmount (st : state) : state :=
  let st1 := foldl (λ s item, unmount_block item s) st (items st) in
  State [] (placeholder st1) (Dom.remove (placeholder st1) (dom st1))
        (next_node st1) (unmounted st1).

(** The initial data of [createList] (main.ts 510-518): a number or an
    array; [undefined] is the value the array of a number is filled with. *)
Inductive initial_data :=
  | InitialCount (n : nat)
  | InitialItems (l : list D).

Definition initialList (undefined : D) (initialData : initial_data) : list D :=
  match initialData with
  | InitialCount n => replicate n undefined
  | InitialItems l => l
  end.

(** The effect that [createList] registers: [initialList.forEach((item) =>
    list.push(item))]. *)
Definition populate (initialList : list D) (st : state) : state :=
  foldl (λ s item, (push item s).2) st initialList.

(** *** Notions used to state properties *)

(** The controllers of the entries, in the order of the backing sequence. *)
Definition controllers (st : state) : list C := controller <$> items st.

(** The entries, from [index] on, whose controller and index satisfy a
    predicate. *)
Fixpoint hits_from (predicate : C → Z → bool) (rest : list block) (index : nat)
  : list block :=
  match rest with
  | [] => []
  | item :: rest' =>
      (if predicate (controller item) (Z.of_nat index) then [item] else [])
      ++ hits_from predicate rest' (S index)
  end.

(** A consistent comparison function, as [Array.prototype.sort] asks for:
    [sortFn(a, b)] and [sortFn(b, a)] have opposite signs, and "not behind"
    is transitive. *)
Definition consistent_comparator (sortFn : C → C → Z) : Prop :=
  (∀ a b, (sortFn a b < 0)%Z ↔ (0 < sortFn b a)%Z) ∧
  (∀ a b c, (sortFn a b ≤ 0)%Z → (sortFn b c ≤ 0)%Z → (sortFn a c ≤ 0)%Z).

(** A sequence of controllers in descending order: the comparator is not
    negative on an earlier and a later one. *)
Definition descending (sortFn : C → C → Z) (cs : list C) : Prop :=
  ∀ i j a b, i < j → cs !! i = Some a → cs !! j = Some b → (0 ≤ sortFn a b)%Z.

(** The roots of the entries of the backing sequence. *)
Definition roots (st : state) : list node := rootElement <$> items st.

(** The list's nodes among the children, in document order: the roots of
    its entries and the placeholder. *)
Definition managed_siblings (st : state) : list node :=
  filter (λ n, n ∈ placeholder st :: roots st) (dom st).

(** Backing sequence and tree agree: no entry occurs twice, and the managed
    children are exactly the entries' roots, in the order of the backing
    sequence, followed by the placeholder. *)
Definition in_sync (st : state) : Prop :=
  NoDup (roots st) ∧ managed_siblings st = roots st ++ [placeholder st].

#[global] Instance in_sync_dec (st : state) : Decision (in_sync st).
Proof. unfold in_sync. apply _. Defined.

(** The shape the operations keep when they work as intended: the children
    are distinct allocated nodes, and the roots of the entries sit next to
    each other in front of the placeholder. *)
Definition well_formed (st : state) : Prop :=
  NoDup (dom st) ∧
  (∀ n, n ∈ dom st → n < next_node st) ∧
  ∃ pre post, dom st = pre ++ roots st ++ placeholder st :: post.

End list.

End BlockList.

(** A list to run the model on: controllers and data are numbers, the
    builder returns its data.  The list stands between the nodes 0 and 2;
    its ref is mounted on the template element 1, and 10, 20, 30 are pushed
    (their roots are the nodes 5, 7 and 9, the placeholder is 3). *)

Module SampleList.
Import BlockList.

Definition builder (data : nat) : nat := data.

Definition empty_list : @state nat := list_init 1 [0; 1; 2] 3.

Definition three_items : @state nat :=
  (push builder 30 (push builder 20 (push builder 10 empty_list).2).2).2.

(** The comparator [(a, b) => a - b]. *)
Definition ascending (a b : nat) : Z := (Z.of_nat a - Z.of_nat b)%Z.

End SampleList.

(** ** Proof automation *)

(** Right-nested normal form of concatenations of mapped lists. *)
Ltac app_normal :=
  repeat progress (rewrite ?fmap_app, ?fmap_cons, <- ?app_assoc, <- ?app_comm_cons).

(** * Properties *)

(** ** Callback groups *)

Section callback_group_facts.
Import CallbackGroup.

Lemma call_eq {Arg : Type} (args : list Arg) (g : callbacks) :
  call args g = map (λ cb, (cb, args)) g.
Proof. by destruct args as [|a0 [|a1 [|a2 rest]]]. Qed.

Lemma set_add_NoDup cb g : NoDup g → NoDup (set_add cb g).
Proof.
  intros Hg. unfold set_add. case_decide as Hin; [done|].
  apply NoDup_app. split_and!; [done| |apply NoDup_singleton].
  intros x Hx Hx'. apply list_elem_of_singleton in Hx'. by subst.
Qed.

Lemma set_delete_NoDup cb g : NoDup g → NoDup (set_delete cb g).
Proof. apply NoDup_filter. Qed.

Lemma set_add_elem cb g : cb ∈ set_add cb g.
Proof.
  unfold set_add. case_decide; [done|].
  apply elem_of_app. right. by apply list_elem_of_singleton.
Qed.

Lemma set_add_prefix cb g : g `prefix_of` set_add cb g.
Proof.
  unfold set_add. case_decide; [done|]. by apply prefix_app_r.
Qed.

Lemma set_delete_notin cb g : cb ∉ g → set_delete cb g = g.
Proof.
  induction g as [|x g IH]; [done|]. intros Hcb.
  apply not_elem_of_cons in Hcb as [Hne Hcb]. unfold set_delete in *.
  rewrite filter_cons_True by congruence. by rewrite IH.
Qed.

Lemma set_delete_set_add cb g : set_delete cb (set_add cb g) = set_delete cb g.
Proof.
  unfold set_add. case_decide; [done|]. unfold set_delete.
  rewrite filter_app, filter_cons_False by (intros Hne; by apply Hne).
  by rewrite filter_nil, app_nil_r.
Qed.

Lemma set_delete_not_elem cb g : cb ∉ set_delete cb g.
Proof.
  unfold set_delete. rewrite list_elem_of_filter. intros [Hne _]. by apply Hne.
Qed.

(** X1: the closure returned by [add] works once.  Calling it removes the
    callback from the group, and restores the group when the callback was
    new; once called, it changes no group any more, not even one the
    callback has been added to again.  A callback added twice is a member
    once, so the first of its two closures already removes it. *)
Theorem disposer_removes_once (cb : callback) (g : callbacks) :
  (dispose (add cb g).2 (add cb g).1).1 = set_delete cb g ∧
  (cb ∉ g → (dispose (add cb g).2 (add cb g).1).1 = g) ∧
  (∀ g', dispose (dispose (add cb g).2 (add cb g).1).2 g'
         = (g', (dispose (add cb g).2 (add cb g).1).2)) ∧
  cb ∉ (dispose (add cb g).2 (add cb (add cb g).1).1).1.
Proof.
  unfold add, dispose. simpl. split_and!.
  - apply set_delete_set_add.
  - intros Hcb. by rewrite set_delete_set_add, set_delete_notin.
  - done.
  - apply set_delete_not_elem.
Qed.

End callback_group_facts.

(** ** Signals *)

Section signal_facts.
Import CallbackGroup Signal.
Context {value action : Type} `{EqDecision value}.
Variable typeof_function : value → option (value → value).

Local Abbreviation signal := (@signal value).
Local Abbreviation event := (@event value action).
Local Abbreviation set := (@set value action _ typeof_function).
Local Abbreviation emit := (@emit value action _ typeof_function).
Local Abbreviation on := (@on value action).
Local Abbreviation reachable := (@reachable value action _ typeof_function).

Lemma set_listeners (x : value) (s : signal) :
  stateListeners (set x s).1 = stateListeners s ∧
  actionListeners (set x s).1 = actionListeners s.
Proof. unfold Signal.set. by case_decide. Qed.

Lemma reachable_NoDup (s : signal) :
  reachable s → NoDup (stateListeners s) ∧ NoDup (actionListeners s).
Proof.
  induction 1 as [v|x s _ [IH1 IH2]|l ty s _ [IH1 IH2]|[g d] s _ [IH1 IH2]
                  |r a s _ [IH1 IH2]].
  - split; apply NoDup_nil_2.
  - by destruct (set_listeners x s) as [-> ->].
  - unfold Signal.on. case_decide; simpl; split; auto using set_add_NoDup.
  - unfold off, dispose. simpl. destruct g, (d_active d); simpl;
      split; auto using set_delete_NoDup.
  - unfold Signal.emit.
    destruct (set (r (currentState s) a) s) as [s' tr2] eqn:E. simpl.
    pose proof (set_listeners (r (currentState s) a) s) as Hl.
    rewrite E in Hl. simpl in Hl. by destruct Hl as [-> ->].
Qed.

Lemma invoked_times_map {X : Type} (cb : callback) (f : callback → list X)
    (g : callbacks) :
  NoDup g →
  length (filter (λ e : callback * list X, e.1 = cb) (map (λ c, (c, f c)) g))
  = if decide (cb ∈ g) then 1 else 0.
Proof.
  induction 1 as [|c g Hc Hg IH]; [done|].
  rewrite map_cons, filter_cons. simpl.
  destruct (decide (c = cb)) as [->|Hne]; simpl.
  - rewrite IH, decide_False by done.
    by rewrite decide_True by apply list_elem_of_here.
  - rewrite IH. symmetry. apply decide_ext.
    rewrite elem_of_cons. split; [|by right]. intros [?|?]; [congruence|done].
Qed.

Lemma set_changed (x : value) (s : signal) :
  Signal.resolve typeof_function x s ≠ currentState s →
  set x s =
    (Signal (Signal.resolve typeof_function x s) (stateListeners s) (actionListeners s),
     map (λ cb, (cb, [State (Signal.resolve typeof_function x s)])) (stateListeners s)).
Proof.
  intros Hne. unfold Signal.set. by rewrite decide_False by congruence.
Qed.

Lemma set_same (x : value) (s : signal) :
  Signal.resolve typeof_function x s = currentState s → set x s = (s, []).
Proof. intros Heq. unfold Signal.set. by rewrite decide_True. Qed.


(** C10: [on(listener)] without a kind adds the listener to the state
    subscribers only and invokes nothing; the listener is then called by the
    next effective [set].  For any kind argument, the only invocation [on]
    performs is the replay with the current state, and it happens exactly
    when the kind is the string "state". *)
Theorem on_without_kind_does_not_replay (listener : callback) (s : signal) :
  (on listener None s).2 = [] ∧
  currentState (on listener None s).1.1 = currentState s ∧
  stateListeners (on listener None s).1.1 = set_add listener (stateListeners s) ∧
  actionListeners (on listener None s).1.1 = actionListeners s ∧
  (∀ x, Signal.resolve typeof_function x s ≠ currentState s →
        (listener, [State (Signal.resolve typeof_function x s)])
          ∈ (set x (on listener None s).1.1).2) ∧
  (∀ ty, (on listener ty s).2 =
         if decide (ty = Some "state")
         then [(listener, [State (currentState s)])] else []).
Proof.
  split_and!; try done.
  - intros x Hne. rewrite set_changed by done. simpl.
    apply (list_elem_of_fmap_2 (λ cb, (cb, _))), set_add_elem.
  - intros ty. unfold Signal.on. by repeat case_decide.
Qed.

(** C7, amended to what the code does: [emit(a)] first invokes every action
    subscriber with the pre-reduction state and the action, then hands
    [r(s, a)] to [set].  When [r(s, a)] is not a function, the specified
    contract holds: nothing more happens if it is identical to [s];
    otherwise it is stored and every state subscriber is invoked with it.
    When [r(s, a)] is a function [g], [set] calls it, and [g(s)] takes the
    place of [r(s, a)]. *)
Theorem emit_action_listeners_then_set (r : value → action → value)
    (a : action) (s : signal) :
  (typeof_function (r (currentState s) a) = None →
     emit_as_specified typeof_function r a s ∧
     (r (currentState s) a = currentState s →
        emit r a s =
          (s, map (λ cb, (cb, [State (currentState s); Action a]))
                  (actionListeners s))) ∧
     (r (currentState s) a ≠ currentState s →
        emit r a s =
          (Signal (r (currentState s) a) (stateListeners s) (actionListeners s),
           map (λ cb, (cb, [State (currentState s); Action a]))
               (actionListeners s)
           ++ map (λ cb, (cb, [State (r (currentState s) a)]))
                  (stateListeners s)))) ∧
  (∀ g, typeof_function (r (currentState s) a) = Some g →
     (g (currentState s) = currentState s →
        emit r a s =
          (s, map (λ cb, (cb, [State (currentState s); Action a]))
                  (actionListeners s))) ∧
     (g (currentState s) ≠ currentState s →
        emit r a s =
          (Signal (g (currentState s)) (stateListeners s) (actionListeners s),
           map (λ cb, (cb, [State (currentState s); Action a]))
               (actionListeners s)
           ++ map (λ cb, (cb, [State (g (currentState s))]))
                  (stateListeners s)))).
Proof.
  assert (Hplain : typeof_function (r (currentState s) a) = None →
            (r (currentState s) a = currentState s →
               emit r a s =
                 (s, map (λ cb, (cb, [State (currentState s); Action a]))
                         (actionListeners s))) ∧
            (r (currentState s) a ≠ currentState s →
               emit r a s =
                 (Signal (r (currentState s) a) (stateListeners s)
                         (actionListeners s),
                  map (λ cb, (cb, [State (currentState s); Action a]))
                      (actionListeners s)
                  ++ map (λ cb, (cb, [State (r (currentState s) a)]))
                         (stateListeners s)))).
  { intros Hty. split; intros Hr; unfold Signal.emit.
    + rewrite set_same by (unfold Signal.resolve; by rewrite Hty).
      by rewrite call_eq, app_nil_r.
    + rewrite set_changed by (unfold Signal.resolve; by rewrite Hty).
      rewrite call_eq. unfold Signal.resolve. by rewrite Hty. }
  split.
  - intros Hty. destruct (Hplain Hty) as [Hsame Hchanged].
    split; [|done]. unfold emit_as_specified.
    destruct (decide (r (currentState s) a = currentState s)) as [Heq|Hne].
    + exists []. rewrite (Hsame Heq). simpl. by rewrite app_nil_r.
    + eexists. rewrite (Hchanged Hne). simpl. split; [done|]. done.
  - intros g Hty. split; intros Hr; unfold Signal.emit.
    + rewrite set_same by (unfold Signal.resolve; by rewrite Hty).
      by rewrite call_eq, app_nil_r.
    + rewrite set_changed by (unfold Signal.resolve; by rewrite Hty).
      rewrite call_eq. unfold Signal.resolve. by rewrite Hty.
Qed.

(** *** Plain values, unsubscribing, toggling *)

Lemma not_invoked (cb : callback) (args : list (@Signal.arg value action))
    (g : callbacks) :
  cb ∉ g → invoked_times cb (map (λ c, (c, args)) g) = 0.
Proof.
  intros Hcb. unfold invoked_times. induction g as [|c g IH]; [done|].
  apply not_elem_of_cons in Hcb as [Hne Hcb].
  rewrite map_cons, filter_cons_False by (simpl; congruence). by apply IH.
Qed.

Lemma set_not_invoked (cb : callback) (x : value) (s : signal) :
  cb ∉ stateListeners s → invoked_times cb (set x s).2 = 0.
Proof.
  intros Hcb. unfold Signal.set. case_decide; [done|].
  simpl. by apply not_invoked.
Qed.

Lemma set_trace_callbacks (x : value) (s : signal) (e : event) :
  e ∈ (set x s).2 → e.1 ∈ stateListeners s.
Proof.
  unfold Signal.set. case_decide; simpl; [by intros ?%elem_of_nil|].
  intros (c & -> & Hc)%list_elem_of_fmap. done.
Qed.

(** [set] with a value that is not a function stores exactly that
    value, and repeating the call changes nothing and notifies nobody. *)
Lemma set_plain_value_twice (x : value) (s : signal) :
  typeof_function x = None →
  Signal.get (set x s).1 = x ∧ set x (set x s).1 = ((set x s).1, []).
Proof.
  intros Hty.
  assert (Hget : currentState (set x s).1 = x).
  { unfold Signal.set, Signal.resolve. rewrite Hty. by case_decide. }
  split; [done|]. apply set_same. unfold Signal.resolve. by rewrite Hty.
Qed.

(** X2: the closure returned by [on] ends the subscription.  For a
    listener subscribed to state changes (no kind, or the kind "state"):
    it is a state subscriber after [on]; after the closure has run it is
    none, no [set] invokes it, and the other subscribers are as before [on]
    (all of them when the listener was new).  For the kind "action" the same
    holds of the action subscribers.  Running the closure again changes
    nothing. *)
Theorem unsubscribe_stops_notifications (listener : callback)
    (ty : option string) (s : signal) :
  let s1 := (on listener ty s).1.1 in
  let h := (on listener ty s).1.2 in
  (ty ≠ Some "action" →
     listener ∈ stateListeners s1 ∧
     stateListeners (off h s1).1 = set_delete listener (stateListeners s) ∧
     actionListeners (off h s1).1 = actionListeners s ∧
     (listener ∉ stateListeners s → stateListeners (off h s1).1 = stateListeners s) ∧
     ∀ x, invoked_times listener (set x (off h s1).1).2 = 0) ∧
  (ty = Some "action" →
     listener ∈ actionListeners s1 ∧
     actionListeners (off h s1).1 = set_delete listener (actionListeners s) ∧
     stateListeners (off h s1).1 = stateListeners s ∧
     (listener ∉ actionListeners s →
        actionListeners (off h s1).1 = actionListeners s)) ∧
  currentState (off h s1).1 = currentState s ∧
  off (off h s1).2 (off h s1).1 = ((off h s1).1, (off h s1).2).
Proof.
  intros s1 h. subst s1 h. unfold Signal.on, off, add, dispose.
  destruct (decide (ty = Some "action")) as [Hty|Hty]; simpl.
  - split_and!; try done. intros _. rewrite set_delete_set_add.
    split_and!; [apply set_add_elem|done|done|apply set_delete_notin].
  - split_and!; try done. intros _. rewrite set_delete_set_add.
    split_and!; [apply set_add_elem|done|done|apply set_delete_notin|].
    intros x. apply set_not_invoked. simpl. apply set_delete_not_elem.
Qed.

(** [toggle()] is [set] with the updater [(prev) => !prev].  As [!v]
    is never identical to [v], the call is never a no-op: it stores the
    negation of the current value and invokes every state subscriber with
    it. *)
Lemma toggle_flips_and_notifies (js_not : value → value) (negate : value)
    (s : signal) :
  typeof_function negate = Some js_not →
  (∀ v, js_not v ≠ v) →
  Signal.toggle typeof_function (action := action) negate s
  = (Signal (js_not (currentState s)) (stateListeners s) (actionListeners s),
     map (λ cb, (cb, [State (js_not (currentState s))])) (stateListeners s)).
Proof.
  intros Hty Hneq. unfold Signal.toggle.
  assert (Hres : Signal.resolve typeof_function negate s = js_not (currentState s))
    by (unfold Signal.resolve; by rewrite Hty).
  rewrite set_changed by (rewrite Hres; apply Hneq). by rewrite Hres.
Qed.

(** [$set(setter)(args)] relates to [set] as [emit] does to its reducer: on
    a cell without action subscribers the two do the same. *)
Lemma dollar_set_as_emit (setter : value → action → value) (a : action)
    (s : signal) :
  actionListeners s = [] →
  Signal.dollar_set typeof_function (action := action) setter a s
  = emit setter a s.
Proof.
  intros Hnone. unfold Signal.dollar_set, Signal.emit. rewrite Hnone.
  by destruct (set (setter (currentState s) a) s).
Qed.

End signal_facts.

Section signal_examples.
Import CallbackGroup Signal SampleValues.


(** C7 as stated fails when the reducer returns a function: with state 0 and
    a reducer returning [prev => prev + 5], [r(s, a)] differs from [s], yet
    the stored state is 5 and the state subscriber is invoked with 5, not
    with [r(s, a)]. *)
Lemma emit_function_result_counterexample :
  ¬ emit_as_specified js_typeof_function (λ _ _, JAdd 5) ()
      (Signal (JNum 0) [1] [2]) ∧
  emit js_typeof_function (λ _ _, JAdd 5) () (Signal (JNum 0) [1] [2])
  = (Signal (JNum 5) [1] [2],
     [(2, [State (JNum 0); Action ()]); (1, [State (JNum 5)])]).
Proof.
  split; [|done].
  intros (rest & _ & Hrest). destruct Hrest as [Hstate _]; [done|].
  vm_compute in Hstate. discriminate.
Qed.

(** C7 amended, run on a reducer whose result is a plain value. *)
Lemma emit_action_listeners_then_set_witness :
  emit js_typeof_function (λ st (k : Z), match st with JNum n => JNum (n + k) | _ => st end)
       3%Z (Signal (JNum 1) [1] [2])
  = (Signal (JNum 4) [1] [2],
     [(2, [State (JNum 1); Action 3%Z]); (1, [State (JNum 4)])]).
Proof.
  pose proof (emit_action_listeners_then_set js_typeof_function
    (λ st (k : Z), match st with JNum n => JNum (n + k) | _ => st end)
    3%Z (Signal (JNum 1) [1] [2])) as [Hplain _].
  destruct (Hplain eq_refl) as (_ & _ & Hchanged).
  apply Hchanged. discriminate.
Defined.

(** Setting a cell that holds 0 to 3, twice: one notification. *)
Lemma set_plain_value_twice_witness :
  let s := Signal (JNum 0) [1] [2] in
  get (set (action := unit) js_typeof_function (JNum 3) s).1 = JNum 3 ∧
  set (action := unit) js_typeof_function (JNum 3)
      (set (action := unit) js_typeof_function (JNum 3) s).1
  = (Signal (JNum 3) [1] [2], []).
Proof.
  exact (set_plain_value_twice (action := unit) js_typeof_function (JNum 3)
           (Signal (JNum 0) [1] [2]) eq_refl).
Defined.

(** Toggling a cell that holds the number 0 stores [true]; toggling again
    stores [false], not 0. *)
Lemma toggle_flips_and_notifies_witness :
  let s := Signal (SampleFlags.JNumber 0) [1] [] in
  toggle (action := unit) SampleFlags.js_typeof_function SampleFlags.JNegate s
  = (Signal (SampleFlags.JBool true) [1] [],
     [(1, [State (SampleFlags.JBool true)])]) ∧
  toggle (action := unit) SampleFlags.js_typeof_function SampleFlags.JNegate
         (Signal (SampleFlags.JBool true) [1] [])
  = (Signal (SampleFlags.JBool false) [1] [],
     [(1, [State (SampleFlags.JBool false)])]).
Proof.
  assert (Hneq : ∀ v, SampleFlags.js_not v ≠ v).
  { intros [[]|n|]; try discriminate. }
  split.
  - exact (toggle_flips_and_notifies (action := unit)
             SampleFlags.js_typeof_function SampleFlags.js_not
             SampleFlags.JNegate (Signal (SampleFlags.JNumber 0) [1] [])
             eq_refl Hneq).
  - exact (toggle_flips_and_notifies (action := unit)
             SampleFlags.js_typeof_function SampleFlags.js_not
             SampleFlags.JNegate (Signal (SampleFlags.JBool true) [1] [])
             eq_refl Hneq).
Defined.

End signal_examples.

(** ** Watching signals from a block *)

Section watch_facts.
Import CallbackGroup Signal Watch.
Context {value : Type} `{EqDecision value}.
Variable typeof_function : value → option (value → value).

Local Abbreviation world := (@Watch.world value).
Local Abbreviation watcher := (@Watch.watcher).
Local Abbreviation signal_set := (@Watch.signal_set value _ typeof_function).

Lemma set_add_idemp cb g : set_add cb (set_add cb g) = set_add cb g.
Proof. unfold set_add at 1. by rewrite decide_True by apply set_add_elem. Qed.

Lemma set_delete_idemp cb g : set_delete cb (set_delete cb g) = set_delete cb g.
Proof. apply set_delete_notin, set_delete_not_elem. Qed.

Lemma set_add_new cb g : cb ∉ g → set_add cb g = g ++ [cb].
Proof. intros Hcb. unfold set_add. by rewrite decide_False. Qed.

(** The subscriptions made by [context.on]: every watched signal gets the
    wrapper as a state subscriber, once. *)
Lemma subscribe_spec (wrapper : callback) (ids : list nat)
    (st : nat → @Signal.signal value) :
  (subscribe wrapper ids st).2
  = (λ i, (i, (StateGroup, Disposer wrapper true))) <$> ids ∧
  ∀ j, (subscribe wrapper ids st).1 j
       = Signal (currentState (st j))
                (if decide (j ∈ ids) then set_add wrapper (stateListeners (st j))
                 else stateListeners (st j))
                (actionListeners (st j)).
Proof.
  revert st. induction ids as [|i ids IH]; intros st.
  - split; [done|]. intros j. simpl. by destruct (st j).
  - cbn [subscribe]. unfold Signal.on, add. simpl.
    destruct (IH (update i (Signal (currentState (st i))
                                   (set_add wrapper (stateListeners (st i)))
                                   (actionListeners (st i))) st))
      as [Hhs Hst].
    destruct (subscribe wrapper ids _) as [st' hs]. simpl in *.
    split; [by rewrite Hhs|].
    intros j. rewrite Hst. unfold update.
    destruct (decide (j = i)) as [->|Hne]; simpl.
    + rewrite (decide_True (P := i ∈ i :: ids)) by apply list_elem_of_here.
      case_decide; [by rewrite set_add_idemp|done].
    + f_equal. apply decide_ext. rewrite elem_of_cons. tauto.
Qed.

(** The closures of [removeListeners], called in order. *)
Lemma unsubscribe_spec (wrapper : callback) (ids : list nat)
    (st : nat → @Signal.signal value) :
  ∀ j, foldl (λ st ih, update ih.1 (off ih.2 (st ih.1)).1 st) st
             ((λ i, (i, (StateGroup, Disposer wrapper true))) <$> ids) j
       = Signal (currentState (st j))
                (if decide (j ∈ ids) then set_delete wrapper (stateListeners (st j))
                 else stateListeners (st j))
                (actionListeners (st j)).
Proof.
  revert st. induction ids as [|i ids IH]; intros st j.
  - simpl. by destruct (st j).
  - rewrite fmap_cons. cbn [foldl]. rewrite IH. unfold update, off, dispose.
    simpl. destruct (decide (j = i)) as [->|Hne]; simpl.
    + rewrite (decide_True (P := i ∈ i :: ids)) by apply list_elem_of_here.
      case_decide; [by rewrite set_delete_idemp|done].
    + f_equal. apply decide_ext. rewrite elem_of_cons. tauto.
Qed.

(** A signal that notifies its subscribers runs the wrapper once when it is
    one of them, and not at all otherwise. *)
Lemma notify_runs_wrapper (wt : watcher) (w0 : world)
    (a : list (@Signal.arg value unit)) (g : callbacks) :
  NoDup g →
  foldl (λ w e, if decide (e.1 = listenerWrapper wt) then run_wrapper wt w else w)
        w0 (map (λ cb, (cb, a)) g)
  = if decide (listenerWrapper wt ∈ g) then run_wrapper wt w0 else w0.
Proof.
  intros Hg. revert w0. induction Hg as [|c g Hc Hg IH]; intros w0; [done|].
  rewrite map_cons. cbn [foldl fst]. rewrite IH.
  destruct (decide (c = listenerWrapper wt)) as [->|Hne].
  - rewrite (decide_False (P := listenerWrapper wt ∈ g)) by done.
    by rewrite decide_True by apply list_elem_of_here.
  - apply decide_ext. rewrite elem_of_cons. split; [tauto|].
    intros [?|?]; [congruence|done].
Qed.

(** The argument of the listener depends on the current values only. *)
Lemma argument_ext (sig : watched) (w w' : world) :
  (∀ i, currentState (store w i) = currentState (store w' i)) →
  argument sig w = argument sig w'.
Proof.
  intros Hcur. unfold argument, get.
  destruct (signals sig) as [|i [|i' ids]].
  - done.
  - by rewrite Hcur.
  - assert (Hvals : (λ i, currentState (store w i)) <$> i :: i' :: ids =
                    (λ i, currentState (store w' i)) <$> i :: i' :: ids).
    { apply list_fmap_ext. intros k j _. apply Hcur. }
    cbv zeta. by rewrite Hvals.
Qed.

(** X3: [context.on(signals, listener)] with a listener.  The call
    subscribes one wrapper function to every signal given, as a state
    subscriber, adds its own undo function to the block's [onUnmount] set,
    and calls the listener once immediately.  From then on a [set] that changes
    one of these signals calls the listener exactly once, and no other
    [set] calls it.  The listener receives the current value of the signal
    when one signal was given, also as an array of one; for an array of any
    other length it receives the array of the current values. *)
Theorem context_on_calls_listener (sig : watched) (wrapper remover : callback)
    (w : world) :
  (∀ i, wrapper ∉ stateListeners (store w i)) →
  (∀ i, NoDup (stateListeners (store w i))) →
  let wt := (context_on sig wrapper remover w).1 in
  let w1 := (context_on sig wrapper remover w).2 in
  calls w1 = calls w ++ [argument sig w] ∧
  remover ∈ onUnmount w1 ∧
  (∀ i, currentState (store w1 i) = currentState (store w i) ∧
        actionListeners (store w1 i) = actionListeners (store w i) ∧
        stateListeners (store w1 i)
        = if decide (i ∈ signals sig) then stateListeners (store w i) ++ [wrapper]
          else stateListeners (store w i)) ∧
  (∀ i x,
     calls (signal_set wt i x w1)
     = if decide (i ∈ signals sig ∧
                  resolve typeof_function x (store w1 i)
                  ≠ currentState (store w1 i))
       then calls w1 ++ [argument sig (signal_set wt i x w1)]
       else calls w1) ∧
  (∀ v, argument (OneSignal v) w = Single (currentState (store w v)) ∧
        argument (ManySignals [v]) w = Single (currentState (store w v))) ∧
  (∀ ids, length ids ≠ 1 →
          argument (ManySignals ids) w
          = Tuple ((λ i, currentState (store w i)) <$> ids)).
Proof.
  intros Hfresh Hnd wt w1.
  destruct (subscribe_spec wrapper (signals sig) (store w)) as [Hhs Hst].
  assert (Hwt : wt = Watcher sig wrapper remover
                       ((λ i, (i, (StateGroup, Disposer wrapper true)))
                          <$> signals sig)).
  { subst wt. unfold context_on.
    destruct (subscribe wrapper (signals sig) (store w)) as [st' hs].
    simpl in *. by rewrite Hhs. }
  assert (Hw1 : w1 = World (subscribe wrapper (signals sig) (store w)).1
                           (set_add remover (onUnmount w))
                           (calls w ++ [argument sig w])).
  { subst w1. unfold context_on.
    destruct (subscribe wrapper (signals sig) (store w)) as [st' hs].
    simpl in *. unfold run_wrapper. simpl. do 3 f_equal.
    apply argument_ext. intros i. simpl. by rewrite Hst. }
  clearbody wt w1. subst wt w1. cbn [store onUnmount calls].
  assert (Hstore : ∀ i, (subscribe wrapper (signals sig) (store w)).1 i
                        = Signal (currentState (store w i))
                            (if decide (i ∈ signals sig)
                             then stateListeners (store w i) ++ [wrapper]
                             else stateListeners (store w i))
                            (actionListeners (store w i))).
  { intros i. rewrite Hst. f_equal. case_decide; [|done]. by apply set_add_new. }
  split_and!.
  - done.
  - apply set_add_elem.
  - intros i. rewrite Hstore. simpl. done.
  - intros i x. unfold Watch.signal_set. cbn [store onUnmount calls listenerWrapper].
    assert (Hnd1 : NoDup (stateListeners
                            ((subscribe wrapper (signals sig) (store w)).1 i))).
    { rewrite Hstore. simpl. case_decide; [|done].
      apply NoDup_app. split_and!; [done| |apply NoDup_singleton].
      intros c Hc Hc'. apply list_elem_of_singleton in Hc' as ->.
      by apply (Hfresh i). }
    assert (Hmem : wrapper ∈ stateListeners
                     ((subscribe wrapper (signals sig) (store w)).1 i)
                   ↔ i ∈ signals sig).
    { rewrite Hstore. simpl. case_decide as Hi.
      - split; [done|]. intros _. apply elem_of_app. right.
        apply list_elem_of_here.
      - split; [|done]. intros Hin. by apply (Hfresh i) in Hin. }
    destruct (decide (resolve typeof_function x
                        ((subscribe wrapper (signals sig) (store w)).1 i)
                      = currentState
                          ((subscribe wrapper (signals sig) (store w)).1 i)))
      as [Hsame|Hchanged].
    + rewrite (set_same (action := unit) typeof_function x _ Hsame). simpl.
      rewrite decide_False; [done|]. by intros [_ ?].
    + rewrite (set_changed (action := unit) typeof_function x _ Hchanged).
      rewrite (notify_runs_wrapper
                 (Watcher sig wrapper remover
                    ((λ i, (i, (StateGroup, Disposer wrapper true)))
                       <$> signals sig))) by done.
      cbn [listenerWrapper].
      destruct (decide (i ∈ signals sig)) as [Hin|Hout].
      * rewrite decide_True by (by apply Hmem).
        rewrite decide_True by done. done.
      * rewrite decide_False by (by rewrite Hmem).
        rewrite decide_False; [done|]. by intros [? _].
  - done.
  - intros ids Hlen. unfold argument. simpl.
    destruct ids as [|i [|i' ids]]; simpl in *; done.
Qed.

(** X4: the function that [context.on] returns undoes the call: it leaves
    the block's [onUnmount] set, the wrapper is unsubscribed from every
    signal, whose subscribers are then those from before the call, and no
    [set] calls the listener any more. *)
Theorem remove_listener_unsubscribes (sig : watched)
    (wrapper remover : callback) (w : world) :
  (∀ i, wrapper ∉ stateListeners (store w i)) →
  let wt := (context_on sig wrapper remover w).1 in
  let w1 := (context_on sig wrapper remover w).2 in
  let wt2 := (remove_listener wt w1).1 in
  let w2 := (remove_listener wt w1).2 in
  (∀ i, store w2 i = store w i) ∧
  (remover ∉ onUnmount w2) ∧
  (remover ∉ onUnmount w → onUnmount w2 = onUnmount w) ∧
  removeListeners wt2 = [] ∧
  calls w2 = calls w1 ∧
  ∀ i x, calls (signal_set wt2 i x w2) = calls w2.
Proof.
  intros Hfresh wt w1 wt2 w2.
  destruct (subscribe_spec wrapper (signals sig) (store w)) as [Hhs Hst].
  assert (Hwt : wt = Watcher sig wrapper remover
                       ((λ i, (i, (StateGroup, Disposer wrapper true)))
                          <$> signals sig)).
  { subst wt. unfold context_on.
    destruct (subscribe wrapper (signals sig) (store w)) as [st' hs].
    simpl in *. by rewrite Hhs. }
  assert (Hw1 : store w1 = (subscribe wrapper (signals sig) (store w)).1 ∧
                onUnmount w1 = set_add remover (onUnmount w)).
  { subst w1. unfold context_on.
    by destruct (subscribe wrapper (signals sig) (store w)) as [st' hs]. }
  destruct Hw1 as [Hstore1 Hun1].
  assert (Hstore2 : ∀ i, store w2 i = store w i).
  { intros i. subst w2 wt2. unfold remove_listener. cbn [snd store].
    rewrite Hwt at 1. cbn [removeListeners]. rewrite unsubscribe_spec.
    rewrite Hstore1, Hst. simpl.
    destruct (store w i) as [cur sl al] eqn:Hs. simpl. f_equal.
    case_decide; [|done]. rewrite set_delete_set_add.
    apply set_delete_notin. specialize (Hfresh i). by rewrite Hs in Hfresh. }
  assert (Hun2 : onUnmount w2 = set_delete remover (onUnmount w)).
  { subst w2 wt2. unfold remove_listener. cbn [snd onUnmount].
    rewrite Hwt at 1. cbn [removeListenerWrapper].
    by rewrite Hun1, set_delete_set_add. }
  split_and!.
  - done.
  - rewrite Hun2. apply set_delete_not_elem.
  - intros Hnew. rewrite Hun2. by apply set_delete_notin.
  - done.
  - done.
  - intros i x. unfold Watch.signal_set.
    destruct (Signal.set typeof_function x (store w2 i)) as [s' tr] eqn:Hset.
    assert (Htr : ∀ e, e ∈ tr → e.1 ≠ wrapper).
    { intros e He Heq.
      pose proof (set_trace_callbacks (action := unit) typeof_function x
                    (store w2 i) e) as Hcb.
      rewrite Hset, Hstore2, Heq in Hcb. by apply (Hfresh i), Hcb. }
    assert (Hwrap : listenerWrapper wt2 = wrapper) by (subst wt2; by rewrite Hwt).
    rewrite Hwrap. clear Hset.
    assert (Hgoal : ∀ w0 : world,
      foldl (λ w e, if decide (e.1 = wrapper) then run_wrapper wt2 w else w) w0 tr
      = w0).
    { induction tr as [|e tr IH]; intros w'; [done|]. cbn [foldl].
      rewrite decide_False by (apply Htr, list_elem_of_here).
      apply IH. intros e' He'. by apply Htr, list_elem_of_further. }
    by rewrite Hgoal.
Qed.

End watch_facts.

Section watch_examples.
Import CallbackGroup Signal Watch SampleValues SampleWatch.

(** [context.on([s1, s2], listener)], then [s2.set(7)] and [s3.set(7)]. *)
Lemma context_on_calls_listener_witness :
  let wt := (context_on (ManySignals [1; 2]) 100 200 cells).1 in
  let w1 := (context_on (ManySignals [1; 2]) 100 200 cells).2 in
  calls w1 = [Tuple [JNum 1; JNum 2]] ∧
  onUnmount w1 = [200] ∧
  calls (signal_set js_typeof_function wt 2 (JNum 7) w1)
  = [Tuple [JNum 1; JNum 2]; Tuple [JNum 1; JNum 7]] ∧
  calls (signal_set js_typeof_function wt 2 (JNum 2) w1)
  = [Tuple [JNum 1; JNum 2]] ∧
  calls (signal_set js_typeof_function wt 3 (JNum 7) w1)
  = [Tuple [JNum 1; JNum 2]] ∧
  calls (context_on (ManySignals [1]) 100 200 cells).2 = [Single (JNum 1)].
Proof.
  intros wt w1. subst wt w1.
  pose proof (context_on_calls_listener js_typeof_function (ManySignals [1; 2])
                100 200 cells ltac:(intros i; apply not_elem_of_nil)
                ltac:(intros i; apply NoDup_nil_2))
    as (Hcalls & _ & _ & Hset & _).
  split; [exact Hcalls|]. split; [by vm_compute|].
  split; [rewrite (Hset 2 (JNum 7)); by vm_compute|].
  split; [rewrite (Hset 2 (JNum 2)); by vm_compute|].
  split; [rewrite (Hset 3 (JNum 7)); by vm_compute|].
  by vm_compute.
Defined.

(** The function returned by that call, run: [s2.set(7)] no longer reaches
    the listener. *)
Lemma remove_listener_unsubscribes_witness :
  let wt := (context_on (ManySignals [1; 2]) 100 200 cells).1 in
  let w1 := (context_on (ManySignals [1; 2]) 100 200 cells).2 in
  let wt2 := (remove_listener wt w1).1 in
  let w2 := (remove_listener wt w1).2 in
  onUnmount w2 = [] ∧
  stateListeners (store w1 2) = [100] ∧ stateListeners (store w2 2) = [] ∧
  calls (signal_set js_typeof_function wt2 2 (JNum 7) w2)
  = [Tuple [JNum 1; JNum 2]].
Proof.
  intros wt w1 wt2 w2. subst wt2 w2 wt w1.
  pose proof (remove_listener_unsubscribes js_typeof_function
                (ManySignals [1; 2]) 100 200 cells
                ltac:(intros i; apply not_elem_of_nil))
    as (Hstore & _ & Hun & _ & Hcalls & Hset).
  split; [by apply Hun, not_elem_of_nil|].
  split; [by vm_compute|]. split; [by rewrite (Hstore 2)|].
  rewrite (Hset 2 (JNum 7)), Hcalls. by vm_compute.
Defined.

End watch_examples.

(** ** The child sequence *)

Section dom_facts.
Import Dom.

Lemma remove_notin (n : node) (c : children) : n ∉ c → remove n c = c.
Proof.
  induction c as [|x c IH]; [done|]. intros Hn.
  apply not_elem_of_cons in Hn as [Hne Hn]. unfold remove in *.
  rewrite filter_cons, decide_True by congruence. by rewrite IH.
Qed.

Lemma remove_app (n : node) (l1 l2 : children) :
  remove n (l1 ++ l2) = remove n l1 ++ remove n l2.
Proof. apply filter_app. Qed.

Lemma remove_middle (n : node) (l1 l2 : children) :
  n ∉ l1 → n ∉ l2 → remove n (l1 ++ n :: l2) = l1 ++ l2.
Proof.
  intros H1 H2. rewrite remove_app, (remove_notin n l1 H1). f_equal.
  unfold remove. rewrite filter_cons, decide_False by (intros H; by apply H).
  by apply remove_notin.
Qed.

Lemma elem_of_remove (x n : node) (c : children) :
  x ∈ remove n c ↔ x ≠ n ∧ x ∈ c.
Proof. unfold remove. by rewrite list_elem_of_filter. Qed.

Lemma insert_at_middle (r n : node) (l1 l2 : children) :
  r ∉ l1 → insert_at r n (l1 ++ r :: l2) = l1 ++ n :: r :: l2.
Proof.
  induction l1 as [|x l1 IH]; intros Hr; simpl.
  - by rewrite decide_True.
  - apply not_elem_of_cons in Hr as [Hne Hr].
    rewrite decide_False by congruence. by rewrite IH.
Qed.

Lemma insert_at_notin (r n : node) (c : children) :
  r ∉ c → insert_at r n c = c.
Proof.
  induction c as [|x c IH]; [done|]. intros Hr.
  apply not_elem_of_cons in Hr as [Hne Hr]. simpl.
  rewrite decide_False by congruence. by rewrite IH.
Qed.

Lemma elem_of_insert_at (x r n : node) (c : children) :
  x ∈ c → x ∈ insert_at r n c.
Proof.
  induction c as [|y c IH]; [done|]. intros Hx. simpl. case_decide.
  - by apply list_elem_of_further.
  - apply elem_of_cons in Hx as [->|Hx].
    + apply list_elem_of_here.
    + by apply list_elem_of_further, IH.
Qed.

Lemma elem_of_before_self (x n : node) (c : children) :
  x ∈ c → x ∈ before x n c.
Proof.
  intros Hx. unfold before, parent_insertBefore.
  rewrite decide_True by done. case_decide as Hn; [done|].
  apply elem_of_insert_at, elem_of_remove. split; [congruence|done].
Qed.

(** Inserting a node that is not yet a child before a child. *)
Lemma insertBefore_fresh (r n : node) (l1 l2 : children) :
  r ∉ l1 → n ∉ l1 ++ r :: l2 →
  insertBefore r n (l1 ++ r :: l2) = l1 ++ n :: r :: l2.
Proof.
  intros Hr Hn. unfold insertBefore, parent_insertBefore.
  rewrite decide_True by (apply elem_of_app; right; apply list_elem_of_here).
  rewrite decide_False.
  - rewrite remove_notin by done. by apply insert_at_middle.
  - intros ->. apply Hn, elem_of_app. right. apply list_elem_of_here.
Qed.

Lemma nextSibling_middle (n : node) (l1 l2 : children) :
  n ∉ l1 → nextSibling n (l1 ++ n :: l2) = head l2.
Proof.
  induction l1 as [|x l1 IH]; intros Hn; simpl.
  - by rewrite decide_True.
  - apply not_elem_of_cons in Hn as [Hne Hn].
    rewrite decide_False by congruence. by apply IH.
Qed.

(** Moving a child to the front of a later child. *)
Lemma insertBefore_later (cur new : node) (X Y Z : children) :
  NoDup (X ++ new :: Y ++ cur :: Z) →
  insertBefore cur new (X ++ new :: Y ++ cur :: Z) = X ++ Y ++ new :: cur :: Z.
Proof.
  intros Hnd.
  assert (Hnd' := Hnd).
  apply NoDup_app in Hnd' as (_ & HX & Hrest).
  apply NoDup_cons in Hrest as [Hnew Hrest].
  apply NoDup_app in Hrest as (_ & HY & _).
  unfold insertBefore, parent_insertBefore.
  rewrite decide_True.
  2:{ rewrite elem_of_app, elem_of_cons, elem_of_app, elem_of_cons. tauto. }
  rewrite decide_False.
  2:{ intros ->. apply Hnew. rewrite elem_of_app, elem_of_cons. tauto. }
  rewrite remove_middle; [|intros Hin; by apply (HX new Hin), list_elem_of_here|done].
  rewrite app_assoc, insert_at_middle; [by rewrite <- app_assoc|].
  rewrite elem_of_app. intros [Hin|Hin].
  - apply (HX cur Hin). rewrite elem_of_cons, elem_of_app, elem_of_cons. tauto.
  - by apply (HY cur Hin), list_elem_of_here.
Qed.

(** Moving a child to the front of an earlier child. *)
Lemma insertBefore_earlier (cur new : node) (X Y Z : children) :
  NoDup (X ++ cur :: Y ++ new :: Z) →
  insertBefore cur new (X ++ cur :: Y ++ new :: Z) = X ++ new :: cur :: Y ++ Z.
Proof.
  intros Hnd.
  assert (Hnd' := Hnd).
  apply NoDup_app in Hnd' as (_ & HX & Hrest).
  apply NoDup_cons in Hrest as [Hcur Hrest].
  apply NoDup_app in Hrest as (_ & HY & HZ).
  apply NoDup_cons in HZ as [HnewZ _].
  unfold insertBefore, parent_insertBefore.
  rewrite decide_True by (rewrite elem_of_app, elem_of_cons; tauto).
  rewrite decide_False.
  2:{ intros ->. apply Hcur. rewrite elem_of_app, elem_of_cons. tauto. }
  rewrite (app_comm_cons Y), (app_assoc X).
  rewrite remove_middle; [| |done].
  - rewrite <- app_assoc, <- app_comm_cons. apply insert_at_middle.
    intros Hin. by apply (HX cur Hin), list_elem_of_here.
  - rewrite elem_of_app, elem_of_cons. intros [Hin|[->|Hin]].
    + apply (HX new Hin). rewrite elem_of_cons, elem_of_app, elem_of_cons. tauto.
    + apply Hcur. rewrite elem_of_app, elem_of_cons. tauto.
    + by apply (HY new Hin), list_elem_of_here.
Qed.

Lemma insertBefore_self (n : node) (c : children) : insertBefore n n c = c.
Proof.
  unfold insertBefore, parent_insertBefore. case_decide; [|done].
  by rewrite decide_True.
Qed.

Lemma reverse_neq (l : children) : NoDup l → 2 ≤ length l → reverse l ≠ l.
Proof.
  intros Hnd Hlen Hrev.
  destruct l as [|x l]; [simpl in Hlen; lia|].
  destruct (last l) as [y|] eqn:Hlast.
  - apply last_Some in Hlast as [l' ->].
    rewrite reverse_cons, reverse_app in Hrev. simpl in Hrev.
    injection Hrev as Hyx _. subst y.
    apply NoDup_cons in Hnd as [Hx _]. apply Hx.
    apply elem_of_app. right. apply list_elem_of_here.
  - apply last_None in Hlast. subst l. simpl in Hlen. lia.
Qed.

Lemma NoDup_beside (a b : node) (l1 l2 : children) :
  NoDup (l1 ++ a :: l2) → b ∉ l1 ++ a :: l2 →
  NoDup (l1 ++ a :: b :: l2) ∧ NoDup (l1 ++ b :: a :: l2).
Proof.
  intros Hnd Hb.
  assert (Hba : NoDup (l1 ++ b :: a :: l2)).
  { rewrite <- Permutation_middle. by apply NoDup_cons. }
  split; [|done]. revert Hba. apply NoDup_Permutation_proper.
  apply Permutation_app_head, Permutation_swap.
Qed.

End dom_facts.

(** ** Refs *)

Section ref_facts.
Import Js Ref.
Context {Element W Args Result : Type}.
Variable element_result : Element → Result.

Local Abbreviation ref := (@Ref.ref Element W Args Result).
Local Abbreviation mount := (@Ref.mount Element W Args Result element_result).

Lemma createRef_unmounted id ty i u m :
  mounted (createRef (Element := Element) (W := W) (Args := Args)
                     (Result := Result) id ty i u m) = false.
Proof. done. Qed.

Lemma mount_Return_mounted (el : Element) (r r' : ref) (w w' : W) :
  mount el r w = (Return (), r', w') →
  mounted r' = true ∧
  ∃ acc, accessor_var r' = Some acc ∧
         (init r = None → acc = λ _ _, element_result el).
Proof.
  unfold Ref.mount. destruct (mounted r); [done|].
  destruct (init r) as [f|].
  - destruct (f el w) as [[a|m] w1]; [|done].
    destruct (run_hook (onMount r) w1) as [res2 w2].
    intros [= -> <- <-]. simpl. split; [done|]. eexists. split; [done|]. done.
  - destruct (run_hook (onMount r) w) as [res2 w2].
    intros [= -> <- <-]. simpl. split; [done|]. eexists. split; done.
Qed.

Lemma unmount_unmounted (r : ref) (w : W) :
  mounted r = false → unmount r w = (Return (), r, w).
Proof. intros Hm. unfold unmount. by rewrite Hm. Qed.

Lemma unmount_clears_mounted (r : ref) (w : W) :
  mounted (unmount r w).1.2 = false.
Proof.
  unfold unmount. destruct (mounted r) eqn:Hm; simpl; [|done].
  by destruct (run_hook (onUnmount r) w).
Qed.

(** C8: the handle of an unmounted ref throws; [mount] on a mounted ref
    throws and changes nothing; [unmount] on an unmounted ref returns
    without changing the ref or the state (no hook runs), so a second
    [unmount] in a row is that no-op; after a [mount] that returned, the
    [mounted] flag is true and the handle returns a value (the element
    itself when no initializer was given). *)
Theorem ref_lifecycle (r : ref) (w : W) (el : Element) (args : Args) :
  (mounted r = false →
     invoke args r w = Throw "The ref has not been mounted") ∧
  (mounted r = true →
     mount el r w = (Throw "Cannot re-mount. The ref has been mounted", r, w)) ∧
  (mounted r = false → unmount r w = (Return (), r, w)) ∧
  unmount (unmount r w).1.2 (unmount r w).2
    = (Return (), (unmount r w).1.2, (unmount r w).2) ∧
  (∀ r' w', mount el r w = (Return (), r', w') →
     mounted r' = true ∧
     (∀ w'', ∃ res, invoke args r' w'' = Return res) ∧
     (init r = None → ∀ w'', invoke args r' w'' = Return (element_result el))).
Proof.
  split_and!.
  - intros Hm. unfold invoke. by rewrite Hm.
  - intros Hm. unfold Ref.mount. by rewrite Hm.
  - apply unmount_unmounted.
  - apply unmount_unmounted, unmount_clears_mounted.
  - intros r' w' Hmount.
    apply mount_Return_mounted in Hmount as (Hm & acc & Hacc & Hdef).
    split_and!; [done| |].
    + intros w''. unfold invoke. rewrite Hm, Hacc. by eexists.
    + intros Hinit w''. unfold invoke. rewrite Hm, Hacc. simpl.
      by rewrite (Hdef Hinit).
Qed.

(** X5: a [mount] that throws leaves the ref in one of three states.  The
    ref was mounted already: nothing changed.  The initializer threw: the
    ref is as it was, unmounted, and no mount hook ran.  The mount hook
    threw: the [mounted] flag had been set before the hook ran, so the ref
    is left mounted and every later [mount] is refused. *)
Theorem mount_failure_cases (el : Element) (r r' : ref) (w w' : W)
    (m : string) :
  mount el r w = (Throw m, r', w') →
  (mounted r = true ∧ m = "Cannot re-mount. The ref has been mounted" ∧
   r' = r ∧ w' = w) ∨
  (mounted r = false ∧ r' = r ∧
   ∃ f, init r = Some f ∧ f el w = (Throw m, w')) ∨
  (mounted r = false ∧ mounted r' = true ∧
   (∃ h w1, onMount r = Some h ∧ h w1 = (Throw m, w')) ∧
   ∀ el2 w2, mount el2 r' w2
             = (Throw "Cannot re-mount. The ref has been mounted", r', w2)).
Proof.
  intros Hmount.
  assert (Hre : ∀ r0 : ref, mounted r0 = true →
            ∀ el2 w2, mount el2 r0 w2
                      = (Throw "Cannot re-mount. The ref has been mounted", r0, w2)).
  { intros r0 Hr0 el2 w2. unfold Ref.mount. by rewrite Hr0. }
  unfold Ref.mount in Hmount. destruct (mounted r) eqn:Hm.
  - injection Hmount as <- <- <-. by left.
  - right. unfold run_hook in Hmount.
    destruct (init r) as [f|] eqn:Hinit.
    + destruct (f el w) as [[a|m1] w1] eqn:Hf.
      * destruct (onMount r) as [h|] eqn:Hhook; [|done].
        destruct (h w1) as [res2 w2] eqn:Hh. injection Hmount as -> <- <-.
        right. split_and!; [done|done|by eauto|by apply Hre].
      * injection Hmount as <- <- <-. left. split_and!; [done|done|by eauto].
    + destruct (onMount r) as [h|] eqn:Hhook; [|done].
      destruct (h w) as [res2 w2] eqn:Hh. injection Hmount as -> <- <-.
      right. split_and!; [done|done|by eauto|by apply Hre].
Qed.

(** X6: a ref without initializer and hooks (the element ref that
    [context.ref()] creates) can be mounted again once it has been
    unmounted: the handle returns the first element while the ref is
    mounted on it, throws in between, and returns the second element after
    the second [mount]. *)
Theorem remount_after_unmount (el el' : Element) (r : ref) (w : W)
    (args : Args) :
  mounted r = false → init r = None → onMount r = None → onUnmount r = None →
  ∃ r1 r2 r3,
    mount el r w = (Return (), r1, w) ∧
    unmount r1 w = (Return (), r2, w) ∧
    mount el' r2 w = (Return (), r3, w) ∧
    invoke args r1 w = Return (element_result el) ∧
    invoke args r2 w = Throw "The ref has not been mounted" ∧
    invoke args r3 w = Return (element_result el').
Proof.
  intros Hm Hinit Hmount Hunmount. unfold Ref.mount, unmount, invoke.
  rewrite Hm, Hinit, Hmount, Hunmount. simpl. eexists _, _, _.
  split; [done|]. simpl. split; [done|]. simpl. by split_and!.
Qed.

End ref_facts.

Section ref_examples.
Import Js Ref SampleRef.

(** C8 on a ref with logging hooks: before mount the handle throws and
    [unmount] does nothing; [mount] on the element 7 returns, runs the mount
    hook, and the handle then returns 7; a second [mount] throws. *)
Lemma ref_lifecycle_witness :
  invoke () logging_ref [] = Throw "The ref has not been mounted" ∧
  unmount logging_ref [] = (Return (), logging_ref, []) ∧
  ∃ r', Ref.mount Datatypes.id 7 logging_ref [] = (Return (), r', ["onMount"]) ∧
        mounted r' = true ∧
        invoke () r' ["onMount"] = Return 7 ∧
        Ref.mount Datatypes.id 8 r' ["onMount"]
        = (Throw "Cannot re-mount. The ref has been mounted", r', ["onMount"]).
Proof.
  pose proof (ref_lifecycle Datatypes.id logging_ref [] 7 ()) as (H1 & _ & H3 & _ & H5).
  split; [by apply H1|]. split; [by apply H3|].
  eexists. split; [reflexivity|].
  edestruct H5 as (Hm & _ & Hinv); [reflexivity|].
  split; [exact Hm|]. split; [by apply Hinv|].
  by apply (ref_lifecycle Datatypes.id _ ["onMount"] 8 ()).
Defined.

(** A ref whose mount hook throws is left mounted. *)
Lemma mount_failure_cases_witness :
  ∃ r', Ref.mount Datatypes.id 7 failing_hook_ref []
        = (Throw "mount hook failed", r', ["onMount"]) ∧
        mounted r' = true ∧
        Ref.mount Datatypes.id 7 r' ["onMount"]
        = (Throw "Cannot re-mount. The ref has been mounted", r', ["onMount"]).
Proof.
  eexists. split; [reflexivity|].
  destruct (mount_failure_cases Datatypes.id 7 failing_hook_ref _ [] _ _ eq_refl)
    as [(Hm & _)|[(_ & Heq & _)|(_ & Hm & _ & Hre)]].
  - discriminate Hm.
  - discriminate (f_equal mounted Heq).
  - split; [exact Hm|]. apply Hre.
Defined.

(** The element ref root-0, mounted on 7, unmounted, mounted on 8. *)
Lemma remount_after_unmount_witness :
  ∃ r1 r2 r3,
    Ref.mount Datatypes.id 7 (createRef "root-0" attribute None None None) tt
    = (Return (), r1, tt) ∧
    unmount r1 tt = (Return (), r2, tt) ∧
    Ref.mount Datatypes.id 8 r2 tt = (Return (), r3, tt) ∧
    invoke () r1 tt = Return 7 ∧
    invoke () r2 tt = Throw "The ref has not been mounted" ∧
    invoke () r3 tt = Return 8.
Proof.
  exact (remount_after_unmount Datatypes.id 7 8
           (createRef "root-0" attribute None None None) tt ()
           eq_refl eq_refl eq_refl eq_refl).
Defined.

End ref_examples.

(** ** Toggles *)

Section toggle_facts.
Import Js Dom Toggle.

Local Abbreviation mount_toggle := (@Ref.mount node world unit node id).

(** Setting [visible] to the value it has changes nothing. *)
Lemma set_visible_same (w : world) : set_visible (visible w) w = (Return (), w).
Proof. unfold set_visible. by rewrite decide_True. Qed.

(** A toggle created visible: after the ref is mounted the element sits
    immediately before the placeholder and [visible] is true. *)
Lemma toggle_mount_visible (tid : string) (el next : node) (c : children) :
  NoDup c → el ∈ c → next ∉ c →
  ∃ r w, mount_toggle el (createToggle tid (Some true) None) (initial_world c next)
         = (Return (), r, w) ∧
         Ref.mounted r = true ∧ visible w = true ∧ attached_before_placeholder w.
Proof.
  intros Hnd Hel Hnext.
  apply list_elem_of_split in Hel as (l1 & l2 & ->).
  apply NoDup_app in Hnd as (Hl1 & Hdisj & Hl2).
  apply NoDup_cons in Hl2 as [Hel2 Hl2].
  assert (Hel1 : el ∉ l1).
  { intros Hin. apply (Hdisj el Hin), list_elem_of_here. }
  assert (Hne : next ≠ el).
  { intros ->. apply Hnext, elem_of_app. right. apply list_elem_of_here. }
  assert (Hn1 : next ∉ l1).
  { intros Hin. apply Hnext, elem_of_app. by left. }
  assert (Hn2 : next ∉ l2).
  { intros Hin. apply Hnext, elem_of_app. right. by apply list_elem_of_further. }
  eexists _, _. split.
  - unfold Ref.mount, createToggle, Ref.createRef, toggle_init, initial_world.
    simpl. unfold toggle_onMount, set_visible. simpl.
    unfold before. rewrite decide_True
      by (apply elem_of_app; right; apply list_elem_of_here).
    unfold parent_insertBefore. rewrite decide_False by done.
    rewrite remove_notin by done. rewrite insert_at_middle by done.
    unfold insertBefore.
    rewrite decide_True
      by (apply elem_of_app; right; apply list_elem_of_here).
    unfold parent_insertBefore. rewrite decide_False by done.
    rewrite (cons_middle next l1 (el :: l2)), app_assoc.
    rewrite remove_middle;
      [|rewrite elem_of_app, list_elem_of_singleton; intros [?|?]; [done|congruence]
       |done].
    rewrite <- app_assoc. simpl.
    rewrite insert_at_middle by done. reflexivity.
  - simpl. split_and!; [done|done|]. by exists el, next, l1, l2.
Qed.

(** C5, as the code behaves for a toggle created hidden: the mount
    returns, [visible] is false as requested, and the element is still a
    child of its parent (it was never removed). *)
Theorem toggle_mount_hidden_stays_attached (tid : string) (el next : node)
    (c : children) :
  el ∈ c →
  ∃ r w, mount_toggle el (createToggle tid (Some false) None) (initial_world c next)
         = (Return (), r, w) ∧
         Ref.mounted r = true ∧ visible w = false ∧ attached w ∧
         dom w = before el next c.
Proof.
  intros Hel. eexists _, _. split; [reflexivity|]. simpl.
  split_and!; try done.
  exists el. split; [done|]. by apply elem_of_before_self.
Qed.

(** *** Toggles that start visible *)

(** X7: mounting the ref of a toggle created visible (the default) leaves
    the element where it is and puts the fresh placeholder right behind it;
    [visible] is true, and flag and tree agree. *)
Theorem toggle_mount_keeps_place (tid : string) (v : option bool)
    (el next : node) (l1 l2 : children) :
  default true v = true →
  NoDup (l1 ++ el :: l2) → next ∉ l1 ++ el :: l2 →
  ∃ r, mount_toggle el (createToggle tid v None)
                    (initial_world (l1 ++ el :: l2) next)
       = (Return (), r,
          World (l1 ++ el :: next :: l2) (S next) (Some next) (Some el) true) ∧
       Ref.mounted r = true ∧
       consistent (World (l1 ++ el :: next :: l2) (S next) (Some next)
                         (Some el) true).
Proof.
  intros Hv Hnd Hnext.
  assert (Hnd' := Hnd).
  apply NoDup_app in Hnd' as (Hl1 & Hdisj & Hl2).
  apply NoDup_cons in Hl2 as [Hel2 Hl2].
  assert (Hel1 : el ∉ l1).
  { intros Hin. apply (Hdisj el Hin), list_elem_of_here. }
  assert (Hne : next ≠ el).
  { intros ->. apply Hnext, elem_of_app. right. apply list_elem_of_here. }
  assert (Hn1 : next ∉ l1).
  { intros Hin. apply Hnext, elem_of_app. by left. }
  eexists. split_and!.
  - unfold Ref.mount, createToggle, Ref.createRef, toggle_init, initial_world.
    simpl. rewrite Hv. unfold toggle_onMount, set_visible. simpl.
    unfold before. rewrite decide_True
      by (apply elem_of_app; right; apply list_elem_of_here).
    unfold parent_insertBefore. rewrite decide_False by done.
    rewrite remove_notin by done. rewrite insert_at_middle by done.
    pose proof (insertBefore_earlier next el l1 [] l2) as Hmove.
    simpl in Hmove. rewrite Hmove; [done|].
    apply (NoDup_beside el next l1 l2 Hnd Hnext).
  - done.
  - split; simpl.
    + apply (NoDup_beside el next l1 l2 Hnd Hnext).
    + exists el, next. split_and!; [done|done|congruence|by eauto].
Qed.

(** X8: on a toggle whose flag and tree agree, assigning [visible] returns
    and keeps them in agreement: the flag is the value assigned, and the
    other children are untouched and keep their order. *)
Theorem set_visible_consistent (v : bool) (w : world) :
  consistent w →
  ∃ w', set_visible v w = (Return (), w') ∧
        consistent w' ∧ visible w' = v ∧
        placeholder w' = placeholder w ∧ rootElement w' = rootElement w ∧
        next_node w' = next_node w ∧
        ∀ root, rootElement w = Some root →
                remove root (dom w') = remove root (dom w).
Proof.
  intros (Hnd & root & ph & Hroot & Hph & Hne & Hshape).
  unfold set_visible. case_decide as Hv.
  { exists w. split_and!; try done. split; [done|]. by exists root, ph. }
  destruct w as [c next p r vis]. simpl in *. subst p r.
  destruct v, vis; try done; simpl.
  - (* shown: the element goes in front of the placeholder *)
    destruct Hshape as [Hin Hout].
    apply list_elem_of_split in Hin as (l1 & l2 & ->).
    assert (Hph1 : ph ∉ l1).
    { apply NoDup_app in Hnd as (_ & Hdisj & _). intros Hin.
      apply (Hdisj ph Hin), list_elem_of_here. }
    rewrite insertBefore_fresh by done.
    eexists. split; [done|]. simpl.
    assert (Hnd' : NoDup (l1 ++ root :: ph :: l2)).
    { rewrite <- Permutation_middle. by apply NoDup_cons. }
    split_and!; try done.
    + split; [done|]. exists root, ph. simpl. split_and!; [done|done|done|by eauto].
    + intros ? [= <-]. rewrite remove_middle; [by rewrite remove_notin| |].
      * intros Hin. apply Hout, elem_of_app. by left.
      * intros Hin. apply Hout, elem_of_app. by right.
  - (* hidden: the element leaves the tree *)
    destruct Hshape as (l1 & l2 & ->).
    assert (Hr1 : root ∉ l1).
    { apply NoDup_app in Hnd as (_ & Hdisj & _). intros Hin.
      apply (Hdisj root Hin), list_elem_of_here. }
    assert (Hr2 : root ∉ ph :: l2).
    { apply NoDup_app in Hnd as (_ & _ & Hnd).
      by apply NoDup_cons in Hnd as [? _]. }
    eexists. split; [done|]. simpl.
    rewrite remove_middle by done.
    split_and!; try done.
    + split; simpl.
      * rewrite <- Permutation_middle in Hnd. by apply NoDup_cons in Hnd as [_ ?].
      * exists root, ph. simpl. split_and!; try done.
        -- apply elem_of_app. right. apply list_elem_of_here.
        -- rewrite elem_of_app. intros [?|?]; done.
    + intros ? [= <-]. rewrite remove_middle by done.
      apply remove_notin. rewrite elem_of_app. intros [?|?]; done.
Qed.

(** X9: [hide()] followed by [show()], [show()] followed by [hide()], and
    [toggle()] twice bring a toggle whose flag and tree agree back to the
    state it was in: the element returns to its place in front of the
    placeholder. *)
Theorem toggle_twice_restores (w : world) :
  consistent w →
  (Toggle.toggle (Toggle.toggle w).2).2 = w ∧
  (visible w = true → (show (hide w).2).2 = w) ∧
  (visible w = false → (hide (show w).2).2 = w).
Proof.
  intros Hw.
  assert (Hflip : (set_visible (visible w) (set_visible (negb (visible w)) w).2).2
                  = w).
  { destruct Hw as (Hnd & root & ph & Hroot & Hph & Hne & Hshape).
    destruct w as [c next p r vis]. simpl in *. subst p r.
    unfold set_visible. destruct vis; simpl.
    - destruct Hshape as (l1 & l2 & ->).
      assert (Hr1 : root ∉ l1).
      { apply NoDup_app in Hnd as (_ & Hdisj & _). intros Hin.
        apply (Hdisj root Hin), list_elem_of_here. }
      assert (Hr2 : root ∉ ph :: l2).
      { apply NoDup_app in Hnd as (_ & _ & Hnd).
        by apply NoDup_cons in Hnd as [? _]. }
      rewrite remove_middle by done.
      rewrite insertBefore_fresh; [done| |].
      + intros Hin. apply NoDup_app in Hnd as (_ & Hdisj & _).
        apply (Hdisj ph Hin). by apply list_elem_of_further, list_elem_of_here.
      + rewrite elem_of_app. intros [?|?]; done.
    - destruct Hshape as [Hin Hout].
      apply list_elem_of_split in Hin as (l1 & l2 & ->).
      assert (Hph1 : ph ∉ l1).
      { apply NoDup_app in Hnd as (_ & Hdisj & _). intros Hin.
        apply (Hdisj ph Hin), list_elem_of_here. }
      rewrite insertBefore_fresh by done.
      rewrite remove_middle; [done| |].
      + intros Hin. apply Hout, elem_of_app. by left.
      + intros Hin. by apply Hout, elem_of_app; right. }
  split_and!.
  - unfold Toggle.toggle.
    assert (Hvis : visible (set_visible (negb (visible w)) w).2 = negb (visible w)).
    { destruct (set_visible_consistent (negb (visible w)) w Hw)
        as (w' & -> & _ & Hv & _). done. }
    by rewrite Hvis, negb_involutive.
  - intros Hv. unfold show, hide. rewrite Hv in Hflip. exact Hflip.
  - intros Hv. unfold show, hide. rewrite Hv in Hflip. exact Hflip.
Qed.

(** X10: after the mount of a toggle created hidden, where the element is
    still attached behind the placeholder, [hide()] changes nothing;
    [show()] moves the element in front of the placeholder, and flag and
    tree agree from then on. *)
Theorem show_after_hidden_mount (tid : string) (el next : node)
    (l1 l2 : children) :
  NoDup (l1 ++ el :: l2) → next ∉ l1 ++ el :: l2 →
  ∃ r w, mount_toggle el (createToggle tid (Some false) None)
                      (initial_world (l1 ++ el :: l2) next)
         = (Return (), r, w) ∧
         dom w = l1 ++ next :: el :: l2 ∧
         hide w = (Return (), w) ∧
         show w = (Return (),
                   World (l1 ++ el :: next :: l2) (S next) (Some next)
                         (Some el) true) ∧
         consistent (show w).2.
Proof.
  intros Hnd Hnext.
  assert (Hnd' := Hnd).
  apply NoDup_app in Hnd' as (Hl1 & Hdisj & Hl2).
  apply NoDup_cons in Hl2 as [Hel2 Hl2].
  assert (Hel1 : el ∉ l1).
  { intros Hin. apply (Hdisj el Hin), list_elem_of_here. }
  assert (Hne : next ≠ el).
  { intros ->. apply Hnext, elem_of_app. right. apply list_elem_of_here. }
  assert (Hn1 : next ∉ l1).
  { intros Hin. apply Hnext, elem_of_app. by left. }
  assert (Hbefore : before el next (l1 ++ el :: l2) = l1 ++ next :: el :: l2).
  { unfold before. rewrite decide_True
      by (apply elem_of_app; right; apply list_elem_of_here).
    unfold parent_insertBefore. rewrite decide_False by done.
    rewrite remove_notin by done. by rewrite insert_at_middle. }
  assert (Hshow : insertBefore next el (l1 ++ next :: el :: l2)
                  = l1 ++ el :: next :: l2).
  { pose proof (insertBefore_earlier next el l1 [] l2) as Hmove.
    simpl in Hmove. apply Hmove. apply (NoDup_beside el next l1 l2 Hnd Hnext). }
  eexists _, _. split; [reflexivity|]. simpl. rewrite Hbefore.
  split; [done|]. split; [done|].
  unfold show, set_visible. simpl. rewrite Hshow. split; [done|].
  split; simpl.
  - apply (NoDup_beside el next l1 l2 Hnd Hnext).
  - exists el, next. split_and!; [done|done|congruence|by eauto].
Qed.

End toggle_facts.

Section toggle_examples.
Import Js Dom Toggle.

(** A toggle created with [visible = false] on the element 11 between the
    siblings 10 and 12: after mount the element is still in the tree, behind
    the new placeholder 13. *)
Lemma toggle_mount_hidden_stays_attached_witness :
  ∃ r w, Ref.mount id 11 (createToggle "root-0" (Some false) None)
                   (initial_world [10; 11; 12] 13)
         = (Return (), r, w) ∧
         Ref.mounted r = true ∧ visible w = false ∧ attached w ∧
         dom w = [10; 13; 11; 12].
Proof.
  apply (toggle_mount_hidden_stays_attached "root-0" 11 13 [10; 11; 12]).
  apply list_elem_of_In. vm_compute. tauto.
Defined.

Lemma shown_consistent : consistent SampleToggle.shown.
Proof.
  split; [by apply (bool_decide_unpack _)|].
  exists 11, 13. split_and!; [done|done|done|]. by exists [10], [12].
Qed.

(** A toggle created with the default visibility on the element 11. *)
Lemma toggle_mount_keeps_place_witness :
  ∃ r, Ref.mount id 11 (createToggle "root-0" None None)
                 (initial_world [10; 11; 12] 13)
       = (Return (), r, SampleToggle.shown) ∧
       Ref.mounted r = true ∧ consistent SampleToggle.shown.
Proof.
  apply (toggle_mount_keeps_place "root-0" None 11 13 [10] [12]).
  - reflexivity.
  - by apply (bool_decide_unpack _).
  - by apply (bool_decide_unpack _).
Defined.

(** Hiding that toggle detaches 11 and leaves the other children alone. *)
Lemma set_visible_consistent_witness :
  ∃ w', set_visible false SampleToggle.shown = (Return (), w') ∧
        consistent w' ∧ visible w' = false ∧
        placeholder w' = Some 13 ∧ rootElement w' = Some 11 ∧
        next_node w' = 14 ∧
        ∀ root, Some 11 = Some root →
                remove root (dom w') = remove root [10; 11; 13; 12].
Proof. exact (set_visible_consistent false SampleToggle.shown shown_consistent). Defined.

Lemma toggle_twice_restores_witness :
  (toggle (toggle SampleToggle.shown).2).2 = SampleToggle.shown ∧
  (true = true → (show (hide SampleToggle.shown).2).2 = SampleToggle.shown) ∧
  (true = false → (hide (show SampleToggle.shown).2).2 = SampleToggle.shown).
Proof. exact (toggle_twice_restores SampleToggle.shown shown_consistent). Defined.

(** The toggle of C5, created hidden on the element 11: [show()] repairs
    it. *)
Lemma show_after_hidden_mount_witness :
  ∃ r w, Ref.mount id 11 (createToggle "root-0" (Some false) None)
                   (initial_world [10; 11; 12] 13)
         = (Return (), r, w) ∧
         dom w = [10; 13; 11; 12] ∧
         hide w = (Return (), w) ∧
         show w = (Return (), SampleToggle.shown) ∧
         consistent (show w).2.
Proof.
  apply (show_after_hidden_mount "root-0" 11 13 [10] [12]).
  - by apply (bool_decide_unpack _).
  - by apply (bool_decide_unpack _).
Defined.

End toggle_examples.

(** ** Ref resolution and block mounting *)

Section block_facts.
Import Js Block.

Lemma trimEnd_cons_nonws (a : ascii) (s : string) :
  is_whitespace a = false → trimEnd (String a s) = String a (trimEnd s).
Proof. intros Ha. simpl. rewrite Ha. by destruct (trimEnd s). Qed.

Lemma trimEnd_app_space (s : string) : trimEnd (s +:+ " ") = trimEnd s.
Proof. induction s as [|a s IH]; [done|]. simpl. by rewrite IH. Qed.

Lemma trimEnd_idemp (s : string) : trimEnd (trimEnd s) = trimEnd s.
Proof.
  induction s as [|a s IH]; [done|]. simpl.
  destruct (trimEnd s) as [|b t] eqn:E.
  - destruct (is_whitespace a) eqn:Ha; [done|]. simpl. by rewrite Ha.
  - change (trimEnd (String a (String b t)) = String a (String b t)).
    simpl in IH |- *. destruct (trimEnd t) eqn:Et.
    + destruct (is_whitespace b); [done|]. by inversion IH.
    + by inversion IH.
Qed.

Lemma append_cons (a : ascii) (s t : string) :
  String a s +:+ t = String a (s +:+ t).
Proof. done. Qed.

Lemma append_empty (t : string) : EmptyString +:+ t = t.
Proof. done. Qed.

(** The marker of a ref is the prefix data-ref- followed by the identity. *)
Lemma marker_eq (id : string) : marker id = "data-ref-" +:+ trimEnd id.
Proof.
  unfold marker, trim, Ref.generateRefAttribute.
  rewrite !append_cons, !append_empty. simpl trimStart.
  rewrite ?append_cons, ?append_empty.
  rewrite !trimEnd_cons_nonws by done. by rewrite trimEnd_app_space.
Qed.

(** The marker attribute name is never the identity string itself. *)
Lemma marker_neq_id (id : string) : marker id ≠ id.
Proof.
  rewrite marker_eq. intros Heq.
  assert (Hlen : String.length (trimEnd id)
                 = String.length ("data-ref-" +:+ trimEnd id)).
  { rewrite <- (trimEnd_idemp id) at 2. rewrite <- Heq at 1.
    rewrite !append_cons, !append_empty.
    by rewrite !trimEnd_cons_nonws by done. }
  rewrite !append_cons, !append_empty in Hlen. simpl in Hlen. lia.
Qed.

Lemma lookup_attribute_filter_ne (name name' : string)
    (attrs : list (string * string)) :
  name ≠ name' →
  lookup_attribute name (filter (λ a, a.1 ≠ name') attrs)
  = lookup_attribute name attrs.
Proof.
  intros Hne. unfold lookup_attribute. f_equal.
  induction attrs as [|[k v] attrs IH]; [done|].
  rewrite filter_cons. simpl. case_decide as Hk.
  - simpl. by rewrite IH.
  - rewrite IH. simpl in Hk. subst k.
    by rewrite bool_decide_eq_false_2 by congruence.
Qed.

Lemma find_element_removeAttribute (el el' : nat) (name : string) (w : world) :
  find_element el (removeAttribute el' name w)
  = (λ e, if decide (uid e = el')
          then Element (uid e) (tagName e)
                       (filter (λ a, a.1 ≠ name) (attributes e))
          else e) <$> find_element el w.
Proof.
  unfold find_element, removeAttribute. simpl.
  induction (tree w) as [|e t IH]; [done|]. simpl.
  assert (Huid : uid (if decide (uid e = el')
                      then Element (uid e) (tagName e)
                             (filter (λ a, a.1 ≠ name) (attributes e))
                      else e) = uid e) by (by case_decide).
  rewrite Huid. by destruct (bool_decide (uid e = el)).
Qed.

(** [removeAttribute] leaves every attribute of another name as it is. *)
Lemma getAttribute_removeAttribute_ne (el el' : nat) (name name' : string)
    (w : world) :
  name ≠ name' →
  getAttribute el name (removeAttribute el' name' w) = getAttribute el name w.
Proof.
  intros Hne. unfold getAttribute. rewrite find_element_removeAttribute.
  destruct (find_element el w) as [e|]; [|done]. simpl.
  unfold attribute_value. case_decide; [|done]. simpl.
  by apply lookup_attribute_filter_ne.
Qed.

(** C9, as the code behaves: the iteration that resolves a ref to an element
    removes the attribute named by the identity string, not the marker, and
    calls [ref.mount] with the marker attribute still on the element: the
    attributes the element carries when [mount] (and with it the
    initializer) runs still contain the marker with its value. *)
Theorem mountRefs_step_keeps_marker (r : ref) (rootElement el : nat)
    (v : string) (w : world) :
  Ref.id r ≠ "" →
  refElement rootElement r w = Some el →
  getAttribute el (marker (Ref.id r)) w = Some v →
  ∃ attrs,
    mountRefs_step rootElement r w
    = mount_ref el r (emit_event (MountCall (Ref.id r) el attrs)
                                 (removeAttribute el (Ref.id r) w)) ∧
    lookup_attribute (marker (Ref.id r)) attrs = Some v ∧
    getAttribute el (marker (Ref.id r)) (removeAttribute el (Ref.id r) w)
    = Some v.
Proof.
  intros Hid Hel Hattr.
  assert (Hkeep : getAttribute el (marker (Ref.id r))
                    (removeAttribute el (Ref.id r) w) = Some v).
  { rewrite getAttribute_removeAttribute_ne; [done|apply marker_neq_id]. }
  eexists. split_and!; [|shelve|done].
  - unfold mountRefs_step. rewrite decide_False by done. by rewrite Hel.
  Unshelve.
  unfold getAttribute in Hkeep.
  destruct (find_element el (removeAttribute el (Ref.id r) w)) as [e|]; [|done].
  exact Hkeep.
Qed.

Lemma register_pushes (g : registration) (ctx : context) :
  pushes g → mounted ctx = false →
  ∃ ctx', register g ctx = (Return (), ctx') ∧
          ctx_id ctx' = ctx_id ctx ∧ mounted ctx' = false ∧
          Ref.id <$> refs ctx'
          = (Ref.id <$> refs ctx)
            ++ (generateRefId ctx <$> seq (length (refs ctx)) (creates_ref g)).
Proof.
  intros Hg Hm. destruct g as [| | |v|d|e| |rv]; try done; simpl;
    try (eexists; split; [reflexivity|]; simpl;
         split_and!; [done|done|by rewrite fmap_app]).
  - unfold register, context_effect. rewrite Hm.
    destruct (truthy d); eexists; (split; [reflexivity|]); simpl;
      split_and!; try done; by rewrite fmap_app.
  - unfold context_effect. rewrite Hm. eexists. split; [reflexivity|]. simpl.
    split_and!; try done. by rewrite app_nil_r.
Qed.

(** A builder that does not call [context.toggle] leaves its refs in the
    array in the order in which it registered them. *)
Lemma run_builder_pushes (gs : list registration) (ctx : context) :
  Forall pushes gs → mounted ctx = false →
  ∃ ctx', run_builder gs ctx = (Return (), ctx') ∧
          ctx_id ctx' = ctx_id ctx ∧ mounted ctx' = false ∧
          Ref.id <$> refs ctx'
          = (Ref.id <$> refs ctx)
            ++ (generateRefId ctx
                  <$> seq (length (refs ctx)) (sum_list (creates_ref <$> gs))).
Proof.
  intros Hgs. revert ctx. induction Hgs as [|g gs Hg Hgs IH]; intros ctx Hm.
  - exists ctx. simpl. by rewrite app_nil_r.
  - destruct (register_pushes g ctx Hg Hm) as (ctx1 & Hreg & Hid & Hm1 & Hrefs).
    destruct (IH ctx1 Hm1) as (ctx2 & Hrun & Hid2 & Hm2 & Hrefs2).
    exists ctx2. simpl. rewrite Hreg. split_and!; [done|congruence|done|].
    rewrite Hrefs2, Hrefs, <- app_assoc. f_equal.
    rewrite seq_app, fmap_app. f_equal.
    assert (Hlen : length (refs ctx1) = length (refs ctx) + creates_ref g).
    { rewrite <- (length_fmap Ref.id (refs ctx1)), Hrefs.
      by rewrite length_app, !length_fmap, length_seq. }
    rewrite Hlen. unfold generateRefId. by rewrite Hid.
Qed.

(** *** Order of resolution and of effects *)

Lemma generateRefId_nonempty (ctx : context) (index : nat) :
  generateRefId ctx index ≠ "".
Proof.
  unfold generateRefId. destruct (ctx_id ctx); [|done].
  rewrite append_empty, append_cons. done.
Qed.

Lemma register_fresh (g : registration) (ctx : context) :
  Forall fresh_ref (refs ctx) → Forall fresh_ref (refs (register g ctx).2).
Proof.
  intros Hrefs.
  assert (Hnew : ∀ ty, fresh_ref (Ref.createRef
                                   (generateRefId ctx (length (refs ctx)))
                                   ty None None None)).
  { intros ty. unfold fresh_ref. simpl. split_and!; try done.
    apply generateRefId_nonempty. }
  destruct g as [| | |v|d|e| |rv]; simpl;
    try (apply Forall_app; split; [done|]; apply Forall_singleton, Hnew);
    try (apply Forall_cons; split; [apply Hnew|done]).
  - unfold context_effect. destruct (truthy d), (mounted ctx); simpl; try done;
      apply Forall_app; (split; [done|]); apply Forall_singleton, Hnew.
  - unfold context_effect. by destruct (mounted ctx).
Qed.

Lemma run_builder_fresh (gs : list registration) (ctx : context) :
  Forall fresh_ref (refs ctx) → Forall fresh_ref (refs (run_builder gs ctx).2).
Proof.
  revert ctx. induction gs as [|g gs IH]; intros ctx Hrefs; [done|].
  simpl. pose proof (register_fresh g ctx Hrefs) as Hg.
  destruct (register g ctx) as [[[]|m] ctx1]; simpl in *; [|done]. by apply IH.
Qed.

(** One iteration on a fresh ref returns; it logs one [MountCall] for the
    ref, or a warning. *)
Lemma mountRefs_step_fresh (rootElement : nat) (r : ref) (w : world) :
  fresh_ref r →
  ∃ r' w', mountRefs_step rootElement r w = (Return (), r', w') ∧
           Ref.id r' = Ref.id r ∧
           (resolution_order w' = resolution_order w ++ [Ref.id r] ∨
            resolution_order w' = resolution_order w) ∧
           effect_order w' = effect_order w.
Proof.
  intros (Hinit & Hmount & Hm & Hid). unfold mountRefs_step.
  rewrite decide_False by done.
  destruct (refElement rootElement r w) as [el|].
  - unfold mount_ref, Ref.mount. rewrite Hm, Hinit, Hmount. simpl.
    eexists _, _. split; [done|]. simpl. split; [done|].
    unfold resolution_order, effect_order. simpl.
    rewrite !omap_app. simpl. split; [by left|by rewrite app_nil_r].
  - eexists _, _. split; [done|]. split; [done|].
    unfold resolution_order, effect_order. simpl.
    rewrite !omap_app. simpl. split; [right|]; by rewrite app_nil_r.
Qed.

(** [mountRefs] on fresh refs resolves them in array order (skipping those
    whose marker is not found) and runs no effect. *)
Lemma mountRefs_in_array_order (rootElement : nat) (rs : list ref) (w : world) :
  Forall fresh_ref rs →
  ∃ rs' w' resolved,
    mountRefs rootElement rs w = (Return (), rs', w') ∧
    resolution_order w' = resolution_order w ++ resolved ∧
    resolved `sublist_of` (Ref.id <$> rs) ∧
    effect_order w' = effect_order w.
Proof.
  intros Hrs. revert w. induction Hrs as [|r rs Hr Hrs IH]; intros w.
  - exists [], w, []. by rewrite app_nil_r.
  - destruct (mountRefs_step_fresh rootElement r w Hr)
      as (r' & w1 & Hstep & Hid & Hres & Heff).
    destruct (IH w1) as (rs' & w2 & resolved & Hrest & Hres2 & Hsub & Heff2).
    simpl. rewrite Hstep, Hrest.
    destruct Hres as [Hres|Hres].
    + exists (r' :: rs'), w2, (Ref.id r :: resolved).
      split_and!; [done| |by apply sublist_skip|congruence].
      rewrite Hres2, Hres. by rewrite <- app_assoc.
    + exists (r' :: rs'), w2, resolved.
      split_and!; [done| |by apply sublist_cons|congruence].
      by rewrite Hres2, Hres.
Qed.

(** Running the effects leaves one event per effect, in array order. *)
Lemma run_effects_log (es : list effect) (ctx : context) (w : world) :
  log (foldl (λ st e, run_effect e st) (ctx, w) es).2
  = log w ++ (effect_event <$> es) ∧
  effects (foldl (λ st e, run_effect e st) (ctx, w) es).1 = effects ctx.
Proof.
  revert ctx w. induction es as [|e es IH]; intros ctx w.
  - simpl. by rewrite app_nil_r.
  - cbn [foldl].
    assert (Hstep : ∃ ctx1, run_effect e (ctx, w)
                            = (ctx1, emit_event (effect_event e) w) ∧
                            effects ctx1 = effects ctx).
    { destruct e as [n [d|]|l]; simpl; eauto. }
    destruct Hstep as (ctx1 & -> & Heff).
    destruct (IH ctx1 (emit_event (effect_event e) w)) as [-> ->].
    simpl. by rewrite <- app_assoc.
Qed.

Lemma effect_order_events (es : list effect) :
  omap (λ e, match e with
             | EffectRun _ | ListInitRun _ => Some e
             | _ => None
             end) (effect_event <$> es) = effect_event <$> es ∧
  omap (λ e, match e with MountCall i _ _ => Some i | _ => None end)
       (effect_event <$> es) = [].
Proof.
  induction es as [|[n d|l] es [IH1 IH2]]; [done| |];
    rewrite !fmap_cons; cbn [omap list_omap effect_event];
    by rewrite ?IH1, ?IH2.
Qed.

(** Mounting a block whose builder does not call [context.toggle]: the refs
    are resolved in registration order (those whose marker is missing are
    skipped), and after them every effect runs, in the order of the
    [effects] array. *)
Lemma mount_without_toggle_in_order (dataRef : string) (b : builder_run)
    (rootElement : element) (descendants : list element) :
  Forall pushes (registrations b) →
  content_children b = [rootElement :: descendants] →
  ∃ ctx w before_effects,
    mount "TEMPLATE" dataRef b = (Return (), ctx, w) ∧
    log w = before_effects ++ (effect_event <$> effects ctx) ∧
    effect_order (World [] before_effects) = [] ∧
    resolution_order w = resolution_order (World [] before_effects) ∧
    resolution_order w
      `sublist_of` (generateRefId (Context dataRef [] [] false [])
                      <$> seq 0 (sum_list (creates_ref <$> registrations b))).
Proof.
  intros Hpush Hcontent. unfold mount. rewrite decide_False by (by intros []).
  set (ctx1 := Context dataRef [] [] false []).
  destruct (run_builder_pushes (registrations b) ctx1 Hpush eq_refl)
    as (ctx2 & Hrun & Hid & Hm & Hrefs).
  pose proof (run_builder_fresh (registrations b) ctx1 (Forall_nil_2 _)) as Hfresh.
  rewrite Hrun in Hfresh |- *. simpl in Hfresh. rewrite Hcontent.
  cbn [refs effects ctx_id].
  destruct (mountRefs_in_array_order (uid rootElement) (refs ctx2)
              (World (rootElement :: descendants) []) Hfresh)
    as (rs' & w2 & resolved & Hmount & Hres & Hsub & Heff).
  rewrite Hmount.
  destruct (run_effects_log (effects ctx2)
              (with_refs (Context (ctx_id ctx2) (refs ctx2) (effects ctx2) true
                                  (onUnmount ctx2)) rs') w2) as [Hlog Heffs].
  destruct (foldl _ _ (effects ctx2)) as [ctx4 w3] eqn:Hfold.
  simpl in Hlog, Heffs.
  destruct (effect_order_events (effects ctx2)) as [Hev1 Hev2].
  exists ctx4, w3, (log w2). split_and!.
  - done.
  - by rewrite Heffs.
  - exact Heff.
  - unfold resolution_order. simpl. by rewrite Hlog, omap_app, Hev2, app_nil_r.
  - unfold resolution_order at 1. rewrite Hlog, omap_app, Hev2, app_nil_r.
    fold (resolution_order w2). rewrite Hres. simpl.
    rewrite Hrefs in Hsub. exact Hsub.
Qed.

(** *** Identities of refs *)

Lemma digit36_value_digit36 (d : nat) : d < 36 → digit36_value (digit36 d) = d.
Proof. intros Hd. do 36 (destruct d as [|d]; [reflexivity|]). lia. Qed.

Lemma value36_toString36_aux (fuel n : nat) (acc : string) :
  n < fuel →
  value36 (toString36_aux fuel n acc)
  = n * 36 ^ String.length acc + value36 acc.
Proof.
  revert n acc. induction fuel as [|fuel IH]; intros n acc Hn; [lia|].
  cbn [toString36_aux].
  assert (Hmod : n mod 36 < 36) by (apply Nat.mod_upper_bound; lia).
  pose proof (Nat.div_mod_eq n 36) as Hdiv.
  destruct (n / 36 =? 0) eqn:E.
  - apply Nat.eqb_eq in E. cbn [value36]. rewrite digit36_value_digit36 by done.
    rewrite E in Hdiv. f_equal. f_equal. lia.
  - apply Nat.eqb_neq in E. rewrite IH by lia.
    cbn [value36 String.length]. rewrite digit36_value_digit36 by done.
    rewrite Nat.pow_succ_r'.
    generalize dependent (n / 36). generalize dependent (n mod 36).
    intros m _ q -> _. lia.
Qed.

Lemma value36_toString36 (n : nat) : value36 (toString36 n) = n.
Proof.
  unfold toString36. rewrite value36_toString36_aux by lia. simpl. lia.
Qed.

Lemma toString36_inj (n m : nat) : toString36 n = toString36 m → n = m.
Proof. intros Heq. by rewrite <- (value36_toString36 n), Heq, value36_toString36. Qed.

Lemma generateRefId_inj (ctx : context) (n m : nat) :
  generateRefId ctx n = generateRefId ctx m → n = m.
Proof.
  unfold generateRefId. intros Heq.
  by apply (inj (String.append (ctx_id ctx))), (inj (String.append "-")),
    toString36_inj in Heq.
Qed.

(** X11: [index.toString(36)] is a numeral that denotes [index], so distinct
    indices give distinct numerals, and [generateRefId] gives distinct
    identities to distinct indices of one context. *)
Theorem toString36_value (n : nat) :
  value36 (toString36 n) = n ∧
  (∀ m, toString36 n = toString36 m → n = m) ∧
  (∀ ctx m, generateRefId ctx n = generateRefId ctx m → n = m).
Proof.
  split_and!.
  - apply value36_toString36.
  - apply toString36_inj.
  - intros ctx m. apply generateRefId_inj.
Qed.

(** One registration call on a block that is not mounted returns; it
    creates the refs that [creates_ref] counts, with the next index. *)
Lemma register_unmounted (g : registration) (ctx : context) :
  mounted ctx = false →
  ∃ ctx', register g ctx = (Return (), ctx') ∧
          ctx_id ctx' = ctx_id ctx ∧ mounted ctx' = false ∧
          onUnmount ctx' = onUnmount ctx ∧
          length (refs ctx') = length (refs ctx) + creates_ref g ∧
          Ref.id <$> refs ctx'
          ≡ₚ (Ref.id <$> refs ctx)
             ++ (generateRefId ctx <$> seq (length (refs ctx)) (creates_ref g)).
Proof.
  intros Hm. destruct g as [| | |v|d|e| |rv]; simpl;
    try (eexists; split; [reflexivity|]; simpl;
         split_and!; [done|done|done|by rewrite length_app|by rewrite fmap_app]).
  - eexists. split; [reflexivity|]. simpl. split_and!; try done; try lia.
    by rewrite <- Permutation_cons_append.
  - unfold context_effect. rewrite Hm.
    destruct (truthy d); eexists; (split; [reflexivity|]); simpl;
      split_and!; try done; by rewrite ?length_app, ?fmap_app.
  - unfold context_effect. rewrite Hm. eexists. split; [reflexivity|]. simpl.
    split_and!; try done; try lia. by rewrite app_nil_r.
Qed.

Lemma run_builder_unmounted (gs : list registration) (ctx : context) :
  mounted ctx = false →
  ∃ ctx', run_builder gs ctx = (Return (), ctx') ∧
          ctx_id ctx' = ctx_id ctx ∧ mounted ctx' = false ∧
          onUnmount ctx' = onUnmount ctx ∧
          length (refs ctx')
          = length (refs ctx) + sum_list (creates_ref <$> gs) ∧
          Ref.id <$> refs ctx'
          ≡ₚ (Ref.id <$> refs ctx)
             ++ (generateRefId ctx
                   <$> seq (length (refs ctx)) (sum_list (creates_ref <$> gs))).
Proof.
  revert ctx. induction gs as [|g gs IH]; intros ctx Hm.
  - exists ctx. simpl. split_and!; try done; try lia. by rewrite app_nil_r.
  - destruct (register_unmounted g ctx Hm)
      as (ctx1 & Hreg & Hid & Hm1 & Hun1 & Hlen1 & Hrefs1).
    destruct (IH ctx1 Hm1) as (ctx2 & Hrun & Hid2 & Hm2 & Hun2 & Hlen2 & Hrefs2).
    exists ctx2. cbn [run_builder]. rewrite Hreg.
    change (sum_list (creates_ref <$> g :: gs))
      with (creates_ref g + sum_list (creates_ref <$> gs)).
    split_and!; [done|congruence|done|congruence|lia|].
    rewrite Hrefs2, Hrefs1, <- app_assoc. apply Permutation_app_head.
    rewrite seq_app, fmap_app, Hlen1. unfold generateRefId. by rewrite Hid.
Qed.

(** X12: whatever a builder registers before the mount, in whatever order
    and through whichever of the calls that [registration] lists
    ([context.toggle] included), the calls all return, one ref is created
    per call other than [context.effect], and the identities of the refs
    are the context identity followed by a dash and the base-36 indices 0
    to n - 1, each exactly once. *)
Theorem builder_ref_ids (dataRef : string) (gs : list registration) :
  ∃ ctx,
    run_builder gs (Context dataRef [] [] false []) = (Return (), ctx) ∧
    ctx_id ctx = dataRef ∧
    length (refs ctx) = sum_list (creates_ref <$> gs) ∧
    Ref.id <$> refs ctx
    ≡ₚ (λ i, dataRef +:+ "-" +:+ toString36 i) <$> seq 0 (length (refs ctx)) ∧
    NoDup (Ref.id <$> refs ctx).
Proof.
  destruct (run_builder_unmounted gs (Context dataRef [] [] false []) eq_refl)
    as (ctx & Hrun & Hid & _ & _ & Hlen & Hrefs).
  simpl in *. exists ctx. rewrite <- Hlen in Hrefs.
  split_and!; [done|done|done|done|].
  rewrite Hrefs. apply NoDup_fmap_2_strong; [|apply NoDup_seq].
  intros i j _ _ Heq.
  by apply (generateRefId_inj (Context dataRef [] [] false []) i j).
Qed.

Lemma dynamic_ids_seq (n c : nat) :
  dynamic_ids n c = (λ k, "D" +:+ pretty k) <$> seq c n.
Proof.
  revert c. induction n as [|n IH]; intros c; [done|].
  cbn [dynamic_ids generateDynamicRefId seq]. by rewrite IH, fmap_cons.
Qed.

(** [generateDynamicRefId] never returns the same identity twice: the
    identities returned by any number of calls in a row are the letter D
    followed by the successive values of the counter in decimal, and they
    are pairwise distinct. *)
Lemma dynamic_ids_distinct (n c : nat) :
  NoDup (dynamic_ids n c) ∧
  length (dynamic_ids n c) = n ∧
  ∀ k, k < n → dynamic_ids n c !! k = Some ("D" +:+ pretty (c + k)).
Proof.
  rewrite dynamic_ids_seq. split_and!.
  - apply NoDup_fmap_2_strong; [|apply NoDup_seq].
    intros i j _ _ Heq.
    by apply (inj (String.append "D")), (inj pretty) in Heq.
  - by rewrite length_fmap, length_seq.
  - intros k Hk. by rewrite list_lookup_fmap, lookup_seq_lt.
Qed.

(** *** Outcome of a mount *)

Lemma register_plain (g : registration) (ctx : context) :
  Forall plain_ref (refs ctx) → Forall plain_ref (refs (register g ctx).2).
Proof.
  intros Hrefs.
  assert (Hnew : ∀ i ty, plain_ref (Ref.createRef i ty None None None)) by done.
  destruct g as [| | |v|d|e| |rv]; simpl;
    try (apply Forall_app; split; [done|]; apply Forall_singleton, Hnew);
    try (apply Forall_cons; split; [apply Hnew|done]).
  - unfold context_effect. destruct (truthy d), (mounted ctx); simpl; try done;
      apply Forall_app; (split; [done|]); apply Forall_singleton, Hnew.
  - unfold context_effect. by destruct (mounted ctx).
Qed.

Lemma run_builder_plain (gs : list registration) (ctx : context) :
  Forall plain_ref (refs ctx) → Forall plain_ref (refs (run_builder gs ctx).2).
Proof.
  revert ctx. induction gs as [|g gs IH]; intros ctx Hrefs; [done|].
  simpl. pose proof (register_plain g ctx Hrefs) as Hg.
  destruct (register g ctx) as [[[]|m] ctx1]; simpl in *; [|done]. by apply IH.
Qed.

(** One iteration on a fresh ref: the ref is mounted and logged, or warned
    about. *)
Lemma mountRefs_step_outcome (rootElement : nat) (r : ref) (w : world) :
  fresh_ref r →
  ∃ r' w' e, mountRefs_step rootElement r w = (Return (), r', w') ∧
             log w' = log w ++ [e] ∧ Ref.id r' = Ref.id r ∧
             ref_outcome r' e ∧ (plain_ref r → plain_ref r').
Proof.
  intros (Hinit & Hmount & Hm & Hid). unfold mountRefs_step.
  rewrite decide_False by done.
  destruct (refElement rootElement r w) as [el|].
  - unfold mount_ref, Ref.mount. rewrite Hm, Hinit, Hmount. simpl.
    eexists _, _, _. split; [done|]. simpl. split_and!; [done|done| |].
    + left. simpl. split; [done|]. by eexists _, _.
    + intros (_ & _ & Hun). by split_and!.
  - eexists _, _, _. split; [done|]. simpl. split_and!; [done|done| |done].
    right. by split.
Qed.


Lemma mountRefs_plain (rootElement : nat) (rs : list ref) (w : world) :
  Forall fresh_ref rs → Forall plain_ref rs →
  Forall plain_ref (mountRefs rootElement rs w).1.2.
Proof.
  intros Hrs. revert w. induction Hrs as [|r rs Hr Hrs IH]; intros w Hplain.
  - done.
  - apply Forall_cons in Hplain as [Hp Hplain].
    destruct (mountRefs_step_outcome rootElement r w Hr)
      as (r' & w1 & e & Hstep & _ & _ & _ & Hp').
    simpl. rewrite Hstep. specialize (IH w1 Hplain).
    destruct (mountRefs rootElement rs w1) as [[res rs'] w2]. simpl in *.
    apply Forall_cons. by split; [apply Hp'|].
Qed.

(** Running the effects changes nothing of the context but the set of
    disposers, which receives every disposer returned, in order. *)
Lemma run_effects_context (es : list effect) (ctx : context) (w : world) :
  let ctx' := (foldl (λ st e, run_effect e st) (ctx, w) es).1 in
  ctx_id ctx' = ctx_id ctx ∧ refs ctx' = refs ctx ∧
  effects ctx' = effects ctx ∧ mounted ctx' = mounted ctx ∧
  onUnmount ctx'
  = foldl (λ g d, CallbackGroup.set_add d g) (onUnmount ctx) (disposers es).
Proof.
  revert ctx w. induction es as [|e es IH]; intros ctx w; [done|].
  cbn [foldl]. destruct (run_effect e (ctx, w)) as [ctx1 w1] eqn:E.
  assert (Hstep : ctx_id ctx1 = ctx_id ctx ∧ refs ctx1 = refs ctx ∧
                  effects ctx1 = effects ctx ∧ mounted ctx1 = mounted ctx ∧
                  onUnmount ctx1
                  = foldl (λ g d, CallbackGroup.set_add d g) (onUnmount ctx)
                          (disposers [e])).
  { destruct e as [n [d|]|l]; simpl in E; injection E as <- <-; by split_and!. }
  destruct Hstep as (H1 & H2 & H3 & H4 & H5).
  destruct (IH ctx1 w1) as (G1 & G2 & G3 & G4 & G5). cbv zeta.
  split_and!; try congruence.
  rewrite G5, H5. change (e :: es) with ([e] ++ es).
  unfold disposers. by rewrite omap_app, foldl_app.
Qed.

(** What a [mount] that returned went through. *)
Lemma mount_Return_inv (templateTag dataRef : string) (b : builder_run)
    (ctx : context) (w : world) :
  mount templateTag dataRef b = (Return (), ctx, w) →
  templateTag = "TEMPLATE" ∧
  ∃ ctx2 rootElement descendants refs1 w2,
    run_builder (registrations b) (Context dataRef [] [] false [])
    = (Return (), ctx2) ∧
    content_children b = [rootElement :: descendants] ∧
    mountRefs (uid rootElement) (refs ctx2) (World (rootElement :: descendants) [])
    = (Return (), refs1, w2) ∧
    (ctx, w) = foldl (λ st e, run_effect e st)
                 (Context (ctx_id ctx2) refs1 (effects ctx2) true (onUnmount ctx2),
                  w2)
                 (effects ctx2).
Proof.
  unfold mount. case_decide as Htag; [done|].
  intros Hmount. split; [by destruct (decide (templateTag = "TEMPLATE"))|].
  destruct (run_builder _ _) as [[[]|m] ctx2] eqn:Hrun; [|done].
  destruct (content_children b) as [|[|rootElement descendants] [|c2 cs]];
    try done.
  cbn [refs effects ctx_id onUnmount] in Hmount.
  destruct (mountRefs _ _ _) as [[[[]|m] refs1] w2] eqn:Hrefs; [|done].
  unfold with_refs in Hmount. cbn [refs effects ctx_id onUnmount mounted] in Hmount.
  destruct (foldl _ _ _) as [ctx4 w3] eqn:Hfold.
  injection Hmount as <- <-.
  by eexists ctx2, rootElement, descendants, refs1, w2.
Qed.


(** X15: once [block.mount] has returned the block counts as mounted:
    [context.effect] throws and registers nothing, and so does
    [context.list] with initial data, which registers its populating effect
    before it registers its ref.  The other registration calls still
    return; each adds a ref, which stays unmounted. *)
Theorem effect_after_mount (templateTag dataRef : string) (b : builder_run)
    (ctx : context) (w : world) :
  mount templateTag dataRef b = (Return (), ctx, w) →
  mounted ctx = true ∧
  (∀ e, context_effect e ctx
        = (Throw "Cannot use effect after block mounting", ctx)) ∧
  (∀ d, truthy d = true →
        register (reg_list d) ctx
        = (Throw "Cannot use effect after block mounting", ctx)) ∧
  (∀ g, creates_ref g = 1 → (∀ d, g = reg_list d → truthy d = false) →
        ∃ ctx' r, register g ctx = (Return (), ctx') ∧
                  Ref.mounted r = false ∧
                  Ref.id r = generateRefId ctx (length (refs ctx)) ∧
                  (refs ctx' = refs ctx ++ [r] ∨ refs ctx' = r :: refs ctx)).
Proof.
  intros Hmount.
  apply mount_Return_inv in Hmount
    as (_ & ctx2 & rootElement & descendants & refs1 & w2 & _ & _ & _ & Hfold).
  pose proof (run_effects_context (effects ctx2)
                (Context (ctx_id ctx2) refs1 (effects ctx2) true (onUnmount ctx2))
                w2) as (_ & _ & _ & Hm & _).
  rewrite <- Hfold in Hm. simpl in Hm.
  assert (Heffect : ∀ e, context_effect e ctx
                         = (Throw "Cannot use effect after block mounting", ctx)).
  { intros e. unfold context_effect. by rewrite Hm. }
  split_and!; [done|done| |].
  - intros d Hd. simpl. by rewrite Hd, Heffect.
  - intros g Hg Hlist.
    set (i := generateRefId ctx (length (refs ctx))).
    destruct g as [| | |v|d|e| |rv]; try done; simpl; fold i.
    + exists (with_refs ctx (refs ctx ++ [Ref.createRef i Ref.attribute None None None])),
        (Ref.createRef i Ref.attribute None None None).
      split_and!; [done|done|done|by left].
    + exists (with_refs ctx (refs ctx ++ [Ref.createRef i Ref.attribute None None None])),
        (Ref.createRef i Ref.attribute None None None).
      split_and!; [done|done|done|by left].
    + exists (with_refs ctx (refs ctx ++ [Ref.createRef i Ref.element None None None])),
        (Ref.createRef i Ref.element None None None).
      split_and!; [done|done|done|by left].
    + exists (with_refs ctx (Ref.createRef i Ref.attribute None None None :: refs ctx)),
        (Ref.createRef i Ref.attribute None None None).
      split_and!; [done|done|done|by right].
    + rewrite (Hlist d eq_refl).
      exists (with_refs ctx (refs ctx ++ [Ref.createRef i Ref.element None None None])),
        (Ref.createRef i Ref.element None None None).
      split_and!; [done|done|done|by left].
    + exists (with_refs ctx (refs ctx ++ [Ref.createRef i Ref.attribute None None None])),
        (Ref.createRef i Ref.attribute None None None).
      split_and!; [done|done|done|by left].
    + exists (with_refs ctx (refs ctx ++ [Ref.createRef i Ref.attribute None None None])),
        (Ref.createRef i Ref.attribute None None None).
      split_and!; [done|done|done|by left].
Qed.

Lemma unmountRefs_plain (rs : list ref) (w : world) :
  Forall plain_ref rs →
  ∃ rs', unmountRefs rs w = (Return (), rs', w) ∧
         Forall (λ r, Ref.mounted r = false) rs' ∧ Forall plain_ref rs' ∧
         Ref.id <$> rs' = Ref.id <$> rs.
Proof.
  induction 1 as [|r rs (Hinit & Hmount & Hun) Hrs (rs' & IH & Hm & Hp & Hids)].
  - by exists [].
  - cbn [unmountRefs]. unfold Ref.unmount. rewrite Hun. simpl.
    destruct (Ref.mounted r) eqn:Hmounted; simpl; rewrite IH.
    + eexists. split; [done|]. split_and!.
      * by apply Forall_cons.
      * by apply Forall_cons.
      * by rewrite !fmap_cons, Hids.
    + eexists. split; [done|]. split_and!.
      * by apply Forall_cons.
      * by apply Forall_cons.
      * by rewrite !fmap_cons, Hids.
Qed.

(** X16: [block.unmount] after a [mount] that returned (the refs of this
    model have no hooks that could throw).  The disposers it calls are the
    distinct disposers that the effects returned, in the order in which
    they were first returned; every ref is unmounted afterwards.  Nothing
    is forgotten by it: the block still counts as mounted, and a second
    [unmount] calls every disposer again. *)
Theorem unmount_after_mount (templateTag dataRef : string) (b : builder_run)
    (ctx : context) (w : world) :
  mount templateTag dataRef b = (Return (), ctx, w) →
  onUnmount ctx
  = foldl (λ g d, CallbackGroup.set_add d g) [] (disposers (effects ctx)) ∧
  ∃ ctx', unmount ctx w = (Return (), ctx', w, onUnmount ctx) ∧
          Forall (λ r, Ref.mounted r = false) (refs ctx') ∧
          mounted ctx' = true ∧
          unmount ctx' w = (Return (), ctx', w, onUnmount ctx).
Proof.
  intros Hmount.
  apply mount_Return_inv in Hmount
    as (_ & ctx2 & rootElement & descendants & refs1 & w2 & Hrun & _ & Hrefs & Hfold).
  pose proof (run_effects_context (effects ctx2)
                (Context (ctx_id ctx2) refs1 (effects ctx2) true (onUnmount ctx2))
                w2) as (_ & Hr & He & Hm & Hun).
  rewrite <- Hfold in Hr, He, Hm, Hun. simpl in Hr, He, Hm, Hun.
  destruct (run_builder_unmounted (registrations b)
              (Context dataRef [] [] false []) eq_refl)
    as (ctx2' & Hrun' & _ & _ & Hun2 & _).
  rewrite Hrun in Hrun'. injection Hrun' as <-. simpl in Hun2.
  rewrite Hun2 in Hun. rewrite He. split; [done|].
  assert (Hplain : Forall plain_ref (refs ctx)).
  { rewrite Hr.
    pose proof (run_builder_fresh (registrations b)
                  (Context dataRef [] [] false []) (Forall_nil_2 _)) as Hfresh.
    pose proof (run_builder_plain (registrations b)
                  (Context dataRef [] [] false []) (Forall_nil_2 _)) as Hp.
    rewrite Hrun in Hfresh, Hp. simpl in Hfresh, Hp.
    pose proof (mountRefs_plain (uid rootElement) (refs ctx2)
                  (World (rootElement :: descendants) []) Hfresh Hp) as Hp'.
    by rewrite Hrefs in Hp'. }
  destruct (unmountRefs_plain (refs ctx) w Hplain) as (rs' & Hu & Hum & Hp' & _).
  destruct (unmountRefs_plain rs' w Hp') as (rs'' & Hu' & _ & _ & _).
  exists (with_refs ctx rs'). unfold unmount. rewrite Hu. simpl. rewrite Hu'.
  split_and!; [done|done|done|].
  assert (rs'' = rs') as ->; [|done].
  clear -Hum Hu'. revert rs'' Hu'.
  induction Hum as [|r rs Hr Hrs IH]; intros rs'' Hu'.
  - simpl in Hu'. by injection Hu' as <-.
  - simpl in Hu'. unfold Ref.unmount in Hu'. rewrite Hr in Hu'. simpl in Hu'.
    destruct (unmountRefs rs w) as [[res rs1] w1] eqn:E.
    destruct res as [[]|m]; [|done]. injection Hu' as <- ->.
    f_equal. by apply IH.
Qed.

End block_facts.

Section block_examples.
Import Js Block.

(** C9 on that tree: the ref root-1 is resolved to the span, and the span is
    handed to [mount] with its marker attribute. *)
Lemma mountRefs_step_keeps_marker_witness :
  ∃ attrs,
    mountRefs_step 0 (Ref.createRef "root-1" Ref.attribute None None None)
                   (World two_markers [])
    = mount_ref 1 (Ref.createRef "root-1" Ref.attribute None None None)
        (emit_event (MountCall "root-1" 1 attrs)
                    (removeAttribute 1 "root-1" (World two_markers []))) ∧
    lookup_attribute "data-ref-root-1" attrs = Some "" ∧
    getAttribute 1 "data-ref-root-1"
                 (removeAttribute 1 "root-1" (World two_markers [])) = Some "".
Proof.
  apply (mountRefs_step_keeps_marker
           (Ref.createRef "root-1" Ref.attribute None None None) 0 1 ""
           (World two_markers [])); by vm_compute.
Defined.

(** Two element refs on that tree: both are resolved, and the tree still
    carries both marker attributes after the mount. *)
Lemma mount_leaves_markers_example :
  ∃ ctx w,
    mount "TEMPLATE" "root" (BuilderRun [reg_ref; reg_ref] [two_markers])
    = (Return (), ctx, w) ∧
    resolution_order w = ["root-0"; "root-1"] ∧
    tree w = two_markers.
Proof. eexists _, _. split; [by vm_compute|]. by vm_compute. Qed.

(** C2, as the code behaves: a builder that registers an element ref and
    then a toggle.  Both are resolved; the toggle, registered second (its
    identity ends in 1), is resolved first. *)
Theorem context_toggle_is_resolved_first :
  ∃ ctx w,
    mount "TEMPLATE" "root"
          (BuilderRun [reg_ref; reg_toggle None] [two_markers])
    = (Return (), ctx, w) ∧
    Ref.id <$> refs ctx = ["root-1"; "root-0"] ∧
    resolution_order w = ["root-1"; "root-0"].
Proof. eexists _, _. split; [by vm_compute|]. by vm_compute. Qed.


Lemma mountRefs_warning_example :
  log (mountRefs 0 [Ref.createRef "root-0" Ref.attribute None None None;
                    Ref.createRef "root-7" Ref.attribute None None None]
                 (World two_markers [])).2
  = [MountCall "root-0" 0 [("data-ref-root-0", "")];
     Warn "Ref element root-7 is not rendered"].
Proof. by vm_compute. Qed.

(** After the mount of a block with effects, [context.effect] is refused. *)
Lemma effect_after_mount_witness :
  let ctx := (render two_refs_three_effects).1.2 in
  mounted ctx = true ∧
  (∀ e, context_effect e ctx
        = (Throw "Cannot use effect after block mounting", ctx)) ∧
  (∀ d, truthy d = true →
        register (reg_list d) ctx
        = (Throw "Cannot use effect after block mounting", ctx)) ∧
  (∀ g, creates_ref g = 1 → (∀ d, g = reg_list d → truthy d = false) →
        ∃ ctx' r, register g ctx = (Return (), ctx') ∧
                  Ref.mounted r = false ∧
                  Ref.id r = generateRefId ctx (length (refs ctx)) ∧
                  (refs ctx' = refs ctx ++ [r] ∨ refs ctx' = r :: refs ctx)).
Proof.
  apply (effect_after_mount "TEMPLATE" "root" two_refs_three_effects
           (render two_refs_three_effects).1.2
           (render two_refs_three_effects).2).
  by vm_compute.
Defined.

(** Unmounting that block: the disposer 5, returned by two effects, is
    called once, and once more by a second [unmount]. *)
Lemma unmount_after_mount_witness :
  let ctx := (render two_refs_three_effects).1.2 in
  let w := (render two_refs_three_effects).2 in
  onUnmount ctx
  = foldl (λ g d, CallbackGroup.set_add d g) [] (disposers (effects ctx)) ∧
  ∃ ctx', unmount ctx w = (Return (), ctx', w, onUnmount ctx) ∧
          Forall (λ r, Ref.mounted r = false) (refs ctx') ∧
          mounted ctx' = true ∧
          unmount ctx' w = (Return (), ctx', w, onUnmount ctx).
Proof.
  apply (unmount_after_mount "TEMPLATE" "root" two_refs_three_effects
           (render two_refs_three_effects).1.2
           (render two_refs_three_effects).2).
  by vm_compute.
Defined.

Lemma unmount_disposers_example :
  (unmount (render two_refs_three_effects).1.2
           (render two_refs_three_effects).2).2 = [5] ∧
  effect_order (render two_refs_three_effects).2
  = [EffectRun 1; EffectRun 2; EffectRun 3] ∧
  resolution_order (render two_refs_three_effects).2 = ["root-0"; "root-1"].
Proof. by vm_compute. Qed.

End block_examples.

(** ** Class names *)

Section class_facts.
Import ElementClass.

Lemma map_set_keys (k : key) (v : class_value) (m : list (key * class_value)) :
  k ∈ (map_set k v m).*1.
Proof.
  unfold map_set. case_decide as Hk.
  - rewrite <- list_fmap_compose.
    apply list_elem_of_fmap in Hk as ([k' v'] & -> & Hin).
    apply list_elem_of_fmap. exists (k', v'). split; [|done].
    simpl. by rewrite decide_True.
  - rewrite fmap_app. apply elem_of_app. right. apply list_elem_of_here.
Qed.

Lemma map_set_other (k : key) (v : class_value) (m : list (key * class_value)) :
  k ∉ m.*1 → (λ kv, if decide (kv.1 = k) then (k, v) else kv) <$> m = m.
Proof.
  induction m as [|[k' v'] m IH]; [done|]. intros Hk.
  rewrite fmap_cons in Hk. apply not_elem_of_cons in Hk as [Hne Hk].
  simpl in Hne. rewrite fmap_cons, IH by done. simpl.
  by rewrite decide_False by congruence.
Qed.

(** Setting a key twice leaves what setting it the second time alone
    leaves. *)
Lemma map_set_twice (k : key) (v1 v2 : class_value)
    (m : list (key * class_value)) :
  map_set k v2 (map_set k v1 m) = map_set k v2 m.
Proof.
  unfold map_set at 1. rewrite decide_True by apply map_set_keys.
  unfold map_set. case_decide as Hk.
  - rewrite <- list_fmap_compose. apply list_fmap_ext.
    intros i [k' v'] _. simpl.
    destruct (decide (k' = k)) as [->|Hne]; simpl;
      [by rewrite decide_True|by rewrite decide_False].
  - rewrite fmap_app, map_set_other by done. simpl. by rewrite decide_True.
Qed.

(** X17: [setClass] keeps one value per [id], the one set last.  A second
    call for the same [id] leaves the map of values as the second call
    alone would have left it, and the same class name whenever the values
    then held contribute a class name at all; repeating a call changes
    nothing. *)
Theorem setClass_last_value_wins (v1 v2 : class_value) (id : option string)
    (e : element) :
  classes (setClass v2 id (setClass v1 id e)) = classes (setClass v2 id e) ∧
  (combined (default [] (classes (setClass v2 id e))) ≠ [] →
     setClass v2 id (setClass v1 id e) = setClass v2 id e) ∧
  setClass v1 id (setClass v1 id e) = setClass v1 id e.
Proof.
  assert (Hclasses : ∀ v w, classes (setClass w id (setClass v id e))
                            = classes (setClass w id e)).
  { intros v w. unfold setClass. cbn [classes]. by rewrite map_set_twice. }
  split_and!.
  - apply Hclasses.
  - intros Hne. specialize (Hclasses v1 v2).
    unfold setClass in *. cbn [classes className default] in *.
    injection Hclasses as Hclasses. rewrite Hclasses.
    by rewrite !decide_False by done.
  - specialize (Hclasses v1 v1).
    unfold setClass in *. cbn [classes className default] in *.
    injection Hclasses as Hclasses. rewrite Hclasses.
    by case_decide.
Qed.

(** X18: the class name of an element that [setClass] is called on for the
    first time.  The element's own class name comes first, followed by the
    names the value contributes.  Nothing is written when no name is
    contributed at all; so, on an element without a class name of its own, a
    second call whose value contributes no name leaves the names of the
    first call in place. *)
Theorem setClass_keeps_last_names (own : string) (v1 v2 : class_value)
    (id : option string) :
  className (setClass v1 id (Element own None))
  = (if decide (own = "" ∧ class_names v1 = []) then own
     else String.concat " " ((if decide (own = "") then [] else [own])
                             ++ class_names v1)) ∧
  (own = "" → class_names v2 = [] →
   className (setClass v2 id (setClass v1 id (Element own None)))
   = className (setClass v1 id (Element own None))).
Proof.
  split.
  - unfold setClass, combined, map_set. simpl.
    rewrite app_nil_r.
    destruct (decide (own = "")) as [->|Hown];
      destruct (class_names v1) as [|n ns] eqn:Hv; simpl;
      repeat case_decide; try done; try tauto.
    all: exfalso; intuition congruence.
  - intros -> Hv2.
    assert (Hfirst : classes (setClass v1 id (Element "" None))
                     = Some [(KeyElement, ClassString ""); (KeyId id, v1)])
      by done.
    assert (Hmap : map_set (KeyId id) v2
                     [(KeyElement, ClassString ""); (KeyId id, v1)]
                   = [(KeyElement, ClassString ""); (KeyId id, v2)]).
    { unfold map_set.
      rewrite decide_True by (simpl; apply list_elem_of_further, list_elem_of_here).
      simpl. by rewrite decide_True. }
    unfold setClass at 1. rewrite Hfirst. cbv beta iota zeta. rewrite Hmap.
    unfold combined. simpl. by rewrite Hv2.
Qed.

End class_facts.

Section class_examples.
Import ElementClass.

(** A button with the class "btn" of its own: the object value turns
    "active" on, then off; on an element without a class of its own,
    "active" stays after it has been turned off. *)
Lemma setClass_example :
  let on := ClassObject [("active", true); ("big", false)] in
  let off := ClassObject [("active", false); ("big", false)] in
  className (setClass on (Some "root-0") (Element "btn" None)) = "btn active" ∧
  className (setClass off (Some "root-0")
               (setClass on (Some "root-0") (Element "btn" None))) = "btn" ∧
  className (setClass on (Some "root-0") (Element "" None)) = "active" ∧
  className (setClass off (Some "root-0")
               (setClass on (Some "root-0") (Element "" None))) = "active".
Proof. by vm_compute. Qed.

End class_examples.

(** ** Lists of blocks *)

Section list_facts.
Import Js Dom JsArray BlockList.
Context {C D : Type}.
Variable blockBuilder : D → C.

Local Abbreviation state := (@BlockList.state C).
Local Abbreviation block := (@BlockList.block C).

Lemma length_splice_insert {A : Type} (a : list A) (start : Z) (x : A) :
  length (splice a start 0 [x]).2 = S (length a).
Proof.
  unfold splice. cbn [snd].
  rewrite !length_app, length_take, length_drop. simpl length.
  destruct (start <? 0)%Z eqn:E; lia.
Qed.

(** C4, as the code behaves: the guard of [first] and [last] is inverted.
    On a list with entries both throw the empty-list error; on an empty
    list both pass the guard and fail on [undefined.controller]. *)
Theorem first_last_guard_inverted (st : state) :
  (items st ≠ [] →
     first st = Throw "Cannot access the first item of empty list" ∧
     last st = Throw "Cannot access the last item of empty list") ∧
  (items st = [] →
     first st = Throw type_error ∧ last st = Throw type_error).
Proof.
  unfold first, last. split; intros Hitems.
  - rewrite !decide_True by (by destruct (items st)). done.
  - unfold size. rewrite Hitems. by split.
Qed.

(** [move] with indices that pass the guard lengthens the backing
    sequence by one: the moved entry is inserted at [to] and never removed
    from [from]. *)
Lemma move_lengthens (from to : Z) (st : state) :
  bad_indices from to st = false →
  length (items (move from to st)) = S (length (items st)).
Proof.
  intros Hok. unfold move. rewrite Hok.
  unfold bad_indices, size in Hok.
  apply orb_false_iff in Hok as [_ Hok].
  assert (Hf : (0 ≤ from < Z.of_nat (length (items st)))%Z) by lia.
  assert (Ht : (0 ≤ to < Z.of_nat (length (items st)))%Z) by lia.
  unfold at_index.
  rewrite (proj2 (Z.ltb_ge to 0)), (proj2 (Z.ltb_ge from 0)) by lia.
  destruct (lookup_lt_is_Some_2 (items st) (Z.to_nat to)) as [toItem ->]; [lia|].
  destruct (lookup_lt_is_Some_2 (items st) (Z.to_nat from)) as [fromItem ->]; [lia|].
  simpl. apply length_splice_insert.
Qed.

(** What [remove(index, count)] does to the state, whatever it returns. *)
Lemma remove_by_index_state (index : Z) (count : option Z) (st : state) :
  (remove (by_index index count) st).2
  = foldl (λ s x, unmount_block x s)
          (with_items st (splice (items st) index (default 1%Z count) []).2)
          (splice (items st) index (default 1%Z count) []).1.
Proof.
  unfold remove.
  destruct (splice (items st) index (default 1%Z count) []) as [removed items1].
  by destruct (bool_decide (is_Some count)).
Qed.

(** C3, as the code behaves: the test on [arguments.length] is inverted.
    [remove(index)] returns an array, holding the controller of the entry
    removed (or nothing); [remove(index, count)] returns [removed[0]], the
    first removed block itself or [undefined]. *)
Theorem remove_by_index_result (index : Z) (st : state) :
  (remove (by_index index None) st).1
  = Controllers (controller <$> (splice (items st) index 1 []).1) ∧
  length (splice (items st) index 1 []).1 ≤ 1 ∧
  ∀ count,
    (remove (by_index index (Some count)) st).1
    = FirstRemoved (head (splice (items st) index count []).1).
Proof.
  split_and!.
  - unfold remove. simpl. by destruct (splice (items st) index 1 []).
  - unfold splice. simpl. rewrite length_take. lia.
  - intros count. unfold remove. simpl.
    by destruct (splice (items st) index count []).
Qed.

(** *** Operations that keep backing sequence and tree in step *)

Lemma filter_all {A : Type} (P : A → Prop) `{∀ x, Decision (P x)} (l : list A) :
  (∀ x, x ∈ l → P x) → filter P l = l.
Proof.
  induction l as [|x l IH]; [done|]. intros HP.
  rewrite filter_cons_True by (apply HP, list_elem_of_here).
  f_equal. apply IH. intros y Hy. by apply HP, list_elem_of_further.
Qed.

Lemma filter_none {A : Type} (P : A → Prop) `{∀ x, Decision (P x)} (l : list A) :
  (∀ x, x ∈ l → ¬ P x) → filter P l = [].
Proof.
  induction l as [|x l IH]; [done|]. intros HP.
  rewrite filter_cons_False by (apply HP, list_elem_of_here).
  apply IH. intros y Hy. by apply HP, list_elem_of_further.
Qed.

Lemma filter_iff_elem {A : Type} (P Q : A → Prop) `{∀ x, Decision (P x)}
    `{∀ x, Decision (Q x)} (l : list A) :
  (∀ x, x ∈ l → P x ↔ Q x) → filter P l = filter Q l.
Proof.
  induction l as [|x l IH]; [done|]. intros HPQ.
  rewrite !filter_cons, IH
    by (intros y Hy; by apply HPQ, list_elem_of_further).
  apply decide_ext, HPQ, list_elem_of_here.
Qed.

(** A well-formed state is in sync. *)
Lemma well_formed_in_sync (st : state) : well_formed st → in_sync st.
Proof.
  intros (Hnd & _ & pre & post & Hdom). unfold in_sync, managed_siblings.
  rewrite Hdom in Hnd |- *.
  apply NoDup_app in Hnd as (Hpre & Hpre_rest & Hrest).
  apply NoDup_app in Hrest as (Hroots & Hroots_rest & Hph).
  apply NoDup_cons in Hph as [Hph _].
  split; [done|].
  rewrite filter_app, filter_app, filter_cons_True by apply list_elem_of_here.
  rewrite (filter_none _ pre), (filter_all _ (roots st)), (filter_none _ post).
  - done.
  - intros x Hx Hin. apply elem_of_cons in Hin as [->|Hin]; [done|].
    apply (Hroots_rest x Hin). by apply list_elem_of_further.
  - intros x Hx. by apply list_elem_of_further.
  - intros x Hx Hin. apply (Hpre_rest x Hx).
    apply elem_of_cons in Hin as [->|Hin].
    + apply elem_of_app. right. apply list_elem_of_here.
    + apply elem_of_app. by left.
Qed.

(** [createItem] with the action "insert before the child [a]": the fresh
    root ends immediately before [a]. *)
Lemma createItem_before (data : D) (a : node) (l1 l2 : children) (st : state) :
  NoDup (dom st) → (∀ n, n ∈ dom st → n < next_node st) →
  dom st = l1 ++ a :: l2 →
  createItem blockBuilder data (λ element, insertBefore a element) st
  = (Block (blockBuilder data) (S (next_node st)),
     State (items st) (placeholder st) (l1 ++ S (next_node st) :: a :: l2)
           (S (S (next_node st))) (unmounted st)).
Proof.
  intros Hnd Hlt Hdom. unfold createItem. f_equal. f_equal.
  set (t := next_node st). rewrite Hdom in Hnd, Hlt |- *.
  assert (Ht : t ∉ l1 ++ a :: l2).
  { intros Hin. apply Hlt in Hin. lia. }
  assert (Hr : ∀ l : list node, (∀ n, n ∈ l → n < S t) → S t ∉ l).
  { intros l Hl Hin. apply Hl in Hin. lia. }
  assert (Ha1 : a ∉ l1).
  { apply NoDup_app in Hnd as (_ & Hdisj & _). intros Hin.
    apply (Hdisj a Hin), list_elem_of_here. }
  assert (Ht1 : t ∉ l1).
  { intros Hin. apply Ht, elem_of_app. by left. }
  assert (Ht2 : t ∉ a :: l2).
  { intros Hin. apply Ht, elem_of_app. by right. }
  rewrite insertBefore_fresh by done.
  unfold before. rewrite decide_True
    by (apply elem_of_app; right; apply list_elem_of_here).
  unfold parent_insertBefore. rewrite decide_False by lia.
  rewrite (remove_notin (S t)).
  2:{ apply Hr. intros n Hn. apply elem_of_app in Hn as [Hn|Hn].
      - assert (n < t); [|lia]. apply Hlt, elem_of_app. by left.
      - apply elem_of_cons in Hn as [->|Hn]; [lia|].
        assert (n < t); [|lia]. apply Hlt, elem_of_app. by right. }
  rewrite insert_at_middle by done.
  rewrite (cons_middle (S t) l1), app_assoc.
  rewrite remove_middle; [by rewrite <- app_assoc| |done].
  rewrite elem_of_app, list_elem_of_singleton. intros [?|?]; [done|lia].
Qed.

(** The new child sequence is again made of distinct allocated nodes. *)
Lemma insert_fresh_NoDup (r : node) (l1 l2 : children) (next : node) :
  NoDup (l1 ++ l2) → (∀ n, n ∈ l1 ++ l2 → n < next) → next ≤ r →
  NoDup (l1 ++ r :: l2) ∧ ∀ n, n ∈ l1 ++ r :: l2 → n < S r.
Proof.
  intros Hnd Hlt Hr. split.
  - rewrite <- Permutation_middle. apply NoDup_cons. split; [|done].
    intros Hin. apply Hlt in Hin. lia.
  - intros n Hn. rewrite <- Permutation_middle in Hn.
    apply elem_of_cons in Hn as [->|Hn]; [lia|]. apply Hlt in Hn. lia.
Qed.

(** The list is well formed once its ref has mounted. *)
Lemma list_init_well_formed (element next : node) (c : children) :
  NoDup c → element ∈ c → (∀ n, n ∈ c → n < next) →
  well_formed (list_init (C := C) element c next).
Proof.
  intros Hnd Hel Hlt.
  apply list_elem_of_split in Hel as (l1 & l2 & ->).
  assert (Hnd' := Hnd).
  apply NoDup_app in Hnd' as (_ & H1 & Hnd').
  apply NoDup_cons in Hnd' as [H2 _].
  assert (Hel1 : element ∉ l1).
  { intros Hin. by apply (H1 _ Hin), list_elem_of_here. }
  assert (Hnext : next ∉ l1 ++ element :: l2).
  { intros Hin. apply Hlt in Hin. lia. }
  assert (Hdom : Dom.remove element (before element next (l1 ++ element :: l2))
                 = l1 ++ next :: l2).
  { unfold before, parent_insertBefore.
    rewrite decide_True by (apply elem_of_app; right; apply list_elem_of_here).
    rewrite decide_False.
    2:{ intros ->. apply Hnext, elem_of_app. right. apply list_elem_of_here. }
    rewrite (remove_notin next), insert_at_middle by done.
    rewrite (cons_middle next l1), app_assoc, remove_middle.
    - by rewrite <- app_assoc.
    - rewrite elem_of_app, list_elem_of_singleton. intros [?|Heq]; [done|].
      subst next. apply Hnext, elem_of_app. right. apply list_elem_of_here.
    - done. }
  unfold list_init, well_formed, roots. cbn [items placeholder dom next_node].
  rewrite Hdom.
  assert (Hnd12 : NoDup (l1 ++ l2)).
  { rewrite <- Permutation_middle in Hnd. by apply NoDup_cons in Hnd as [_ ?]. }
  destruct (insert_fresh_NoDup next l1 l2 next) as [Hnd' Hlt']; [done| |lia|].
  { intros n Hn. apply Hlt. rewrite <- Permutation_middle.
    by apply list_elem_of_further. }
  split_and!; [done|done|]. by exists l1, l2.
Qed.

Lemma push_well_formed (data : D) (st : state) :
  well_formed st → well_formed (push blockBuilder data st).2.
Proof.
  intros (Hnd & Hlt & pre & post & Hdom). unfold push.
  rewrite (createItem_before data (placeholder st) (pre ++ roots st) post)
    by (by rewrite <- ?app_assoc).
  simpl. unfold well_formed. simpl.
  rewrite Hdom, app_assoc in Hnd, Hlt.
  destruct (insert_fresh_NoDup (S (next_node st)) (pre ++ roots st)
              (placeholder st :: post) (next_node st)) as [Hnd' Hlt'];
    [done|done|lia|].
  split_and!; [done|done|].
  exists pre, post. unfold roots. simpl. rewrite fmap_app. simpl.
  by rewrite <- !app_assoc.
Qed.

Lemma unshift_well_formed (data : D) (st : state) :
  well_formed st → well_formed (unshift blockBuilder data st).2.
Proof.
  intros (Hnd & Hlt & pre & post & Hdom). unfold unshift.
  assert (Hsplit : ∃ l2, dom st = pre ++ anchor 0 st :: l2 ∧
                         roots st ++ placeholder st :: post = anchor 0 st :: l2).
  { unfold anchor, at_index, roots in *. simpl.
    destruct (items st) as [|b0 rest]; simpl in *; eauto. }
  destruct Hsplit as (l2 & Hdom' & Hl2).
  rewrite (createItem_before data (anchor 0 st) pre l2) by done.
  simpl. unfold well_formed. simpl.
  rewrite Hdom' in Hnd, Hlt.
  destruct (insert_fresh_NoDup (S (next_node st)) pre (anchor 0 st :: l2)
              (next_node st)) as [Hnd' Hlt']; [done|done|lia|].
  split_and!; [done|done|].
  exists pre, post. unfold roots in *. cbn [items dom placeholder].
  do 2 f_equal. symmetry. exact Hl2.
Qed.

(** Unmounting a run of blocks removes their roots from the tree and
    records them, in order. *)
Lemma foldl_unmount_block (l : list block) (st : state) :
  foldl (λ s x, unmount_block x s) st l
  = State (items st) (placeholder st)
          (filter (λ n, n ∉ rootElement <$> l) (dom st))
          (next_node st) (unmounted st ++ (rootElement <$> l)).
Proof.
  revert st. induction l as [|b l IH]; intros st.
  - simpl. rewrite app_nil_r, filter_all; [by destruct st|].
    intros x _. apply not_elem_of_nil.
  - simpl foldl. rewrite IH. unfold unmount_block. cbn [items placeholder dom next_node unmounted].
    f_equal.
    + unfold Dom.remove. rewrite list_filter_filter. apply list_filter_iff.
      intros x. rewrite fmap_cons, not_elem_of_cons. tauto.
    + by rewrite <- app_assoc.
Qed.

Lemma filter_remove_middle (l1 m l2 : children) :
  NoDup (l1 ++ m ++ l2) → filter (λ n, n ∉ m) (l1 ++ m ++ l2) = l1 ++ l2.
Proof.
  intros Hnd.
  apply NoDup_app in Hnd as (_ & H1 & Hnd).
  apply NoDup_app in Hnd as (_ & H2 & _).
  rewrite !filter_app, (filter_all _ l1), (filter_none _ m), (filter_all _ l2).
  - done.
  - intros x Hx Hm. by apply (H2 x Hm).
  - intros x Hx Hn. by apply Hn.
  - intros x Hx Hm. apply (H1 x Hx), elem_of_app. by left.
Qed.

(** Removing the run of [d] entries at [s] from backing sequence and tree. *)
Lemma remove_run_shape (a m b : list block) (st : state) :
  well_formed st → items st = a ++ m ++ b →
  well_formed (foldl (λ s x, unmount_block x s) (with_items st (a ++ b)) m).
Proof.
  intros (Hnd & Hlt & pre' & post' & Hdom) Hitems.
  rewrite foldl_unmount_block. unfold well_formed, with_items, roots in *.
  cbn [items placeholder dom next_node unmounted].
  split_and!.
  - by apply NoDup_filter.
  - intros n Hn. apply list_elem_of_filter in Hn as [_ Hn]. by apply Hlt.
  - exists pre', post'. rewrite Hdom in Hnd |- *. rewrite Hitems in Hnd |- *.
    rewrite !fmap_app in Hnd |- *. rewrite <- !app_assoc in Hnd |- *.
    rewrite (app_assoc pre') in Hnd |- *.
    rewrite (filter_remove_middle _ _ _ Hnd). by rewrite fmap_app, <- !app_assoc.
Qed.

(** Removing the run of [d] entries at [s] from backing sequence and tree. *)
Lemma remove_run_well_formed (s d : nat) (st : state) :
  well_formed st →
  well_formed
    (foldl (λ s x, unmount_block x s)
           (with_items st (take s (items st) ++ drop (s + d) (items st)))
           (take d (drop s (items st)))).
Proof.
  intros Hwf. apply remove_run_shape; [done|].
  by rewrite <- drop_drop, take_drop, take_drop.
Qed.

Lemma remove_by_index_well_formed (index : Z) (count : option Z) (st : state) :
  well_formed st → well_formed (remove (by_index index count) st).2.
Proof.
  intros Hwf. rewrite remove_by_index_state. unfold splice. cbn [fst snd].
  rewrite app_nil_l. by apply remove_run_well_formed.
Qed.

Lemma with_items_id (st : state) : with_items st (items st) = st.
Proof. by destruct st. Qed.

Lemma shift_well_formed (st : state) : well_formed st → well_formed (shift st).2.
Proof.
  intros Hwf. unfold shift, JsArray.shift.
  destruct (items st) as [|item rest] eqn:Hitems; simpl.
  - by rewrite <- Hitems, with_items_id.
  - pose proof (remove_run_well_formed 0 1 st Hwf) as H.
    rewrite Hitems in H. simpl in H. by rewrite drop_0 in H.
Qed.

Lemma pop_well_formed (st : state) : well_formed st → well_formed (pop st).2.
Proof.
  intros Hwf. unfold pop.
  destruct (JsArray.pop (items st)) as [o items1] eqn:Hpop.
  unfold JsArray.pop in Hpop. injection Hpop as Hlast Hitems1.
  destruct o as [item|]; simpl.
  - pose proof (remove_run_well_formed (length (items st) - 1) 1 st Hwf) as H.
    apply last_Some in Hlast as [l' Hl'].
    rewrite Hl' in H, Hitems1. rewrite length_app in H, Hitems1.
    simpl in H, Hitems1.
    replace (length l' + 1 - 1) with (length l') in H, Hitems1 by lia.
    rewrite take_app_length in H, Hitems1.
    rewrite drop_app_length, drop_ge in H by (rewrite length_app; simpl; lia).
    simpl in H. rewrite app_nil_r in H. by subst items1.
  - apply last_None in Hlast. rewrite Hlast in Hitems1. simpl in Hitems1.
    subst items1. by rewrite <- Hlast, with_items_id.
Qed.

(** A new block created before the entry at position [i] (before the
    placeholder when [i] is the length) and spliced in at [i]. *)
Lemma createItem_at_well_formed (i : nat) (data : D) (st : state) :
  well_formed st → i ≤ length (items st) →
  well_formed
    (with_items
       (createItem blockBuilder data
          (λ element,
             insertBefore (default (placeholder st)
                                   (rootElement <$> items st !! i)) element)
          st).2
       (take i (items st)
        ++ Block (blockBuilder data) (S (next_node st))
        :: drop i (items st))).
Proof.
  intros (Hnd & Hlt & pre & post & Hdom) Hi.
  set (a := default (placeholder st) (rootElement <$> items st !! i)).
  assert (Hsplit : ∃ l2, (rootElement <$> drop i (items st))
                         ++ placeholder st :: post = a :: l2).
  { subst a.
    replace (items st !! i) with (drop i (items st) !! 0)
      by (rewrite lookup_drop; f_equal; lia).
    destruct (drop i (items st)) as [|b0 rest]; simpl; eauto. }
  destruct Hsplit as (l2 & Hl2).
  assert (Hdom' : dom st = (pre ++ (rootElement <$> take i (items st))) ++ a :: l2).
  { rewrite Hdom. unfold roots. rewrite <- (take_drop i (items st)) at 1.
    by rewrite fmap_app, <- !app_assoc, Hl2. }
  rewrite (createItem_before data a _ l2) by done.
  unfold well_formed, with_items, roots. cbn [fst snd items placeholder dom next_node].
  rewrite Hdom' in Hnd, Hlt.
  destruct (insert_fresh_NoDup (S (next_node st))
              (pre ++ (rootElement <$> take i (items st))) (a :: l2)
              (next_node st)) as [Hnd' Hlt']; [done|done|lia|].
  split_and!; [done|done|].
  exists pre, post. rewrite fmap_app, fmap_cons. cbn [rootElement].
  rewrite <- !app_assoc. do 2 f_equal. rewrite <- app_comm_cons. f_equal.
  by rewrite Hl2.
Qed.

Lemma insert_well_formed (index : Z) (data : D) (st : state) :
  (0 ≤ index)%Z → well_formed st →
  well_formed (insert blockBuilder index data st).2.
Proof.
  intros Hindex Hwf. unfold insert.
  set (i := Z.to_nat (Z.min index (Z.of_nat (length (items st))))).
  pose proof (createItem_at_well_formed i data st Hwf ltac:(lia)) as H.
  assert (Hanchor : anchor index st
                    = default (placeholder st) (rootElement <$> items st !! i)).
  { unfold anchor, at_index. rewrite (proj2 (Z.ltb_ge index 0)) by lia.
    destruct (decide (index < Z.of_nat (length (items st)))%Z).
    - subst i. by rewrite Z.min_l by lia.
    - rewrite !lookup_ge_None_2 by lia. done. }
  rewrite <- Hanchor in H.
  destruct (createItem blockBuilder data
              (λ element, insertBefore (anchor index st) element) st)
    as [blk st1] eqn:Hcreate.
  cbn [fst snd] in H |- *.
  assert (Hitems1 : items st1 = items st).
  { unfold createItem in Hcreate. by injection Hcreate as _ <-. }
  unfold splice. cbn [snd]. rewrite Hitems1.
  rewrite (proj2 (Z.ltb_ge index 0)) by lia. fold i.
  replace (Z.to_nat (Z.min (Z.max 0 0)
             (Z.of_nat (length (items st))
              - Z.min index (Z.of_nat (length (items st)))))) with 0 by lia.
  rewrite Nat.add_0_r.
  replace blk with (Block (blockBuilder data) (S (next_node st)))
    by (unfold createItem in Hcreate; by injection Hcreate as <- _).
  exact H.
Qed.

Lemma set_well_formed (index : Z) (data : D) (st : state) :
  well_formed st → well_formed (set blockBuilder index data st).2.
Proof.
  intros Hwf. unfold set.
  destruct ((index <? 0) || (index >=? size st))%Z eqn:Hguard; [done|].
  unfold size in Hguard.
  assert (Hrange : (0 ≤ index < Z.of_nat (length (items st)))%Z) by lia.
  unfold at_index. rewrite (proj2 (Z.ltb_ge index 0)) by lia.
  set (i := Z.to_nat index).
  destruct (lookup_lt_is_Some_2 (items st) i) as [old Hold]; [lia|].
  rewrite Hold.
  destruct Hwf as (Hnd & Hlt & pre & post & Hdom).
  assert (Hitems : items st = take i (items st) ++ old :: drop (S i) (items st))
    by (by rewrite take_drop_middle).
  assert (Hdom' : dom st = (pre ++ (rootElement <$> take i (items st)))
                           ++ rootElement old
                           :: ((rootElement <$> drop (S i) (items st))
                               ++ placeholder st :: post)).
  { rewrite Hdom. unfold roots. rewrite Hitems at 1.
    by rewrite fmap_app, fmap_cons, <- !app_assoc. }
  rewrite (createItem_before data (rootElement old) _ _ st Hnd Hlt Hdom').
  unfold unmount_block, with_items, well_formed, roots.
  cbn [fst snd items placeholder dom next_node unmounted].
  rewrite Hdom' in Hnd, Hlt.
  set (l1 := pre ++ (rootElement <$> take i (items st))) in *.
  set (l2 := (rootElement <$> drop (S i) (items st)) ++ placeholder st :: post) in *.
  assert (Hnd12 : NoDup (l1 ++ l2) ∧ rootElement old ∉ l1 ++ l2).
  { rewrite <- Permutation_middle in Hnd. apply NoDup_cons in Hnd. tauto. }
  destruct Hnd12 as [Hnd12 Hold12].
  assert (Hlt12 : ∀ n, n ∈ l1 ++ l2 → n < next_node st).
  { intros n Hn. apply Hlt. rewrite <- Permutation_middle.
    by apply list_elem_of_further. }
  assert (Hrm : Dom.remove (rootElement old)
                  (l1 ++ S (next_node st) :: rootElement old :: l2)
                = l1 ++ S (next_node st) :: l2).
  { rewrite (cons_middle (S (next_node st)) l1), app_assoc.
    rewrite remove_middle.
    - by rewrite <- app_assoc.
    - rewrite elem_of_app, list_elem_of_singleton. intros [Hin|Heq].
      + apply Hold12, elem_of_app. by left.
      + assert (rootElement old < next_node st); [|lia].
        apply Hlt, elem_of_app. right. apply list_elem_of_here.
    - intros Hin. apply Hold12, elem_of_app. by right. }
  rewrite Hrm.
  destruct (insert_fresh_NoDup (S (next_node st)) l1 l2 (next_node st))
    as [Hnd' Hlt']; [done|done|lia|].
  split_and!; [done|done|].
  exists pre, post. rewrite insert_take_drop by lia.
  rewrite fmap_app, fmap_cons. cbn [rootElement]. subst l1 l2.
  by rewrite <- !app_assoc.
Qed.

(** Deleting one entry by [splice(i, 1)]. *)
Lemma splice_delete_middle {A : Type} (prefix : list A) (x : A) (rest : list A) :
  (splice (prefix ++ x :: rest) (Z.of_nat (length prefix)) 1 []).2
  = prefix ++ rest.
Proof.
  unfold splice. cbn [snd].
  rewrite (proj2 (Z.ltb_ge _ 0)) by lia.
  rewrite length_app. simpl length.
  replace (Z.to_nat (Z.min (Z.of_nat (length prefix))
                          (Z.of_nat (length prefix + S (length rest)))))
    with (length prefix) by lia.
  replace (Z.to_nat _) with 1 by lia.
  rewrite take_app_length. simpl.
  rewrite (cons_middle x prefix rest), app_assoc.
  replace (length prefix + 1) with (length (prefix ++ [x]))
    by (rewrite length_app; simpl; lia).
  by rewrite drop_app_length.
Qed.

(** The scan of [remove(predicate, count)]: the blocks it hits are
    unmounted in scan order, and deleting the recorded indices from the back
    leaves the entries that were not hit, in their order. *)
Lemma remove_scan_spec (predicate : C → Z → bool) (rest : list block)
    (index : nat) (count : option Z) (st : state) :
  ∃ remaining,
    (remove_scan predicate rest index count st).2
    = foldl (λ s x, unmount_block x s) st
            (remove_scan predicate rest index count st).1.*2 ∧
    (∀ prefix, length prefix = index →
       foldr (λ i l, (splice l (Z.of_nat i) 1 []).2) (prefix ++ rest)
             (remove_scan predicate rest index count st).1.*1
       = prefix ++ remaining) ∧
    (∀ b, b ∈ (remove_scan predicate rest index count st).1.*2 → b ∈ rest) ∧
    (NoDup (rootElement <$> rest) →
       rootElement <$> remaining
       = filter (λ n, n ∉ rootElement
                            <$> (remove_scan predicate rest index count st).1.*2)
                (rootElement <$> rest)).
Proof.
  revert index count st.
  induction rest as [|item rest IH]; intros index count st.
  - exists []. simpl. by split_and!.
  - simpl.
    set (hit := predicate (controller item) (Z.of_nat index)).
    set (st1 := if hit then unmount_block item st else st).
    set (count1 := if hit then (λ c, (c - 1)%Z) <$> count else count).
    destruct (bool_decide (count1 = Some 0%Z)) eqn:Hstop.
    + (* the loop breaks after this entry *)
      destruct hit eqn:Hhit; subst st1; simpl.
      * exists rest. split_and!; [done| | |].
        -- intros prefix Hp. subst index. apply splice_delete_middle.
        -- intros b Hb. apply list_elem_of_singleton in Hb as ->.
           apply list_elem_of_here.
        -- intros Hnd. apply NoDup_cons in Hnd as [Hitem _].
           rewrite filter_cons_False
             by (intros Hn; apply Hn, list_elem_of_here).
           symmetry. apply filter_all. intros x Hx Hin.
           apply list_elem_of_singleton in Hin as ->. done.
      * exists (item :: rest). split_and!; [done|done| |].
        -- intros b Hb. by apply elem_of_nil in Hb.
        -- intros _. symmetry. apply filter_all. intros x _. apply not_elem_of_nil.
    + destruct (IH (S index) count1 st1) as (remaining & Hst & Hfold & Hsub & Hroots).
      destruct (remove_scan predicate rest (S index) count1 st1) as [more st2].
      simpl in Hst, Hfold, Hsub, Hroots.
      destruct hit eqn:Hhit; subst st1; simpl.
      * exists remaining. split_and!; [done| | |].
        -- intros prefix Hp.
           rewrite (cons_middle item prefix rest), app_assoc.
           rewrite Hfold by (rewrite length_app; simpl; lia).
           rewrite <- app_assoc. simpl. subst index. apply splice_delete_middle.
        -- intros b Hb. apply elem_of_cons in Hb as [->|Hb].
           ++ apply list_elem_of_here.
           ++ by apply list_elem_of_further, Hsub.
        -- intros Hnd. apply NoDup_cons in Hnd as [Hitem Hnd].
           rewrite filter_cons_False
             by (intros Hn; apply Hn, list_elem_of_here).
           rewrite (Hroots Hnd). apply filter_iff_elem.
           intros x Hx. rewrite not_elem_of_cons. split; [|tauto].
           intros Hn. split; [|done]. by intros ->.
      * exists (item :: remaining). split_and!; [done| | |].
        -- intros prefix Hp.
           rewrite (cons_middle item prefix rest), app_assoc.
           rewrite Hfold by (rewrite length_app; simpl; lia).
           by rewrite <- app_assoc.
        -- intros b Hb. by apply list_elem_of_further, Hsub.
        -- intros Hnd. apply NoDup_cons in Hnd as [Hitem Hnd].
           rewrite fmap_cons, filter_cons_True, (Hroots Hnd); [done|].
           intros Hin. apply Hitem.
           apply list_elem_of_fmap in Hin as (b & -> & Hb).
           by apply list_elem_of_fmap_2, Hsub.
Qed.

Lemma remove_by_predicate_well_formed (predicate : C → Z → bool)
    (count : option Z) (st : state) :
  well_formed st → well_formed (remove (by_predicate predicate count) st).2.
Proof.
  intros (Hnd & Hlt & pre & post & Hdom). unfold remove.
  destruct (remove_scan_spec predicate (items st) 0 count st)
    as (remaining & Hst & Hfold & Hsub & Hroots).
  destruct (remove_scan predicate (items st) 0 count st) as [hits st1].
  cbn [fst snd] in *.
  rewrite foldl_unmount_block in Hst. subst st1.
  cbn [items placeholder dom next_node unmounted].
  pose proof (Hfold [] eq_refl) as Hf. rewrite app_nil_l in Hf. rewrite Hf.
  rewrite app_nil_l.
  assert (HndR : NoDup (roots st)).
  { rewrite Hdom in Hnd. apply NoDup_app in Hnd as (_ & _ & Hnd).
    by apply NoDup_app in Hnd as (? & _ & _). }
  specialize (Hroots HndR).
  unfold well_formed, with_items, roots. cbn [items placeholder dom next_node].
  split_and!.
  - by apply NoDup_filter.
  - intros n Hn. apply list_elem_of_filter in Hn as [_ Hn]. by apply Hlt.
  - exists pre, post. rewrite Hroots, Hdom.
    assert (Hin : ∀ x, x ∈ rootElement <$> hits.*2 → x ∈ roots st).
    { intros x Hx. apply list_elem_of_fmap in Hx as (b & -> & Hb).
      by apply list_elem_of_fmap_2, Hsub. }
    rewrite Hdom in Hnd.
    apply NoDup_app in Hnd as (_ & Hpre & Hnd).
    apply NoDup_app in Hnd as (_ & Hmid & _).
    rewrite !filter_app, (filter_all _ pre), (filter_all _ (placeholder st :: post)).
    + done.
    + intros x Hx Hh. by apply (Hmid x (Hin x Hh)).
    + intros x Hx Hh. apply (Hpre x Hx), elem_of_app. left. by apply Hin.
Qed.

(** *** Operations that do not *)

Lemma lookup_in_range (from : Z) (st : state) :
  (0 ≤ from < Z.of_nat (length (items st)))%Z →
  ∃ b, at_index (items st) from = Some b ∧ items st !! Z.to_nat from = Some b.
Proof.
  intros Hf. unfold at_index. rewrite (proj2 (Z.ltb_ge from 0)) by lia.
  destruct (lookup_lt_is_Some_2 (items st) (Z.to_nat from)) as [b Hb]; [lia|].
  eauto.
Qed.

Lemma bad_indices_false (from to : Z) (st : state) :
  bad_indices from to st = false →
  (0 ≤ from < Z.of_nat (length (items st)))%Z ∧
  (0 ≤ to < Z.of_nat (length (items st)))%Z ∧ from ≠ to.
Proof.
  unfold bad_indices, size. intros Hok.
  apply orb_false_iff in Hok as [_ Hok]. lia.
Qed.

(** After [move] the moved entry occurs twice in the backing sequence, at
    [to] and where it was, so the list is out of sync whatever the tree
    looks like. *)
Lemma move_breaks_sync (from to : Z) (st : state) :
  bad_indices from to st = false →
  ∃ fromItem,
    items st !! Z.to_nat from = Some fromItem ∧
    items (move from to st)
    = take (Z.to_nat to) (items st) ++ fromItem :: drop (Z.to_nat to) (items st) ∧
    ¬ in_sync (move from to st).
Proof.
  intros Hok. destruct (bad_indices_false _ _ _ Hok) as (Hf & Ht & Hne).
  destruct (lookup_in_range from st Hf) as (fromItem & Hfrom & Hfrom').
  destruct (lookup_in_range to st Ht) as (toItem & Hto & Hto').
  exists fromItem. split; [done|].
  assert (Hitems : items (move from to st)
                   = take (Z.to_nat to) (items st)
                     ++ fromItem :: drop (Z.to_nat to) (items st)).
  { unfold move. rewrite Hok, Hto, Hfrom. cbn [items with_dom with_items].
    unfold splice. cbn [snd]. rewrite (proj2 (Z.ltb_ge to 0)) by lia.
    rewrite Z.min_l by lia.
    replace (Z.to_nat (Z.min (Z.max 0 0) (Z.of_nat (length (items st)) - to)))
      with 0 by lia.
    by rewrite Nat.add_0_r. }
  split; [done|].
  intros [Hnd _]. unfold roots in Hnd. rewrite Hitems in Hnd.
  rewrite fmap_app, fmap_cons in Hnd.
  rewrite <- Permutation_middle in Hnd. apply NoDup_cons in Hnd as [Hnotin _].
  apply Hnotin. rewrite <- fmap_app, take_drop.
  apply list_elem_of_fmap_2. by apply list_elem_of_lookup_2 in Hfrom'.
Qed.

(** What [swap] does to a list whose entries at the two positions are [f]
    and [t], with the entries [M] between them: the entries are exchanged;
    the tree follows only when [M] is not empty. *)
Lemma swap_shape (A M B : list block) (f t : block) (P Q : children) (st : state) :
  items st = A ++ f :: M ++ t :: B →
  dom st = P ++ rootElement f :: (rootElement <$> M) ++ rootElement t :: Q →
  NoDup (dom st) →
  swap (Z.of_nat (length A)) (Z.of_nat (length A + 1 + length M)) st
  = with_dom (with_items st (A ++ t :: M ++ f :: B))
      (match M with
       | [] => dom st
       | _ => P ++ rootElement t :: (rootElement <$> M) ++ rootElement f :: Q
       end) ∧
  swap (Z.of_nat (length A + 1 + length M)) (Z.of_nat (length A)) st
  = swap (Z.of_nat (length A)) (Z.of_nat (length A + 1 + length M)) st.
Proof.
  intros Hitems Hdom Hnd.
  assert (Hlen : length (items st) = length A + 1 + length M + 1 + length B).
  { rewrite Hitems, length_app. simpl. rewrite length_app. simpl. lia. }
  assert (Hok : ∀ x y, (x = Z.of_nat (length A) ∧ y = Z.of_nat (length A + 1 + length M))
                       ∨ (y = Z.of_nat (length A) ∧ x = Z.of_nat (length A + 1 + length M)) →
                       bad_indices x y st = false).
  { intros x y Hxy. unfold bad_indices, size.
    apply orb_false_iff. split; [apply bool_decide_eq_false_2|]; lia. }
  assert (Hlo : at_index (items st) (Z.of_nat (length A)) = Some f).
  { unfold at_index. rewrite (proj2 (Z.ltb_ge _ 0)) by lia.
    rewrite Nat2Z.id, Hitems. by apply list_lookup_middle. }
  assert (Hhi : at_index (items st) (Z.of_nat (length A + 1 + length M)) = Some t).
  { unfold at_index. rewrite (proj2 (Z.ltb_ge _ 0)) by lia.
    rewrite Nat2Z.id, Hitems, (app_comm_cons M), app_assoc.
    apply list_lookup_middle. rewrite length_app. simpl. lia. }
  assert (Hgt : (Z.of_nat (length A) >? Z.of_nat (length A + 1 + length M))%Z
                = false).
  { rewrite Z.gtb_ltb. apply Z.ltb_ge. lia. }
  assert (Hgt' : (Z.of_nat (length A + 1 + length M) >? Z.of_nat (length A))%Z
                 = true).
  { rewrite Z.gtb_ltb. apply Z.ltb_lt. lia. }
  split.
  2:{ unfold swap. rewrite !Hok by auto. by rewrite Hgt, Hgt'. }
  unfold swap. rewrite Hok by auto. rewrite Hgt.
  rewrite Hhi, Hlo, !Nat2Z.id. f_equal.
  - (* the backing sequence *)
    f_equal. rewrite Hitems.
    rewrite (insert_app_r_alt A) by lia. rewrite Nat.sub_diag.
    rewrite (insert_app_r_alt A) by lia.
    replace (length A + 1 + length M - length A) with (S (length M)) by lia.
    simpl. do 2 f_equal.
    rewrite (insert_app_r_alt M) by lia. by rewrite Nat.sub_diag.
  - (* the tree *)
    assert (HfP : rootElement f ∉ P).
    { rewrite Hdom in Hnd. apply NoDup_app in Hnd as (_ & HP & _).
      intros Hin. by apply (HP _ Hin), list_elem_of_here. }
    rewrite Hdom at 1. rewrite nextSibling_middle by done.
    destruct M as [|m0 M'].
    + simpl. rewrite insertBefore_self.
      pose proof (insertBefore_later (rootElement t) (rootElement f) P [] Q) as H.
      simpl in H, Hdom. rewrite Hdom in Hnd |- *. by apply H.
    + cbn [fmap list_fmap app head default].
      rewrite Hdom.
      rewrite (insertBefore_later (rootElement t) (rootElement f) P
                 (rootElement <$> m0 :: M') Q) by (by rewrite <- Hdom).
      rewrite fmap_cons, <- app_comm_cons.
      rewrite (cons_middle (rootElement f)), (app_assoc (rootElement <$> M')).
      rewrite insertBefore_earlier.
      * by rewrite <- !app_assoc.
      * rewrite Hdom in Hnd. revert Hnd. apply NoDup_Permutation_proper.
        apply Permutation_app_head. rewrite fmap_cons, <- app_comm_cons.
        rewrite Permutation_swap. apply Permutation_skip.
        rewrite <- app_assoc. simpl. symmetry. apply Permutation_middle.
Qed.

Lemma split_two {A : Type} (l : list A) (lo hi : nat) :
  lo < hi < length l →
  ∃ a f m t b, l = a ++ f :: m ++ t :: b ∧ length a = lo ∧
               length a + 1 + length m = hi.
Proof.
  intros Hlt.
  destruct (lookup_lt_is_Some_2 l lo) as [f Hf]; [lia|].
  destruct (lookup_lt_is_Some_2 (drop (S lo) l) (hi - lo - 1)) as [t Ht].
  { rewrite length_drop. lia. }
  exists (take lo l), f, (take (hi - lo - 1) (drop (S lo) l)), t,
         (drop (S (hi - lo - 1)) (drop (S lo) l)).
  split_and!.
  - by rewrite (take_drop_middle _ _ _ Ht), (take_drop_middle _ _ _ Hf).
  - rewrite length_take. lia.
  - rewrite !length_take, length_drop. lia.
Qed.

(** The tree around two entries of a well-formed list. *)
Lemma well_formed_split (a m b : list block) (f t : block) (st : state) :
  well_formed st → items st = a ++ f :: m ++ t :: b →
  ∃ P Q, dom st = P ++ rootElement f :: (rootElement <$> m) ++ rootElement t :: Q ∧
         ∃ pre post, P = pre ++ (rootElement <$> a) ∧
                     Q = (rootElement <$> b) ++ placeholder st :: post.
Proof.
  intros (_ & _ & pre & post & Hdom) Hitems.
  exists (pre ++ (rootElement <$> a)), ((rootElement <$> b) ++ placeholder st :: post).
  split; [|by eauto].
  rewrite Hdom. unfold roots. rewrite Hitems.
  rewrite fmap_app, fmap_cons, fmap_app, fmap_cons. by app_normal.
Qed.

(** [swap] of two entries that are not neighbours exchanges them in the
    backing sequence and in the tree. *)
Lemma swap_apart_well_formed (from to : Z) (st : state) :
  well_formed st → bad_indices from to st = false →
  (from + 1 < to ∨ to + 1 < from)%Z →
  well_formed (swap from to st).
Proof.
  intros Hwf Hok Hapart.
  destruct (bad_indices_false _ _ _ Hok) as (Hf & Ht & _).
  assert (Hgen : ∀ lo hi : nat, lo + 1 < hi < length (items st) →
            well_formed (swap (Z.of_nat lo) (Z.of_nat hi) st) ∧
            swap (Z.of_nat hi) (Z.of_nat lo) st
            = swap (Z.of_nat lo) (Z.of_nat hi) st).
  { intros lo hi Hlh.
    destruct (split_two (items st) lo hi) as (a & f & m & t & b & Hitems & Ha & Hm);
      [lia|].
    destruct (well_formed_split a m b f t st Hwf Hitems)
      as (P & Q & Hdom & pre & post & -> & ->).
    assert (Hnd := Hwf). destruct Hnd as (Hnd & Hlt & _).
    destruct (swap_shape a m b f t _ _ st Hitems Hdom Hnd) as [Hswap Hsym].
    rewrite Hm, Ha in Hswap, Hsym. split; [|done].
    rewrite Hswap. destruct m as [|m0 m']; [simpl in Hm; lia|].
    unfold well_formed, with_dom, with_items, roots.
    cbn [items placeholder dom next_node].
    assert (Hperm : (pre ++ (rootElement <$> a)) ++ rootElement t
                    :: (rootElement <$> m0 :: m') ++ rootElement f
                    :: (rootElement <$> b) ++ placeholder st :: post
                    ≡ₚ dom st).
    { rewrite Hdom. apply Permutation_app_head.
      rewrite <- !Permutation_middle. rewrite Permutation_swap.
      do 2 apply Permutation_skip. done. }
    split_and!.
    - by rewrite Hperm.
    - intros n Hn. apply Hlt. by rewrite <- Hperm.
    - exists pre, post. by app_normal. }
  destruct Hapart as [Hlt|Hlt].
  - destruct (Hgen (Z.to_nat from) (Z.to_nat to)) as [Hswap _]; [lia|].
    by rewrite !Z2Nat.id in Hswap by lia.
  - destruct (Hgen (Z.to_nat to) (Z.to_nat from)) as [Hswap Hsym]; [lia|].
    rewrite !Z2Nat.id in Hswap, Hsym by lia. by rewrite Hsym.
Qed.

(** [swap] of two neighbours exchanges them in the backing sequence and
    leaves the tree as it was: the list is out of sync afterwards. *)
Lemma swap_adjacent_breaks_sync (i : nat) (st : state) :
  well_formed st → i + 1 < length (items st) →
  dom (swap (Z.of_nat i) (Z.of_nat (i + 1)) st) = dom st ∧
  items (swap (Z.of_nat i) (Z.of_nat (i + 1)) st) !! i = items st !! (i + 1) ∧
  items (swap (Z.of_nat i) (Z.of_nat (i + 1)) st) !! (i + 1) = items st !! i ∧
  swap (Z.of_nat (i + 1)) (Z.of_nat i) st
  = swap (Z.of_nat i) (Z.of_nat (i + 1)) st ∧
  ¬ in_sync (swap (Z.of_nat i) (Z.of_nat (i + 1)) st).
Proof.
  intros Hwf Hi.
  destruct (split_two (items st) i (i + 1)) as (a & f & m & t & b & Hitems & Ha & Hm);
    [lia|].
  destruct m as [|m0 m']; [|simpl in Hm; lia].
  destruct (well_formed_split a [] b f t st Hwf Hitems)
    as (P & Q & Hdom & pre & post & -> & ->).
  assert (Hnd := Hwf). destruct Hnd as (Hnd & _ & _).
  destruct (swap_shape a [] b f t _ _ st Hitems Hdom Hnd) as [Hswap Hsym].
  simpl in Hswap, Hsym, Hitems. rewrite Nat.add_0_r, Ha in Hswap, Hsym.
  rewrite Hswap. split_and!; [done| | |by rewrite Hsym|].
  - cbn [items with_dom with_items]. rewrite Hitems, <- Ha.
    rewrite (list_lookup_middle a _ t (length a)) by done.
    rewrite (cons_middle f a), app_assoc.
    symmetry. apply list_lookup_middle. rewrite length_app. simpl. lia.
  - cbn [items with_dom with_items]. rewrite Hitems, <- Ha.
    rewrite (list_lookup_middle a _ f (length a)) by done.
    rewrite (cons_middle t a), app_assoc.
    apply list_lookup_middle. rewrite length_app. simpl. lia.
  - intros [Hnd' Hsync].
    pose proof (well_formed_in_sync st Hwf) as [Hroots Hsync0].
    unfold managed_siblings, roots in *.
    cbn [items placeholder dom with_dom with_items] in Hsync, Hnd'.
    rewrite Hitems in Hsync0, Hroots.
    assert (Hsame : filter (λ n, n ∈ placeholder st
                                   :: (rootElement <$> a ++ t :: f :: b)) (dom st)
                    = filter (λ n, n ∈ placeholder st
                                   :: (rootElement <$> a ++ f :: t :: b)) (dom st)).
    { assert (Hperm : rootElement <$> a ++ t :: f :: b
                      ≡ₚ rootElement <$> a ++ f :: t :: b)
        by apply fmap_Permutation, Permutation_app_head, Permutation_swap.
      apply list_filter_iff. intros x. rewrite !elem_of_cons. by rewrite Hperm. }
    rewrite Hsame, Hsync0 in Hsync.
    apply app_inv_tail in Hsync.
    repeat progress (rewrite ?fmap_app, ?fmap_cons in Hsync).
    repeat progress (rewrite ?fmap_app, ?fmap_cons in Hroots).
    apply app_inv_head in Hsync. injection Hsync as Hft _.
    apply NoDup_app in Hroots as (_ & _ & Hroots).
    apply NoDup_cons in Hroots as [Hnotin _].
    apply Hnotin. rewrite Hft. apply list_elem_of_here.
Qed.

(** [Array.prototype.sort] permutes. *)
Lemma sort_insert_Permutation {A : Type} (compare : A → A → Z) (x : A)
    (l : list A) :
  sort_insert compare x l ≡ₚ x :: l.
Proof.
  induction l as [|y l IH]; [done|]. simpl.
  destruct (compare x y >? 0)%Z; [|done].
  by rewrite IH, Permutation_swap.
Qed.

Lemma sort_Permutation {A : Type} (compare : A → A → Z) (l : list A) :
  JsArray.sort compare l ≡ₚ l.
Proof.
  induction l as [|x l IH]; [done|]. unfold JsArray.sort in *. simpl.
  by rewrite sort_insert_Permutation, IH.
Qed.

(** The backing sequence after the loop of [sort]: the entries from
    [index] on are overwritten by the sorted ones. *)
Lemma sort_thread_items (sorted : list block) (index : nat) (lastNode : node)
    (st : state) :
  index + length sorted ≤ length (items st) →
  items (sort_thread sorted index lastNode st)
  = take index (items st) ++ sorted ++ drop (index + length sorted) (items st).
Proof.
  revert index lastNode st.
  induction sorted as [|b sorted IH]; intros index lastNode st Hlen.
  - simpl. by rewrite Nat.add_0_r, take_drop.
  - simpl in Hlen |- *. rewrite IH.
    2:{ cbn [items with_dom with_items]. rewrite length_insert. lia. }
    cbn [items with_dom with_items].
    rewrite take_insert_lt by lia. rewrite drop_insert_lt by lia.
    rewrite (take_S_r (items st) index (default b (items st !! index))).
    2:{ destruct (lookup_lt_is_Some_2 (items st) index) as [x ->]; [lia|done]. }
    rewrite insert_app_r_alt by (rewrite length_take; lia).
    rewrite length_take, Nat.min_l, Nat.sub_diag by lia. simpl.
    rewrite <- app_assoc. simpl. by rewrite Nat.add_succ_r.
Qed.

(** The tree after the loop of [sort]: every root it visits is moved in
    front of the one visited before it, so the visited roots end in reverse
    order in front of the starting node. *)
Lemma sort_thread_dom (sorted : list block) (index : nat) (lastNode : node)
    (pre U T : children) (st : state) :
  dom st = pre ++ U ++ lastNode :: T → NoDup (dom st) →
  NoDup (rootElement <$> sorted) →
  (∀ r, r ∈ rootElement <$> sorted → r ∈ U) →
  dom (sort_thread sorted index lastNode st)
  = pre ++ filter (λ n, n ∉ rootElement <$> sorted) U
    ++ reverse (rootElement <$> sorted) ++ lastNode :: T.
Proof.
  revert index lastNode U T st.
  induction sorted as [|b sorted IH]; intros index lastNode U T st Hdom Hnd Hs HU.
  - simpl. rewrite filter_all; [done|]. intros x _. apply not_elem_of_nil.
  - rewrite fmap_cons in Hs, HU. apply NoDup_cons in Hs as [Hb Hs].
    destruct (list_elem_of_split U (rootElement b)) as (U1 & U2 & ->).
    { apply HU, list_elem_of_here. }
    assert (Hmove : insertBefore lastNode (rootElement b) (dom st)
                    = pre ++ (U1 ++ U2) ++ rootElement b :: lastNode :: T).
    { rewrite Hdom in Hnd |- *.
      rewrite <- !app_assoc, <- app_comm_cons, (app_assoc pre U1) in Hnd |- *.
      rewrite insertBefore_later by done. by rewrite <- !app_assoc. }
    simpl sort_thread. rewrite Hmove.
    assert (Hnd1 : NoDup (pre ++ (U1 ++ U2) ++ rootElement b :: lastNode :: T)).
    { revert Hnd. rewrite Hdom. apply NoDup_Permutation_proper.
      apply Permutation_app_head. rewrite <- !app_assoc.
      apply Permutation_app_head. rewrite <- app_comm_cons.
      symmetry. apply Permutation_middle. }
    rewrite (IH (S index) (rootElement b) (U1 ++ U2) (lastNode :: T)); try done.
    + rewrite fmap_cons, reverse_cons, <- !app_assoc. simpl. do 2 f_equal.
      assert (HbU : rootElement b ∉ U1 ++ U2).
      { rewrite Hdom in Hnd. apply NoDup_app in Hnd as (_ & _ & Hnd).
        apply NoDup_app in Hnd as (Hnd & _ & _).
        rewrite <- Permutation_middle in Hnd. by apply NoDup_cons in Hnd as [? _]. }
      rewrite (filter_app _ U1 (rootElement b :: U2)), filter_cons_False
        by (intros Hn; apply Hn, list_elem_of_here).
      rewrite <- filter_app. apply filter_iff_elem.
      intros x Hx. rewrite not_elem_of_cons. split; [|tauto].
      intros Hn. split; [|done]. intros ->. done.
    + intros r Hr. assert (Hr' : r ∈ U1 ++ rootElement b :: U2).
      { apply HU. by apply list_elem_of_further. }
      rewrite elem_of_app, elem_of_cons in Hr'. rewrite elem_of_app.
      destruct Hr' as [?|[->|?]]; [tauto|done|tauto].
Qed.

Lemma sort_thread_placeholder (sorted : list block) (index : nat)
    (lastNode : node) (st : state) :
  placeholder (sort_thread sorted index lastNode st) = placeholder st.
Proof.
  revert index lastNode st. induction sorted as [|b sorted IH]; [done|].
  intros index lastNode st. simpl. by rewrite IH.
Qed.

(** The list's nodes among the children, when the roots [R] stand in front
    of the placeholder and the backing sequence has the same roots [R']. *)
Lemma managed_filter (pre post R R' : children) (ph : node) :
  NoDup (pre ++ R ++ ph :: post) → (∀ x, x ∈ R' ↔ x ∈ R) →
  filter (λ n, n ∈ ph :: R') (pre ++ R ++ ph :: post) = R ++ [ph].
Proof.
  intros Hnd HR.
  apply NoDup_app in Hnd as (_ & Hpre_rest & Hrest).
  apply NoDup_app in Hrest as (_ & Hroots_rest & Hph).
  apply NoDup_cons in Hph as [Hph _].
  rewrite filter_app, filter_app, filter_cons_True by apply list_elem_of_here.
  rewrite (filter_none _ pre), (filter_all _ R), (filter_none _ post).
  - done.
  - intros x Hx Hin. apply elem_of_cons in Hin as [->|Hin]; [done|].
    apply HR in Hin. apply (Hroots_rest x Hin). by apply list_elem_of_further.
  - intros x Hx. by apply list_elem_of_further, HR.
  - intros x Hx Hin. apply (Hpre_rest x Hx).
    apply elem_of_cons in Hin as [->|Hin].
    + apply elem_of_app. right. apply list_elem_of_here.
    + apply elem_of_app. left. by apply HR.
Qed.

(** [sort] on a list with two or more entries: the backing sequence holds
    the entries in sorted order, the tree holds their roots in the reverse
    of that order, and the list is out of sync. *)
Lemma sort_breaks_sync (sortFn : C → C → Z) (st : state) :
  well_formed st → 2 ≤ length (items st) →
  ∃ pre post,
    dom st = pre ++ roots st ++ placeholder st :: post ∧
    items (sort sortFn st)
    = JsArray.sort (λ a b, (- sortFn (controller a) (controller b))%Z) (items st) ∧
    dom (sort sortFn st)
    = pre ++ reverse (roots (sort sortFn st)) ++ placeholder st :: post ∧
    ¬ in_sync (sort sortFn st).
Proof.
  intros (Hnd & Hlt & pre & post & Hdom) Hlen. exists pre, post.
  split; [done|]. unfold sort. rewrite decide_False by lia.
  set (sorted := JsArray.sort _ (items st)).
  assert (Hperm : sorted ≡ₚ items st) by apply sort_Permutation.
  assert (Hroots : rootElement <$> sorted ≡ₚ roots st)
    by (unfold roots; by rewrite Hperm).
  assert (Hitems : items (sort_thread sorted 0 (placeholder st) st) = sorted).
  { rewrite sort_thread_items by (by rewrite Hperm).
    rewrite take_0, drop_ge, app_nil_r; [done|]. by rewrite Hperm. }
  assert (HndR : NoDup (roots st)).
  { rewrite Hdom in Hnd. apply NoDup_app in Hnd as (_ & _ & Hnd).
    by apply NoDup_app in Hnd as (? & _ & _). }
  assert (Hdom' : dom (sort_thread sorted 0 (placeholder st) st)
                  = pre ++ reverse (rootElement <$> sorted)
                    ++ placeholder st :: post).
  { rewrite (sort_thread_dom sorted 0 (placeholder st) pre (roots st) post);
      [|done|done|by rewrite Hroots|by intros r; rewrite Hroots].
    rewrite filter_none; [done|]. intros x Hx Hn. apply Hn. by rewrite Hroots. }
  split; [done|]. unfold roots at 1. rewrite Hitems. split; [done|].
  intros [HndS Hsync]. unfold managed_siblings, roots in Hsync, HndS.
  rewrite sort_thread_placeholder, Hitems, Hdom' in Hsync.
  rewrite Hitems in HndS.
  rewrite managed_filter in Hsync.
  - apply app_inv_tail in Hsync. revert Hsync. apply reverse_neq; [done|].
    rewrite Hroots. unfold roots. by rewrite length_fmap.
  - revert Hnd. rewrite Hdom. apply NoDup_Permutation_proper.
    apply Permutation_app_head, Permutation_app_tail.
    by rewrite reverse_Permutation, Hroots.
  - intros x. by rewrite elem_of_reverse.
Qed.

(** *** Reading, inserting, replacing *)

Lemma get_controllers (index : Z) (st : state) :
  get index st
  = if (index <? 0)%Z then None else controllers st !! Z.to_nat index.
Proof.
  unfold get, at_index, controllers. destruct (index <? 0)%Z; [done|].
  by rewrite list_lookup_fmap.
Qed.

(** [forEach(callback)] calls [callback] once per entry, in the order of
    the backing sequence, with the controller and the index. *)
Lemma forEach_calls (st : state) :
  (forEach st).*1 = controllers st ∧
  ∀ i c index, forEach st !! i = Some (c, index) →
               index = Z.of_nat i ∧ get index st = Some c.
Proof.
  unfold forEach, controllers. split.
  - apply list_eq. intros i.
    rewrite !list_lookup_fmap, list_lookup_imap.
    by destruct (items st !! i).
  - intros i c index Hi. rewrite list_lookup_imap in Hi.
    destruct (items st !! i) as [b|] eqn:Hb; [|done]. simpl in Hi.
    injection Hi as <- <-. split; [done|].
    unfold get, at_index.
    destruct (Z.ltb_spec (Z.of_nat i) 0) as [Hneg|_]; [lia|].
    by rewrite Nat2Z.id, Hb.
Qed.

Lemma createItem_items (data : D) (f : node → children → children) (st : state) :
  items (createItem blockBuilder data f st).2 = items st ∧
  (createItem blockBuilder data f st).1
  = Block (blockBuilder data) (S (next_node st)) ∧
  unmounted (createItem blockBuilder data f st).2 = unmounted st ∧
  placeholder (createItem blockBuilder data f st).2 = placeholder st.
Proof. done. Qed.

(** The backing sequence after [insert]. *)
Lemma insert_items (index : Z) (data : D) (st : state) :
  let s := Z.to_nat (if (index <? 0)%Z then Z.max (size st + index) 0
                     else Z.min index (size st)) in
  items (insert blockBuilder index data st).2
  = take s (items st)
    ++ Block (blockBuilder data) (S (next_node st)) :: drop s (items st).
Proof.
  unfold insert, splice, size. cbn [createItem fst snd items with_items].
  replace (Z.to_nat (Z.min (Z.max 0 0) _)) with 0 by lia.
  by rewrite Nat.add_0_r.
Qed.


(** X20: [push] and [unshift] are the two ends of [insert]: [push(data)]
    does what [insert(size, data)] does, and [unshift(data)] what
    [insert(0, data)] does, to the backing sequence and to the tree. *)
Theorem push_unshift_are_inserts (data : D) (st : state) :
  push blockBuilder data st = insert blockBuilder (size st) data st ∧
  unshift blockBuilder data st = insert blockBuilder 0 data st.
Proof.
  split.
  - unfold push, insert.
    assert (Hanchor : anchor (size st) st = placeholder st).
    { unfold anchor, at_index, size.
      rewrite (proj2 (Z.ltb_ge _ 0)) by lia.
      by rewrite lookup_ge_None_2 by lia. }
    rewrite Hanchor.
    destruct (createItem _ _ _ _) as [blk st1] eqn:Hcreate.
    pose proof (createItem_items data
                  (λ element, insertBefore (placeholder st) element) st)
      as (Hitems & _). rewrite Hcreate in Hitems. simpl in Hitems.
    do 2 f_equal. unfold splice, size. cbn [snd]. rewrite Hitems.
    rewrite (proj2 (Z.ltb_ge _ 0)) by lia.
    replace (Z.to_nat (Z.min (Z.of_nat (length (items st)))
                             (Z.of_nat (length (items st)))))
      with (length (items st)) by lia.
    replace (Z.to_nat (Z.min (Z.max 0 0) _)) with 0 by lia.
    by rewrite take_ge, drop_ge by lia.
  - unfold unshift, insert.
    destruct (createItem _ _ _ _) as [blk st1] eqn:Hcreate.
    do 2 f_equal. unfold splice. cbn [snd]. simpl.
    replace (Z.to_nat (Z.min 0 _)) with 0 by lia.
    replace (Z.to_nat (Z.min 0 _)) with 0 by lia.
    by rewrite take_0, drop_0.
Qed.



(** *** Taking entries out *)

(** X23: [pop()] returns what [get(size - 1)] returns and [shift()] what
    [get(0)] returns.  On an empty list both return [undefined] and change
    nothing.  Otherwise the last (first) entry leaves the backing sequence,
    its block is unmounted and its root leaves the tree; a list that is in
    step with the tree stays so. *)
Theorem pop_shift_results (st : state) :
  (pop st).1 = get (size st - 1) st ∧
  (shift st).1 = get 0 st ∧
  (items st = [] → pop st = (None, st) ∧ shift st = (None, st)) ∧
  (∀ l b, items st = l ++ [b] →
          (pop st).2 = unmount_block b (with_items st l)) ∧
  (∀ l b, items st = b :: l →
          (shift st).2 = unmount_block b (with_items st l)) ∧
  (well_formed st →
     well_formed (pop st).2 ∧ in_sync (pop st).2 ∧
     well_formed (shift st).2 ∧ in_sync (shift st).2).
Proof.
  split_and!.
  - unfold pop, JsArray.pop, get, at_index, size.
    destruct (items st) as [|b0 l] eqn:Hitems using rev_ind; [done|].
    rewrite last_snoc. cbn [fst]. rewrite length_app. simpl length.
    rewrite (proj2 (Z.ltb_ge _ 0)) by lia.
    replace (Z.to_nat (Z.of_nat (length l + 1) - 1)) with (length l) by lia.
    by rewrite list_lookup_middle.
  - unfold shift, JsArray.shift, get, at_index. by destruct (items st).
  - intros Hitems. unfold pop, shift, JsArray.pop, JsArray.shift.
    rewrite Hitems. simpl. rewrite <- Hitems. by rewrite with_items_id.
  - intros l b Hitems. unfold pop, JsArray.pop. rewrite Hitems, last_snoc.
    cbn [snd]. rewrite length_app. simpl length.
    replace (length l + 1 - 1) with (length l) by lia.
    by rewrite take_app_length.
  - intros l b Hitems. unfold shift, JsArray.shift. by rewrite Hitems.
  - intros Hwf.
    pose proof (pop_well_formed st Hwf). pose proof (shift_well_formed st Hwf).
    split_and!; auto using well_formed_in_sync.
Qed.

(** The blocks that the scan of [remove(predicate, count)] hits: all the
    entries that satisfy the predicate when no count is given, the first
    [count] of them for a count of one or more. *)
Lemma remove_scan_hits (predicate : C → Z → bool) (rest : list block)
    (index : nat) (st : state) :
  (remove_scan predicate rest index None st).1.*2
  = hits_from predicate rest index ∧
  ∀ n, (1 ≤ n)%Z →
       (remove_scan predicate rest index (Some n) st).1.*2
       = take (Z.to_nat n) (hits_from predicate rest index).
Proof.
  revert index st. induction rest as [|item rest IH]; intros index st.
  - split; [done|]. intros n _. simpl. by destruct (Z.to_nat n).
  - split.
    + cbn [remove_scan hits_from].
      destruct (predicate (controller item) (Z.of_nat index)); simpl.
      * destruct (IH (S index) (unmount_block item st)) as [IHnone _].
        destruct (remove_scan predicate rest (S index) None _) as [more st2].
        cbn [fst] in *. rewrite ?fmap_cons. cbn [snd app]. congruence.
      * destruct (IH (S index) st) as [IHnone _].
        destruct (remove_scan predicate rest (S index) None _) as [more st2].
        cbn [fst] in *. rewrite ?fmap_cons. cbn [snd app]. congruence.
    + intros n Hn. cbn [remove_scan hits_from].
      destruct (predicate (controller item) (Z.of_nat index)); simpl.
      * destruct (bool_decide (Some (n - 1)%Z = Some 0%Z)) eqn:Hstop.
        -- apply bool_decide_eq_true_1 in Hstop. injection Hstop as Hstop.
           replace (Z.to_nat n) with 1 by lia. simpl. by rewrite take_0.
        -- apply bool_decide_eq_false_1 in Hstop.
           assert (Hn1 : (1 ≤ n - 1)%Z).
           { destruct (decide (n - 1 = 0)%Z) as [Heq|?]; [|lia].
             by rewrite Heq in Hstop. }
           destruct (IH (S index) (unmount_block item st)) as [_ IHsome].
           specialize (IHsome (n - 1)%Z Hn1).
           destruct (remove_scan predicate rest (S index) (Some (n - 1)%Z) _)
             as [more st2].
           cbn [fst] in *. rewrite ?fmap_cons. cbn [snd app].
           replace (Z.to_nat n) with (S (Z.to_nat (n - 1))) by lia.
           simpl. congruence.
      * rewrite bool_decide_eq_false_2 by (intros [= ?]; lia).
        destruct (IH (S index) st) as [_ IHsome]. specialize (IHsome n Hn).
        destruct (remove_scan predicate rest (S index) (Some n) _) as [more st2].
        cbn [fst] in *. rewrite ?fmap_cons. cbn [snd app]. congruence.
Qed.

(** X24: [remove(predicate)] and [remove(predicate, count)].  Without a
    count the call returns, in order, the controllers of all the entries
    whose controller and index satisfy the predicate; with a count of one
    or more, those of the first [count] such entries.  The blocks of these
    entries are unmounted in that order, and on a list that is in step with
    the tree the entries that stay are the others, in their order, the
    removed roots are gone from the tree, and the list is in step again. *)
Theorem remove_by_predicate_result (predicate : C → Z → bool)
    (count : option Z) (st : state) :
  (∀ n, count = Some n → (1 ≤ n)%Z) →
  let removed :=
    match count with
    | None => hits_from predicate (items st) 0
    | Some n => take (Z.to_nat n) (hits_from predicate (items st) 0)
    end in
  let st' := (remove (by_predicate predicate count) st).2 in
  (remove (by_predicate predicate count) st).1
  = Controllers (controller <$> removed) ∧
  unmounted st' = unmounted st ++ (rootElement <$> removed) ∧
  (well_formed st →
     well_formed st' ∧ in_sync st' ∧
     roots st' = filter (λ n, n ∉ rootElement <$> removed) (roots st) ∧
     dom st' = filter (λ n, n ∉ rootElement <$> removed) (dom st)).
Proof.
  intros Hcount removed st'.
  pose proof (remove_by_predicate_well_formed predicate count st) as Hkeep.
  subst st'. unfold remove in *.
  destruct (remove_scan_spec predicate (items st) 0 count st)
    as (remaining & Hst & Hfold & Hsub & Hroots).
  destruct (remove_scan_hits predicate (items st) 0 st) as [Hnone Hsome].
  assert (Hhits : (remove_scan predicate (items st) 0 count st).1.*2 = removed).
  { subst removed. destruct count as [n|]; [|done]. by apply Hsome, Hcount. }
  destruct (remove_scan predicate (items st) 0 count st) as [hits st1].
  cbn [fst snd] in *. rewrite Hhits in *.
  rewrite foldl_unmount_block in Hst. subst st1.
  cbn [items placeholder dom next_node unmounted with_items] in *.
  split_and!; [done|done|].
  intros Hwf. specialize (Hkeep Hwf). split; [done|].
  split; [by apply well_formed_in_sync|].
  destruct Hwf as (Hnd & _ & pre & post & Hdom).
  assert (HndR : NoDup (roots st)).
  { rewrite Hdom in Hnd. apply NoDup_app in Hnd as (_ & _ & Hnd).
    by apply NoDup_app in Hnd as (? & _ & _). }
  split; [|done].
  pose proof (Hfold [] eq_refl) as Hf. rewrite !app_nil_l in Hf.
  unfold roots. cbn [items]. rewrite Hf. by apply Hroots.
Qed.

(** X25: [find] and [findIndex] agree with [get]:
    [find(predicate)] returns what [get(findIndex(predicate))] returns.
    [findIndex] returns -1 exactly when no entry satisfies the predicate
    with its index; otherwise it returns the least index whose entry does. *)
Theorem find_is_get_findIndex (predicate : C → Z → bool) (st : state) :
  find predicate st = get (findIndex predicate st) st ∧
  (findIndex predicate st = (-1)%Z ↔
   ∀ i b, items st !! i = Some b →
          predicate (controller b) (Z.of_nat i) = false) ∧
  (findIndex predicate st ≠ (-1)%Z →
   ∃ i b, findIndex predicate st = Z.of_nat i ∧ items st !! i = Some b ∧
          predicate (controller b) (Z.of_nat i) = true ∧
          ∀ j b', j < i → items st !! j = Some b' →
                  predicate (controller b') (Z.of_nat j) = false).
Proof.
  assert (Hscan : ∀ rest index,
            match find_from predicate rest index with
            | Some (i, b) =>
                index ≤ i ∧ rest !! (i - index) = Some b ∧
                predicate (controller b) (Z.of_nat i) = true ∧
                ∀ j b', j < i - index → rest !! j = Some b' →
                        predicate (controller b') (Z.of_nat (index + j)) = false
            | None =>
                ∀ j b', rest !! j = Some b' →
                        predicate (controller b') (Z.of_nat (index + j)) = false
            end).
  { induction rest as [|item rest IH]; intros index; [done|].
    cbn [find_from].
    destruct (predicate (controller item) (Z.of_nat index)) eqn:Hp.
    - rewrite Nat.sub_diag. split_and!; [done|done|done|]. intros j b' Hj. lia.
    - specialize (IH (S index)).
      destruct (find_from predicate rest (S index)) as [[i b]|].
      + destruct IH as (Hle & Hlook & Hpi & Hmin). split_and!; [lia| |done|].
        * replace (i - index) with (S (i - S index)) by lia. done.
        * intros [|j] b' Hj Hlook'.
          -- injection Hlook' as <-. by rewrite Nat.add_0_r.
          -- replace (index + S j) with (S index + j) by lia.
             apply Hmin; [lia|done].
      + intros [|j] b' Hlook'.
        * injection Hlook' as <-. by rewrite Nat.add_0_r.
        * replace (index + S j) with (S index + j) by lia. by apply IH. }
  specialize (Hscan (items st) 0). unfold find, findIndex, get, at_index.
  destruct (find_from predicate (items st) 0) as [[i b]|].
  - destruct Hscan as (_ & Hlook & Hp & Hmin).
    rewrite Nat.sub_0_r in Hlook, Hmin.
    rewrite (proj2 (Z.ltb_ge _ 0)) by lia. rewrite Nat2Z.id, Hlook.
    split_and!; [done| |].
    + split; [lia|]. intros Hall. by rewrite (Hall i b Hlook) in Hp.
    + intros _. exists i, b. split_and!; [done|done|done|].
      intros j b' Hj Hlook'. by apply (Hmin j b' Hj Hlook').
  - split_and!; [done| |done]. split; [|done]. intros _ i b Hlook.
    by apply (Hscan i b Hlook).
Qed.

(** X26: [remove(index)] and [remove(index, count)] with an index that is
    not negative take the run of [d] entries that starts at
    [s = min(index, size)] out of the list, where [d] is the count (1 when
    it is omitted, 0 when it is negative) cut to what the list holds from
    [s] on: the entries in front of [s] stay, those behind the run move
    down by [d], the blocks of the run are unmounted in order, and a list
    that is in step with the tree stays so. *)
Theorem remove_by_index_run (index : Z) (count : option Z) (st : state) :
  (0 ≤ index)%Z →
  let s := Z.min index (size st) in
  let d := Z.min (Z.max (default 1%Z count) 0) (size st - s) in
  let st' := (remove (by_index index count) st).2 in
  size st' = (size st - d)%Z ∧
  (∀ i, (i < s)%Z → get i st' = get i st) ∧
  (∀ i, (s ≤ i)%Z → get i st' = get (i + d) st) ∧
  unmounted st'
  = unmounted st
    ++ (rootElement <$> take (Z.to_nat d) (drop (Z.to_nat s) (items st))) ∧
  (well_formed st → well_formed st' ∧ in_sync st').
Proof.
  intros Hindex s d st'.
  pose proof (remove_by_index_well_formed index count st) as Hkeep.
  subst st'. rewrite remove_by_index_state in *.
  rewrite foldl_unmount_block. unfold splice in *. cbn [fst snd] in *.
  rewrite (proj2 (Z.ltb_ge index 0)) in * by lia.
  fold (size st) in *. fold s in Hkeep |- *. fold d in Hkeep |- *.
  rewrite app_nil_l in *.
  cbn [items with_items unmounted].
  assert (Hs : (0 ≤ s ≤ size st)%Z) by (unfold size in *; lia).
  assert (Hd : (0 ≤ d ≤ size st - s)%Z) by lia.
  assert (Hlen : length (take (Z.to_nat s) (items st)) = Z.to_nat s).
  { rewrite length_take. unfold size in Hs. lia. }
  split_and!.
  - unfold size in *. cbn [items]. rewrite length_app, Hlen, length_drop. lia.
  - intros i Hi. rewrite !get_controllers.
    destruct (i <? 0)%Z eqn:Hneg; [done|]. apply Z.ltb_ge in Hneg.
    unfold controllers. cbn [items]. rewrite !list_lookup_fmap. f_equal.
    rewrite lookup_app_l by lia. apply lookup_take_lt. lia.
  - intros i Hi. rewrite !get_controllers.
    rewrite !(proj2 (Z.ltb_ge _ 0)) by lia.
    unfold controllers. cbn [items]. rewrite !list_lookup_fmap. f_equal.
    rewrite lookup_app_r by lia. rewrite Hlen, lookup_drop. f_equal. lia.
  - done.
  - intros Hwf. specialize (Hkeep Hwf). rewrite foldl_unmount_block in Hkeep.
    split; [done|]. by apply well_formed_in_sync.
Qed.

(** *** The list as a whole *)

(** X27: the unmount hook of the list's ref.  Every block is unmounted, in
    the order of the backing sequence, and the backing sequence is emptied;
    on a list that is in step with the tree, all its roots and the
    placeholder are gone from the tree afterwards, and the other children
    are as they were. *)
Theorem list_unmount_cleans (st : state) :
  well_formed st →
  items (list_unmount st) = [] ∧
  unmounted (list_unmount st) = unmounted st ++ roots st ∧
  ∃ pre post,
    dom st = pre ++ roots st ++ placeholder st :: post ∧
    dom (list_unmount st) = pre ++ post.
Proof.
  intros (Hnd & _ & pre & post & Hdom). unfold list_unmount.
  rewrite foldl_unmount_block. cbn [items placeholder dom unmounted].
  split_and!; [done|done|]. exists pre, post. split; [done|].
  rewrite Hdom in Hnd |- *. fold (roots st).
  rewrite (filter_remove_middle pre (roots st) (placeholder st :: post) Hnd).
  apply NoDup_app in Hnd as (_ & Hpre & Hnd).
  apply NoDup_app in Hnd as (_ & _ & Hnd).
  apply NoDup_cons in Hnd as [Hph _].
  apply remove_middle; [|done].
  intros Hin. apply (Hpre _ Hin). apply elem_of_app. right.
  apply list_elem_of_here.
Qed.

Lemma populate_controllers (l : list D) (st : state) :
  controllers (populate blockBuilder l st)
  = controllers st ++ (blockBuilder <$> l) ∧
  (well_formed st → well_formed (populate blockBuilder l st)).
Proof.
  unfold populate. revert st. induction l as [|d l IH]; intros st.
  - simpl. by rewrite app_nil_r.
  - cbn [foldl]. destruct (IH (push blockBuilder d st).2) as [-> Hwf].
    split.
    + unfold controllers at 1, push.
      cbn [createItem fst snd items with_items].
      rewrite fmap_app, fmap_cons, <- app_assoc. done.
    + intros Hst. by apply Hwf, push_well_formed.
Qed.


(** *** Reordering *)

(** [swap] with indices that pass the guard exchanges the two entries of
    the backing sequence, whichever of the two indices is the greater. *)
Lemma swap_items (from to : Z) (st : state) :
  bad_indices from to st = false →
  ∃ f t, items st !! Z.to_nat from = Some f ∧ items st !! Z.to_nat to = Some t ∧
         items (swap from to st)
         = <[Z.to_nat to := f]> (<[Z.to_nat from := t]> (items st)).
Proof.
  intros Hok. destruct (bad_indices_false _ _ _ Hok) as (Hf & Ht & Hne).
  destruct (lookup_in_range from st Hf) as (f & Hfrom & Hfrom').
  destruct (lookup_in_range to st Ht) as (t & Hto & Hto').
  exists f, t. split; [done|]. split; [done|].
  unfold swap. rewrite Hok. destruct (from >? to)%Z eqn:Hgt.
  - rewrite Hfrom, Hto. cbn [items with_dom with_items].
    apply list_insert_insert_ne. lia.
  - by rewrite Hto, Hfrom.
Qed.

(** X29: [swap(from, to)] with two different indices inside 0 .. size - 1
    exchanges the two entries of the backing sequence: [get] returns at
    each of the two indices what it returned at the other, and the same as
    before everywhere else.  When the two entries are not neighbours and
    the list is in step with the tree, their roots change places in the
    tree as well, the list stays in step, and a second [swap] of the same
    two undoes the first. *)
Theorem swap_of_distant_entries (from to : Z) (st : state) :
  (0 ≤ from < size st)%Z → (0 ≤ to < size st)%Z → from ≠ to →
  let st' := swap from to st in
  get from st' = get to st ∧ get to st' = get from st ∧
  (∀ i, i ≠ from → i ≠ to → get i st' = get i st) ∧
  ((from + 1 < to ∨ to + 1 < from)%Z → well_formed st →
     well_formed st' ∧ in_sync st' ∧ swap from to st' = st).
Proof.
  intros Hf Ht Hne st'.
  assert (Hok : bad_indices from to st = false).
  { unfold bad_indices, size in *. apply orb_false_iff.
    split; [apply bool_decide_eq_false_2|]; lia. }
  destruct (swap_items from to st Hok) as (f & t & Hfrom & Hto & Hitems).
  fold st' in Hitems.
  assert (Hlf : Z.to_nat from < length (items st)) by (unfold size in *; lia).
  assert (Hlt : Z.to_nat to < length (items st)) by (unfold size in *; lia).
  split_and!.
  - rewrite !get_controllers, !(proj2 (Z.ltb_ge _ 0)) by lia.
    unfold controllers. rewrite Hitems, !list_lookup_fmap, Hto.
    rewrite list_lookup_insert_ne by lia.
    by rewrite list_lookup_insert_eq by done.
  - rewrite !get_controllers, !(proj2 (Z.ltb_ge _ 0)) by lia.
    unfold controllers. rewrite Hitems, !list_lookup_fmap, Hfrom.
    by rewrite list_lookup_insert_eq by (by rewrite length_insert).
  - intros i Hif Hit. rewrite !get_controllers.
    destruct (i <? 0)%Z eqn:Hneg; [done|]. apply Z.ltb_ge in Hneg.
    unfold controllers. rewrite Hitems, !list_lookup_fmap.
    by rewrite !list_lookup_insert_ne by lia.
  - intros Hapart Hwf.
    assert (Hwf' : well_formed st') by (by apply swap_apart_well_formed).
    split; [done|]. split; [by apply well_formed_in_sync|].
    assert (Hgen : ∀ lo hi : nat, lo + 1 < hi < length (items st) →
              swap (Z.of_nat lo) (Z.of_nat hi)
                   (swap (Z.of_nat lo) (Z.of_nat hi) st) = st ∧
              swap (Z.of_nat hi) (Z.of_nat lo)
                   (swap (Z.of_nat hi) (Z.of_nat lo) st) = st).
    { intros lo hi Hlh.
      destruct (split_two (items st) lo hi) as (a & x & m & y & b & Hsplit & Ha & Hm);
        [lia|].
      destruct (well_formed_split a m b x y st Hwf Hsplit)
        as (P & Q & Hdom & _).
      assert (Hnd := Hwf). destruct Hnd as (Hnd & _ & _).
      destruct (swap_shape a m b x y P Q st Hsplit Hdom Hnd) as [Hswap Hsym].
      rewrite Hm, Ha in Hswap, Hsym.
      destruct m as [|m0 m']; [simpl in Hm; lia|].
      set (st1 := swap (Z.of_nat lo) (Z.of_nat hi) st) in *.
      assert (Hitems1 : items st1 = a ++ y :: (m0 :: m') ++ x :: b)
        by (by rewrite Hswap).
      assert (Hdom1 : dom st1 = P ++ rootElement y
                              :: (rootElement <$> m0 :: m') ++ rootElement x :: Q)
        by (by rewrite Hswap).
      assert (Hnd1 : NoDup (dom st1)).
      { rewrite Hdom1. revert Hnd. rewrite Hdom. apply NoDup_Permutation_proper.
        apply Permutation_app_head.
        rewrite <- !Permutation_middle. rewrite Permutation_swap.
        do 2 apply Permutation_skip. done. }
      destruct (swap_shape a (m0 :: m') b y x P Q st1 Hitems1 Hdom1 Hnd1)
        as [Hswap1 Hsym1].
      rewrite Hm, Ha in Hswap1, Hsym1.
      assert (Hback : swap (Z.of_nat lo) (Z.of_nat hi) st1 = st).
      { rewrite Hswap1, Hswap. destruct st as [its ph c nx un].
        simpl in Hsplit, Hdom. by rewrite Hsplit, Hdom. }
      split; [done|]. rewrite Hsym. by rewrite Hsym1. }
    destruct Hapart as [Hlt'|Hlt'].
    + destruct (Hgen (Z.to_nat from) (Z.to_nat to)) as [Hback _]; [lia|].
      by rewrite !Z2Nat.id in Hback by lia.
    + destruct (Hgen (Z.to_nat to) (Z.to_nat from)) as [_ Hback]; [lia|].
      by rewrite !Z2Nat.id in Hback by lia.
Qed.

(** Stable insertion keeps neighbours in the order the comparator accepts,
    for a comparator that never asks for both orders of a pair. *)
Lemma sort_insert_neighbours {A : Type} (compare : A → A → Z) (x : A)
    (l : list A) :
  (∀ a b, (compare a b > 0)%Z → (compare b a ≤ 0)%Z) →
  (∀ i a b, l !! i = Some a → l !! S i = Some b → (compare a b ≤ 0)%Z) →
  (∀ i a b, sort_insert compare x l !! i = Some a →
            sort_insert compare x l !! S i = Some b → (compare a b ≤ 0)%Z) ∧
  (∀ h, head (sort_insert compare x l) = Some h → h = x ∨ head l = Some h).
Proof.
  intros Hasym. induction l as [|y l IH]; intros Hl.
  - split; [|by intros h [= <-]; left]. by intros [|i] a b.
  - cbn [sort_insert]. destruct (compare x y >? 0)%Z eqn:Hgt.
    + destruct IH as [IHadj IHhead].
      { intros i a b Ha Hb. by apply (Hl (S i) a b). }
      split; [|by intros h [= <-]; right].
      intros [|i] a b Ha Hb.
      * injection Ha as <-. simpl in Hb. rewrite <- head_lookup in Hb.
        destruct (IHhead b Hb) as [->|Hhead].
        -- apply Hasym. lia.
        -- apply (Hl 0 y b); [done|]. simpl. by rewrite <- head_lookup.
      * by apply (IHadj i a b).
    + split; [|by intros h [= <-]; left].
      intros [|i] a b Ha Hb.
      * injection Ha as <-. injection Hb as <-. lia.
      * by apply (Hl i a b).
Qed.

Lemma sort_neighbours {A : Type} (compare : A → A → Z) (l : list A) :
  (∀ a b, (compare a b > 0)%Z → (compare b a ≤ 0)%Z) →
  ∀ i a b, JsArray.sort compare l !! i = Some a →
           JsArray.sort compare l !! S i = Some b → (compare a b ≤ 0)%Z.
Proof.
  intros Hasym. unfold JsArray.sort. induction l as [|x l IH]; [done|].
  cbn [foldr]. by apply sort_insert_neighbours.
Qed.

Lemma sort_items (sortFn : C → C → Z) (st : state) :
  items (sort sortFn st)
  = JsArray.sort (λ a b, (- sortFn (controller a) (controller b))%Z) (items st).
Proof.
  unfold sort. case_decide as Hlen.
  - by destruct (items st).
  - set (sorted := JsArray.sort _ (items st)).
    assert (Hperm : sorted ≡ₚ items st) by apply sort_Permutation.
    rewrite sort_thread_items by (by rewrite Hperm).
    rewrite take_0, drop_ge, app_nil_r; [done|]. by rewrite Hperm.
Qed.

(** Neighbours in order, for a transitive order, means all in order. *)
Lemma neighbours_all {A : Type} (R : A → A → Prop) (l : list A) :
  (∀ a b c, R a b → R b c → R a c) →
  (∀ i a b, l !! i = Some a → l !! S i = Some b → R a b) →
  ∀ i j a b, i < j → l !! i = Some a → l !! j = Some b → R a b.
Proof.
  intros Htrans Hnext i j. revert i.
  induction j as [|j IH]; intros i a b Hij Ha Hb; [lia|].
  destruct (decide (i = j)) as [->|Hne]; [by apply (Hnext j)|].
  destruct (lookup_lt_is_Some_2 l j) as [c Hc].
  { apply lookup_lt_Some in Hb. lia. }
  apply (Htrans a c b).
  - apply (IH i a c); [lia|done|done].
  - by apply (Hnext j).
Qed.

(** X30: [sort(sortFn)] keeps every entry and stores the entries in the
    backing sequence in the order of the negated comparator: for a
    consistent comparator, [sortFn] is not negative on an earlier and a
    later controller of the backing sequence afterwards, so the controllers
    stand in descending order. *)
Theorem sort_descending (sortFn : C → C → Z) (st : state) :
  consistent_comparator sortFn →
  controllers (sort sortFn st) ≡ₚ controllers st ∧
  size (sort sortFn st) = size st ∧
  descending sortFn (controllers (sort sortFn st)).
Proof.
  intros [Hsign Htrans]. unfold controllers, size. rewrite sort_items.
  split_and!.
  - apply fmap_Permutation, sort_Permutation.
  - by rewrite sort_Permutation.
  - unfold descending. apply (neighbours_all (λ a b : C, (0 ≤ sortFn a b)%Z)).
    + intros a b c Hab Hbc.
      assert (Hba : (sortFn b a ≤ 0)%Z).
      { destruct (decide (0 < sortFn b a)%Z) as [Hlt|]; [|lia].
        apply Hsign in Hlt. lia. }
      assert (Hcb : (sortFn c b ≤ 0)%Z).
      { destruct (decide (0 < sortFn c b)%Z) as [Hlt|]; [|lia].
        apply Hsign in Hlt. lia. }
      pose proof (Htrans c b a Hcb Hba) as Hca.
      destruct (decide (sortFn a c < 0)%Z) as [Hlt|]; [|lia].
      apply Hsign in Hlt. lia.
    + intros i a b Ha Hb. rewrite list_lookup_fmap in Ha, Hb.
      destruct (JsArray.sort _ (items st) !! i) as [x|] eqn:Hx; [|done].
      destruct (JsArray.sort _ (items st) !! S i) as [y|] eqn:Hy; [|done].
      injection Ha as <-. injection Hb as <-.
      pose proof (sort_neighbours
                    (λ a b, (- sortFn (controller a) (controller b))%Z)
                    (items st)) as Hsorted.
      simpl in Hsorted.
      assert (Hasym : ∀ a b : block,
                (- sortFn (controller a) (controller b) > 0)%Z →
                (- sortFn (controller b) (controller a) ≤ 0)%Z).
      { intros a b Hab.
        assert (Hlt : (sortFn (controller a) (controller b) < 0)%Z) by lia.
        apply Hsign in Hlt. lia. }
      specialize (Hsorted Hasym i x y Hx Hy). lia.
Qed.

End list_facts.

Section list_examples.
Import Js Dom JsArray BlockList SampleList.

Lemma three_items_eq :
  three_items
  = State [Block 10 5; Block 20 7; Block 30 9] 3 [0; 5; 7; 9; 3; 2] 10 [].
Proof. by vm_compute. Qed.

(** C1, as the code behaves, on the list 10, 20, 30 (in sync after the three
    pushes).  [swap(0, 1)] exchanges the two entries and leaves the tree as
    it was.  [move(0, 2)] yields four entries, the first of them twice.
    [sort] with an ascending comparator stores the entries in descending
    order and threads the tree in ascending order. *)
Theorem swap_move_sort_break_sync :
  in_sync three_items ∧
  (items (swap 0 1 three_items) = [Block 20 7; Block 10 5; Block 30 9] ∧
   dom (swap 0 1 three_items) = dom three_items ∧
   ¬ in_sync (swap 0 1 three_items)) ∧
  (items (move 0 2 three_items)
   = [Block 10 5; Block 20 7; Block 10 5; Block 30 9] ∧
   dom (move 0 2 three_items) = [0; 7; 5; 9; 3; 2] ∧
   ¬ in_sync (move 0 2 three_items)) ∧
  (items (sort ascending three_items) = [Block 30 9; Block 20 7; Block 10 5] ∧
   dom (sort ascending three_items) = [0; 5; 7; 9; 3; 2] ∧
   ¬ in_sync (sort ascending three_items)).
Proof.
  split_and!; try (by vm_compute).
  - by apply (bool_decide_unpack _).
  - by apply (bool_decide_eq_false_1 _).
  - by apply (bool_decide_eq_false_1 _).
  - by apply (bool_decide_eq_false_1 _).
Qed.

(** C3 on that list: [remove(0)] returns the array [[10]], and
    [remove(0, 2)] returns the block of 10 instead of the controllers
    [[10, 20]]. *)
Lemma remove_by_index_result_example :
  (remove (by_index 0 None) three_items).1 = Controllers [10] ∧
  (remove (by_index 0 (Some 2%Z)) three_items).1
  = FirstRemoved (Some (Block 10 5)) ∧
  items (remove (by_index 0 (Some 2%Z)) three_items).2 = [Block 30 9] ∧
  dom (remove (by_index 0 (Some 2%Z)) three_items).2 = [0; 9; 3; 2] ∧
  unmounted (remove (by_index 0 (Some 2%Z)) three_items).2 = [5; 7].
Proof. by vm_compute. Qed.

(** [insert] with a negative index reads [items[-1]] (undefined, so the
    new root goes before the placeholder) but splices one place before the
    end. *)
Lemma insert_negative_index_example :
  items (insert builder (-1) 7 three_items).2
  = [Block 10 5; Block 20 7; Block 7 11; Block 30 9] ∧
  dom (insert builder (-1) 7 three_items).2 = [0; 5; 7; 9; 11; 3; 2] ∧
  ¬ in_sync (insert builder (-1) 7 three_items).2.
Proof.
  split_and!; try (by vm_compute). by apply (bool_decide_eq_false_1 _).
Qed.

(** C4 on that list and on the empty one. *)
Lemma first_last_guard_inverted_example :
  first three_items = Throw "Cannot access the first item of empty list" ∧
  last three_items = Throw "Cannot access the last item of empty list" ∧
  first empty_list = Throw type_error ∧
  last empty_list = Throw type_error.
Proof. by vm_compute. Qed.

(** *** The sample list under the other operations *)

Lemma sample_children_below (n : nat) : n ∈ [0; 1; 2] → n < 3.
Proof.
  intros Hn. repeat (apply elem_of_cons in Hn as [->|Hn]; [lia|]).
  by apply elem_of_nil in Hn.
Qed.

Lemma three_items_well_formed : well_formed three_items.
Proof.
  unfold three_items. do 3 apply push_well_formed.
  apply list_init_well_formed.
  - by apply (bool_decide_unpack _).
  - by apply (bool_decide_unpack _).
  - apply sample_children_below.
Qed.



(** [remove(c => c > 15)] and [remove(c => c > 15, 1)] on that list. *)
Lemma remove_by_predicate_result_witness :
  let big := λ (c : nat) (_ : Z), bool_decide (15 < c) in
  ((remove (by_predicate big None) three_items).1 = Controllers [20; 30] ∧
   controllers (remove (by_predicate big None) three_items).2 = [10] ∧
   in_sync (remove (by_predicate big None) three_items).2) ∧
  ((remove (by_predicate big (Some 1%Z)) three_items).1 = Controllers [20] ∧
   controllers (remove (by_predicate big (Some 1%Z)) three_items).2 = [10; 30] ∧
   in_sync (remove (by_predicate big (Some 1%Z)) three_items).2).
Proof.
  intros big.
  pose proof (remove_by_predicate_result big None three_items
                ltac:(by intros n [=])) as (Hres & _ & Hwf).
  pose proof (remove_by_predicate_result big (Some 1%Z) three_items
                ltac:(intros n [= <-]; lia)) as (Hres1 & _ & Hwf1).
  split.
  - split; [by rewrite Hres|]. split; [by vm_compute|].
    by apply Hwf, three_items_well_formed.
  - split; [by rewrite Hres1|]. split; [by vm_compute|].
    by apply Hwf1, three_items_well_formed.
Defined.

(** [remove(1)], [remove(1, 5)] and [remove(1, -2)] on that list. *)
Lemma remove_by_index_run_witness :
  (controllers (remove (by_index 1 None) three_items).2 = [10; 30] ∧
   size (remove (by_index 1 None) three_items).2 = 2%Z ∧
   in_sync (remove (by_index 1 None) three_items).2) ∧
  (controllers (remove (by_index 1 (Some 5%Z)) three_items).2 = [10] ∧
   size (remove (by_index 1 (Some 5%Z)) three_items).2 = 1%Z) ∧
  (controllers (remove (by_index 1 (Some (-2)%Z)) three_items).2 = [10; 20; 30] ∧
   size (remove (by_index 1 (Some (-2)%Z)) three_items).2 = 3%Z).
Proof.
  pose proof (remove_by_index_run 1 None three_items ltac:(lia))
    as (Hsize & _ & _ & _ & Hwf).
  pose proof (remove_by_index_run 1 (Some 5%Z) three_items ltac:(lia))
    as (Hsize5 & _).
  pose proof (remove_by_index_run 1 (Some (-2)%Z) three_items ltac:(lia))
    as (Hsize0 & _).
  split_and!; [by vm_compute|by rewrite Hsize| |by vm_compute|by rewrite Hsize5
              |by vm_compute|by rewrite Hsize0].
  by apply Hwf, three_items_well_formed.
Defined.

(** Unmounting that list leaves the two siblings it stood between. *)
Lemma list_unmount_cleans_witness :
  items (list_unmount three_items) = [] ∧
  unmounted (list_unmount three_items) = [5; 7; 9] ∧
  dom (list_unmount three_items) = [0; 2].
Proof.
  pose proof (list_unmount_cleans three_items three_items_well_formed)
    as (Hitems & Hun & _).
  split; [done|]. split; [by rewrite Hun|]. by vm_compute.
Defined.


(** [swap(0, 2)] on that list, twice. *)
Lemma swap_of_distant_entries_witness :
  controllers (swap 0 2 three_items) = [30; 20; 10] ∧
  dom (swap 0 2 three_items) = [0; 9; 7; 5; 3; 2] ∧
  in_sync (swap 0 2 three_items) ∧
  swap 0 2 (swap 0 2 three_items) = three_items.
Proof.
  pose proof (swap_of_distant_entries 0 2 three_items ltac:(by vm_compute)
                ltac:(by vm_compute) ltac:(done)) as (_ & _ & _ & Hfar).
  destruct Hfar as (_ & Hsync & Hback); [lia|apply three_items_well_formed|].
  split; [by vm_compute|]. split; [by vm_compute|]. by split.
Defined.

(** [sort((a, b) => a - b)] on that list: 30, 20, 10 in the backing
    sequence. *)
Lemma sort_descending_witness :
  controllers (sort ascending three_items) = [30; 20; 10] ∧
  descending ascending (controllers (sort ascending three_items)).
Proof.
  pose proof (sort_descending ascending three_items
                ltac:(split; unfold ascending; lia)) as (_ & _ & Hdesc).
  split; [by vm_compute|done].
Defined.

(** [set], [pop], [shift], [find] and [findIndex] on that list. *)
Lemma list_access_example :
  (set builder 1 25 three_items).1 = Return 25 ∧
  controllers (set builder 1 25 three_items).2 = [10; 25; 30] ∧
  dom (set builder 1 25 three_items).2 = [0; 5; 11; 9; 3; 2] ∧
  (set builder 3 25 three_items).1 = Throw "Item index is out of range" ∧
  (pop three_items).1 = Some 30 ∧ dom (pop three_items).2 = [0; 5; 7; 3; 2] ∧
  (shift three_items).1 = Some 10 ∧ dom (shift three_items).2 = [0; 7; 9; 3; 2] ∧
  pop empty_list = (None, empty_list) ∧
  findIndex (λ c _, bool_decide (15 < c)) three_items = 1%Z ∧
  find (λ c _, bool_decide (15 < c)) three_items = Some 20 ∧
  findIndex (λ c _, bool_decide (35 < c)) three_items = (-1)%Z ∧
  find (λ c _, bool_decide (35 < c)) three_items = None.
Proof. by vm_compute. Qed.

End list_examples.
